(** * Album sharing synchronisation: a shallow embedding of [album_processor.py]

    The development follows the Python source function by function.

    - Text is modelled as [string] over ASCII code points; [lower] and
      [strip] are Python's [str.lower] and [str.strip] on that domain.
    - A Python [dict] is an association list in insertion order with
      unique keys ([dict_set] overwrites in place, as CPython does).
    - A Python [set] is a duplicate-free list; the order in which a [for]
      loop visits it is not fixed by the language, so every loop over a set
      goes through a [SetOrder], an arbitrary permutation of the elements.
    - JSON objects are records whose fields are optional, read with the
      defaults the source passes to [dict.get].
    - The HTTP transport is an interface [API] over an abstract world; the
      methods of [AlbumAPIProcessor] are written against it.  Mutating
      requests are appended to a call log together with their outcome. *)

From Stdlib Require Import List String Ascii Bool Arith ZArith Lia Permutation.
From Stdlib Require Import DecimalString.
Import ListNotations.
Open Scope string_scope.
Open Scope list_scope.

(** ** Python text *)

Definition truthy (s : string) : bool := negb (String.eqb s "").

(* A character of the model is a code point below 256.  The capitals of
   [str.lower] among them: A..Z and U+00C0..U+00DE without the
   multiplication sign U+00D7; each is lowered by adding 32. *)
Definition is_upper (c : ascii) : bool :=
  let n := nat_of_ascii c in
  (((65 <=? n) && (n <=? 90))
   || ((192 <=? n) && (n <=? 222) && negb (n =? 215)))%nat.

Definition lower_char (c : ascii) : ascii :=
  if is_upper c then ascii_of_nat (nat_of_ascii c + 32) else c.

Fixpoint lower (s : string) : string :=
  match s with
  | EmptyString => EmptyString
  | String c s' => String (lower_char c) (lower s')
  end.

(* White space of [str.strip] below 256: \t \n \v \f \r, \x1c..\x1f,
   space, U+0085 and U+00A0. *)
Definition is_space (c : ascii) : bool :=
  let n := nat_of_ascii c in
  (((9 <=? n) && (n <=? 13)) || ((28 <=? n) && (n <=? 32))
   || (n =? 133) || (n =? 160))%nat.

Fixpoint lstrip (s : string) : string :=
  match s with
  | EmptyString => EmptyString
  | String c s' => if is_space c then lstrip s' else s
  end.

Fixpoint rstrip (s : string) : string :=
  match s with
  | EmptyString => EmptyString
  | String c s' =>
      match rstrip s' with
      | EmptyString => if is_space c then EmptyString else String c EmptyString
      | r => String c r
      end
  end.

Definition strip (s : string) : string := rstrip (lstrip s).

Definition str_of_nat (n : nat) : string :=
  NilEmpty.string_of_uint (Nat.to_uint n).

(* [re.match(r'^https?://', url)] *)
Definition has_http_scheme (url : string) : bool :=
  String.prefix "http://" url || String.prefix "https://" url.

(* The scheme switch of [_validate_and_adjust_url]: http becomes https.
   The source rebuilds the address with
   [urlparse(url)._replace(scheme='https').geturl()]; the swap of the prefix
   is what that gives on an address that [urlparse] and [geturl] write back
   unchanged.  An address that starts with https:// is not rewritten at
   all. *)
Definition adjust_url (url : string) : string :=
  if String.prefix "http://" url
  then ("https://" ++ String.substring 7 (String.length url - 7) url)%string
  else url.

(** ** Python containers *)

Definition dict (V : Type) : Type := list (string * V).

Fixpoint dict_get {V} (d : dict V) (k : string) : option V :=
  match d with
  | [] => None
  | (k', v) :: d' => if String.eqb k' k then Some v else dict_get d' k
  end.

Definition dict_mem {V} (k : string) (d : dict V) : bool :=
  match dict_get d k with Some _ => true | None => false end.

(* [d[k] = v] *)
Fixpoint dict_set {V} (d : dict V) (k : string) (v : V) : dict V :=
  match d with
  | [] => [(k, v)]
  | (k', v') :: d' =>
      if String.eqb k' k then (k', v) :: d' else (k', v') :: dict_set d' k v
  end.

(* In-place mutation of the value stored under [k]; every use below comes
   after the key has been inserted. *)
Fixpoint dict_update {V} (d : dict V) (k : string) (f : V -> V) : dict V :=
  match d with
  | [] => []
  | (k', v') :: d' =>
      if String.eqb k' k then (k', f v') :: d' else (k', v') :: dict_update d' k f
  end.

Definition dict_keys {V} (d : dict V) : list string := map fst d.

Definition get_or {A} (default : A) (o : option A) : A :=
  match o with Some x => x | None => default end.

Definition mem_str (x : string) (s : list string) : bool :=
  existsb (String.eqb x) s.

Definition pair_eqb (a b : string * string) : bool :=
  String.eqb (fst a) (fst b) && String.eqb (snd a) (snd b).

Definition mem_pair (x : string * string) (s : list (string * string)) : bool :=
  existsb (pair_eqb x) s.

(* [s.add(x)] *)
Definition set_add_str (x : string) (s : list string) : list string :=
  if mem_str x s then s else s ++ [x].

Definition set_add_pair (x : string * string) (s : list (string * string))
  : list (string * string) :=
  if mem_pair x s then s else s ++ [x].

(* Iteration order of sets of emails and of sets of (email, role) tuples. *)
Record SetOrder : Type := {
  iter_emails : list string -> list string;
  iter_emails_perm : forall l, Permutation (iter_emails l) l;
  iter_pairs : list (string * string) -> list (string * string);
  iter_pairs_perm : forall l, Permutation (iter_pairs l) l
}.

Definition insertion_order : SetOrder :=
  {| iter_emails := fun l => l;
     iter_emails_perm := fun l => Permutation_refl l;
     iter_pairs := fun l => l;
     iter_pairs_perm := fun l => Permutation_refl l |}.

Definition reversed_order : SetOrder :=
  {| iter_emails := @rev string;
     iter_emails_perm := fun l => Permutation_sym (Permutation_rev l);
     iter_pairs := @rev (string * string);
     iter_pairs_perm := fun l => Permutation_sym (Permutation_rev l) |}.

(** ** JSON records of the API *)

Record user_json : Type := {
  u_email : option string;
  u_id : option string
}.

Record album_user_json : Type := {
  au_role : option string;
  au_user : option user_json
}.

Record album_json : Type := {
  a_id : option string;
  a_albumName : option string;
  a_albumUsers : option (list album_user_json)
}.

(* The empty object [{}] used as default of [user_info.get('user', {})]. *)
Definition empty_user : user_json := {| u_email := None; u_id := None |}.

(** ** The transport interface *)

Record API (W : Type) : Type := {
  api_get_albums : W -> W * option (list album_json);
  api_get_album_details : string -> W -> W * option album_json;
  api_get_users : W -> W * option (list user_json);
  api_share : string -> string -> string -> W -> W * bool;
  api_remove : string -> string -> W -> W * bool
}.

Arguments api_get_albums {W}.
Arguments api_get_album_details {W}.
Arguments api_get_users {W}.
Arguments api_share {W}.
Arguments api_remove {W}.

(* A mutating request, with the email the source prints before issuing it
   and the boolean the request method returned. *)
Inductive event : Type :=
| EvRemove (album_id email user_id : string) (ok : bool)
| EvShare (album_id email user_id role : string) (ok : bool).

Definition is_remove (e : event) : bool :=
  match e with EvRemove _ _ _ _ => true | EvShare _ _ _ _ _ => false end.

Definition is_share (e : event) : bool :=
  match e with EvRemove _ _ _ _ => false | EvShare _ _ _ _ _ => true end.

Definition ev_album (e : event) : string :=
  match e with EvRemove a _ _ _ => a | EvShare a _ _ _ _ => a end.

Definition ev_email (e : event) : string :=
  match e with EvRemove _ m _ _ => m | EvShare _ m _ _ _ => m end.

Definition ev_ok (e : event) : bool :=
  match e with EvRemove _ _ _ b => b | EvShare _ _ _ _ b => b end.

(** ** Statistics and ingestion data *)

Record stats : Type := {
  total_albums : nat;
  successful_shares : nat;
  failed_shares : nat;
  users_removed : nat;
  removal_failures : nat;
  users_not_found : list string
}.

Definition stats0 : stats :=
  {| total_albums := 0; successful_shares := 0; failed_shares := 0;
     users_removed := 0; removal_failures := 0; users_not_found := [] |}.

(* The value stored per album id in [album_data]. *)
Record album_entry : Type := {
  users : list (string * string);
  role : string
}.

(* The exceptions of the runs that are modelled: the input file, when it
   exists, decodes and parses as CSV, and the fields of the JSON answers are
   strings or absent.  An exception raised by the reader itself or by a null
   JSON field has no counterpart here. *)
Inductive exn : Type :=
| FileNotFoundError
| StopIteration
| IndexError
| ValueError.

Definition COL_ALBUM_NAME : string := "AlbumName".
Definition COL_ALBUM_ID : string := "AlbumId".
Definition COL_ROLE : string := "Role".

(* [headers.index(x)]; [None] stands for the ValueError. *)
Fixpoint index (x : string) (l : list string) : option nat :=
  match l with
  | [] => None
  | y :: l' => if String.eqb y x then Some 0 else option_map S (index x l')
  end.

Record columns : Type := {
  name_idx : nat;
  id_idx : nat;
  role_idx : nat;
  user_indices : list nat
}.

Definition parse_header (headers : list string) : option columns :=
  match index COL_ALBUM_NAME headers with
  | None => None
  | Some n =>
      match index COL_ALBUM_ID headers with
      | None => None
      | Some i =>
          match index COL_ROLE headers with
          | None => None
          | Some r =>
              Some {| name_idx := n; id_idx := i; role_idx := r;
                      user_indices := seq 3 (List.length headers - 3) |}
          end
      end
  end.

Definition add_user (album_data : dict album_entry) (album_id : string)
  (t : string * string) : dict album_entry :=
  dict_update album_data album_id
    (fun d => {| users := set_add_pair t (users d); role := role d |}).

(* Body of [for i in user_indices]; [None] is the case [i >= len(row)]. *)
Definition add_cell (row : list string) (album_id role : string)
  (album_data : dict album_entry) (i : nat) : dict album_entry :=
  match nth_error row i with
  | None => album_data
  | Some cell =>
      let email := lower (strip cell) in
      if truthy email then add_user album_data album_id (email, role)
      else album_data
  end.

(* Body of [for row in reader]. *)
Definition ingest_row (c : columns) (album_data : dict album_entry)
  (row : list string) : exn + dict album_entry :=
  match row with
  | [] => inr album_data
  | _ :: _ =>
      match nth_error row (id_idx c) with
      | None => inl IndexError
      | Some id_cell =>
          match nth_error row (role_idx c) with
          | None => inl IndexError
          | Some role_cell =>
              let album_id := strip id_cell in
              let role := lower (strip role_cell) in
              if negb (truthy album_id) || negb (truthy role) then inr album_data
              else
                let album_data1 :=
                  if dict_mem album_id album_data then album_data
                  else dict_set album_data album_id {| users := []; role := role |} in
                inr (fold_left (add_cell row album_id role)
                       (user_indices c) album_data1)
          end
      end
  end.

Fixpoint ingest_rows (c : columns) (album_data : dict album_entry)
  (rows : list (list string)) : exn + dict album_entry :=
  match rows with
  | [] => inr album_data
  | row :: rows' =>
      match ingest_row c album_data row with
      | inl e => inl e
      | inr album_data' => ingest_rows c album_data' rows'
      end
  end.

(** ** [get_users] and [get_current_album_users] *)

(* Body of [for user in users]. *)
Definition directory_step (email_to_id : dict string) (u : user_json)
  : dict string :=
  match u_email u, u_id u with
  | Some email, Some user_id =>
      if truthy email && truthy user_id
      then dict_set email_to_id (lower email) user_id
      else email_to_id
  | _, _ => email_to_id
  end.

Definition build_email_to_id (us : list user_json) : dict string :=
  fold_left directory_step us [].

Definition entry_email (ui : album_user_json) : string :=
  get_or "" (u_email (get_or empty_user (au_user ui))).

(* Body of [for user_info in album_details.get('albumUsers', [])]. *)
Definition current_step (current_users : dict string) (ui : album_user_json)
  : dict string :=
  let email := lower (entry_email ui) in
  let role := get_or "" (au_role ui) in
  if truthy email && truthy role then dict_set current_users email role
  else current_users.

Definition album_entries (a : album_json) : list album_user_json :=
  get_or [] (a_albumUsers a).

Definition current_users_of (album_details : option album_json) : dict string :=
  match album_details with
  | None => []
  | Some a => fold_left current_step (album_entries a) []
  end.

(** ** The synchronisation run *)

Definition role_differs (current_role : option string) (role : string) : bool :=
  match current_role with
  | None => true
  | Some r => negb (String.eqb r role)
  end.

Definition count_share (ok : bool) (s : stats) : stats :=
  {| total_albums := total_albums s;
     successful_shares := if ok then S (successful_shares s) else successful_shares s;
     failed_shares := if ok then failed_shares s else S (failed_shares s);
     users_removed := users_removed s;
     removal_failures := removal_failures s;
     users_not_found := users_not_found s |}.

Definition count_removal (ok : bool) (s : stats) : stats :=
  {| total_albums := total_albums s;
     successful_shares := successful_shares s;
     failed_shares := failed_shares s;
     users_removed := if ok then S (users_removed s) else users_removed s;
     removal_failures := if ok then removal_failures s else S (removal_failures s);
     users_not_found := users_not_found s |}.

Definition count_not_found (email : string) (s : stats) : stats :=
  {| total_albums := total_albums s;
     successful_shares := successful_shares s;
     failed_shares := S (failed_shares s);
     users_removed := users_removed s;
     removal_failures := removal_failures s;
     users_not_found := set_add_str email (users_not_found s) |}.

Definition count_album (s : stats) : stats :=
  {| total_albums := S (total_albums s);
     successful_shares := successful_shares s;
     failed_shares := failed_shares s;
     users_removed := users_removed s;
     removal_failures := removal_failures s;
     users_not_found := users_not_found s |}.

Inductive outcome : Type :=
| Completed (s : stats)
| InvalidFormat
| SysExit (code : Z).

Inductive export_outcome : Type :=
| Written (table : list (list string))
| NoAlbums
| ExportExit (code : Z).

Section Client.

Context {W : Type} (api : API W) (ord : SetOrder).

Record state : Type := {
  world : W;
  calls : list event;
  st : stats
}.

Record run : Type := {
  final : W;
  result : outcome;
  issued : list event
}.

(* [None] stands for the [sys.exit(1)] of the except branch. *)
Definition get_users (w : W) : W * option (dict string) :=
  let (w', r) := api_get_users api w in
  (w', option_map build_email_to_id r).

Definition get_current_album_users (album_id : string) (w : W)
  : W * dict string :=
  let (w', album_details) := api_get_album_details api album_id w in
  (w', current_users_of album_details).

(* [{email for email, _ in data['users']}] *)
Definition desired_users (data : album_entry) : list string :=
  fold_left (fun s t => set_add_str (fst t) s) (iter_pairs ord (users data)) [].

(* [set(current_users.keys()) - desired_users] *)
Definition users_to_remove (current_users : dict string)
  (desired : list string) : list string :=
  filter (fun e => negb (mem_str e desired)) (dict_keys current_users).

(* Body of [for email in users_to_remove]. *)
Definition remove_step (email_to_id : dict string) (album_id : string)
  (s : state) (email : string) : state :=
  match dict_get email_to_id email with
  | None => s
  | Some user_id =>
      if truthy user_id then
        let (w', ok) := api_remove api album_id user_id (world s) in
        {| world := w';
           calls := calls s ++ [EvRemove album_id email user_id ok];
           st := count_removal ok (st s) |}
      else s
  end.

Definition not_found_step (s : state) (email : string) : state :=
  {| world := world s; calls := calls s; st := count_not_found email (st s) |}.

(* Body of [for email, role in data['users']]. *)
Definition share_step (email_to_id : dict string) (album_id : string)
  (current_users : dict string) (s : state) (t : string * string) : state :=
  let (email, role) := t in
  match dict_get email_to_id email with
  | None => not_found_step s email
  | Some user_id =>
      if truthy user_id then
        if role_differs (dict_get current_users email) role then
          let (w', ok) := api_share api album_id user_id role (world s) in
          {| world := w';
             calls := calls s ++ [EvShare album_id email user_id role ok];
             st := count_share ok (st s) |}
        else s
      else not_found_step s email
  end.

(* Body of [for album_id, data in album_data.items()]. *)
Definition process_album (email_to_id : dict string) (s : state)
  (item : string * album_entry) : state :=
  let (album_id, data) := item in
  let s0 := {| world := world s; calls := calls s; st := count_album (st s) |} in
  (* the fetch whose only use is the printed album name *)
  let (w1, _) := api_get_album_details api album_id (world s0) in
  let (w2, current_users) := get_current_album_users album_id w1 in
  let s2 := {| world := w2; calls := calls s0; st := st s0 |} in
  let desired := desired_users data in
  let to_remove := users_to_remove current_users desired in
  let s3 := fold_left (remove_step email_to_id album_id)
              (iter_emails ord to_remove) s2 in
  fold_left (share_step email_to_id album_id current_users)
    (iter_pairs ord (users data)) s3.

Definition process_all (email_to_id : dict string)
  (album_data : dict album_entry) (s : state) : state :=
  fold_left (process_album email_to_id) album_data s.

(* [file] is what [open] and [csv.reader] deliver: [None] when the file
   does not exist, otherwise its rows.  [open_csv] is the [open] followed by
   [headers = next(reader)]. *)
Definition open_csv (file : option (list (list string)))
  : exn + (list string * list (list string)) :=
  match file with
  | None => inl FileNotFoundError
  | Some [] => inl StopIteration
  | Some (headers :: rows) => inr (headers, rows)
  end.

(* The two handlers closing [process_share_albums]: [except
   FileNotFoundError] and [except Exception] both end in [sys.exit(1)]. *)
Definition handle (e : exn) : outcome :=
  match e with
  | FileNotFoundError => SysExit 1
  | StopIteration | IndexError | ValueError => SysExit 1
  end.

Definition process_share_albums (file : option (list (list string))) (w : W)
  : run :=
  match get_users w with
  | (w1, None) => {| final := w1; result := SysExit 1; issued := [] |}
  | (w1, Some email_to_id) =>
      match open_csv file with
      | inl e => {| final := w1; result := handle e; issued := [] |}
      | inr (headers, rows) =>
          (* the inner handler of the ValueError of [headers.index] returns *)
          match parse_header headers with
          | None => {| final := w1; result := InvalidFormat; issued := [] |}
          | Some c =>
              match ingest_rows c [] rows with
              | inl e => {| final := w1; result := handle e; issued := [] |}
              | inr album_data =>
                  let s := process_all email_to_id album_data
                             {| world := w1; calls := []; st := stats0 |} in
                  {| final := world s; result := Completed (st s);
                     issued := calls s |}
              end
          end
      end
  end.

(** ** The exporter *)

Record processed : Type := {
  p_name : string;
  p_id : string;
  p_role : string;
  p_users : list string
}.

Definition entry_role (ui : album_user_json) : string :=
  get_or "unknown" (au_role ui).

Definition exported_email (ui : album_user_json) : string :=
  get_or "" (u_email (get_or empty_user (au_user ui))).

Definition group_step (role_users : dict (list string))
  (user_info : album_user_json) : dict (list string) :=
  let role := entry_role user_info in
  let user_email := exported_email user_info in
  let role_users1 :=
    if dict_mem role role_users then role_users
    else dict_set role_users role [] in
  if truthy user_email
  then dict_update role_users1 role (fun l => l ++ [user_email])
  else role_users1.

Definition group_by_role (album_users : list album_user_json)
  : dict (list string) :=
  fold_left group_step album_users [].

Definition album_rows (album : album_json) : list processed :=
  let album_name := get_or "" (a_albumName album) in
  let album_id := get_or "" (a_id album) in
  let album_users := get_or [] (a_albumUsers album) in
  match album_users with
  | [] => [ {| p_name := album_name; p_id := album_id;
               p_role := ""; p_users := [] |} ]
  | _ :: _ =>
      map (fun ru => {| p_name := album_name; p_id := album_id;
                        p_role := fst ru; p_users := snd ru |})
        (group_by_role album_users)
  end.

Definition processed_albums (albums : list album_json) : list processed :=
  flat_map album_rows albums.

Definition max_users (ps : list processed) : nat :=
  fold_right Nat.max 0 (map (fun p => List.length (p_users p)) ps).

Definition csv_headers (m : nat) : list string :=
  [COL_ALBUM_NAME; COL_ALBUM_ID; COL_ROLE]
    ++ map (fun i => ("User " ++ str_of_nat (i + 1))%string) (seq 0 m).

Definition csv_row (m : nat) (album : processed) : list string :=
  [p_name album; p_id album; p_role album]
    ++ p_users album ++ repeat "" (m - List.length (p_users album)).

Definition export_table (albums : list album_json) : list (list string) :=
  let ps := processed_albums albums in
  let m := max_users ps in
  csv_headers m :: map (csv_row m) ps.

Definition process_albums_to_csv (w : W) : W * export_outcome :=
  match api_get_albums api w with
  | (w', None) => (w', ExportExit 1)
  | (w', Some []) => (w', NoAlbums)
  | (w', Some albums) => (w', Written (export_table albums))
  end.

(** ** [main] *)

Inductive command : Type := ListAll | ShareAlbums.

Record args : Type := {
  arg_command : option command;
  arg_url : option string;
  arg_api_key : option string;
  arg_output : option string;
  arg_input : option string
}.

Inductive probe : Type := Reachable | ConnectionError | Timeout.

(* What the process finds outside the API: the answer to the reachability
   probe of the constructor and the CSV files on disk. *)
Record env : Type := {
  probe_url : string -> probe;
  read_csv : string -> option (list (list string))
}.

Record exit : Type := {
  exit_code : Z;
  exit_world : W;
  exit_calls : list event;
  exit_written : option (list (list string))
}.

Definition arg_given (a : option string) : bool :=
  match a with Some s => truthy s | None => false end.

Definition main (e : env) (a : args) (w : W) : exit :=
  let stop code := {| exit_code := code; exit_world := w;
                      exit_calls := []; exit_written := None |} in
  match arg_command a with
  | None => stop 1%Z
  | Some cmd =>
      if negb (arg_given (arg_url a)) || negb (arg_given (arg_api_key a))
      then stop 1%Z
      else
        let url := get_or "" (arg_url a) in
        (* the constructor: an uncaught ValueError, or sys.exit(message) *)
        if negb (has_http_scheme url) then stop 1%Z
        else
          match probe_url e (adjust_url url) with
          | ConnectionError | Timeout => stop 1%Z
          | Reachable =>
              match cmd with
              | ListAll =>
                  match process_albums_to_csv w with
                  | (w', ExportExit code) =>
                      {| exit_code := code; exit_world := w';
                         exit_calls := []; exit_written := None |}
                  | (w', NoAlbums) =>
                      {| exit_code := 0; exit_world := w';
                         exit_calls := []; exit_written := None |}
                  | (w', Written t) =>
                      {| exit_code := 0; exit_world := w';
                         exit_calls := []; exit_written := Some t |}
                  end
              | ShareAlbums =>
                  if negb (arg_given (arg_input a)) then stop 1%Z
                  else
                    let r := process_share_albums
                               (read_csv e (get_or "" (arg_input a))) w in
                    {| exit_code := match result r with
                                    | SysExit code => code
                                    | Completed _ | InvalidFormat => 0%Z
                                    end;
                       exit_world := final r;
                       exit_calls := issued r;
                       exit_written := None |}
              end
          end
  end.

End Client.

Arguments state : clear implicits.
Arguments run : clear implicits.
Arguments exit : clear implicits.
Arguments world {W}.
Arguments calls {W}.
Arguments st {W}.
Arguments final {W}.
Arguments result {W}.
Arguments issued {W}.
Arguments exit_code {W}.
Arguments exit_world {W}.
Arguments exit_calls {W}.
Arguments exit_written {W}.

(** ** The server behind the API *)

(** Modelled from the spec: the photo server is an external collaborator
    and not part of the repository; section 6 gives the records it serves:
    users with id and email, albums with id, name and a share list. *)
Record server : Type := {
  srv_users : list user_json;
  srv_albums : list album_json
}.

Definition has_id (k : string) (a : album_json) : bool :=
  match a_id a with Some i => String.eqb i k | None => false end.

Definition find_album (k : string) (albums : list album_json)
  : option album_json :=
  find (has_id k) albums.

Definition user_has_id (uid : string) (u : user_json) : bool :=
  match u_id u with Some i => String.eqb i uid | None => false end.

Definition entry_has_user (uid : string) (ui : album_user_json) : bool :=
  match au_user ui with Some u => user_has_id uid u | None => false end.

(** Modelled from the spec: the upsert of section 6, on one share list; the
    entries of the user get the new role, or an entry is added. *)
Definition set_role (uid r : string) (ui : album_user_json) : album_user_json :=
  if entry_has_user uid ui then {| au_role := Some r; au_user := au_user ui |}
  else ui.

Definition upsert_entry (u : user_json) (uid r : string)
  (entries : list album_user_json) : list album_user_json :=
  if existsb (entry_has_user uid) entries then map (set_role uid r) entries
  else entries ++ [ {| au_role := Some r; au_user := Some u |} ].

(** Modelled from the spec: remove-user-from-album of section 6, on one
    share list. *)
Definition drop_entry (uid : string) (entries : list album_user_json)
  : list album_user_json :=
  filter (fun ui => negb (entry_has_user uid ui)) entries.

Definition with_entries (f : list album_user_json -> list album_user_json)
  (a : album_json) : album_json :=
  {| a_id := a_id a; a_albumName := a_albumName a;
     a_albumUsers := Some (f (get_or [] (a_albumUsers a))) |}.

Definition update_album (k : string)
  (f : list album_user_json -> list album_user_json)
  (albums : list album_json) : list album_json :=
  map (fun a => if has_id k a then with_entries f a else a) albums.

(** Modelled from the spec: the photo server itself is not part of the
    repository.  Section 6 of the specification describes its requests:
    album listing, album detail fetch by id, user listing, share/update-role
    as an idempotent upsert of an (album, user, role) triple, and
    remove-user-from-album.  A mutating request is refused when the album or
    the user it names does not exist. *)
Definition model_share (album_id user_id r : string) (s : server)
  : server * bool :=
  match find_album album_id (srv_albums s), find (user_has_id user_id) (srv_users s) with
  | Some _, Some u =>
      ({| srv_users := srv_users s;
          srv_albums := update_album album_id (upsert_entry u user_id r)
                          (srv_albums s) |}, true)
  | _, _ => (s, false)
  end.

(** Modelled from the spec: remove-user-from-album of section 6, on the
    server state above. *)
Definition model_remove (album_id user_id : string) (s : server)
  : server * bool :=
  match find_album album_id (srv_albums s) with
  | Some _ =>
      ({| srv_users := srv_users s;
          srv_albums := update_album album_id (drop_entry user_id)
                          (srv_albums s) |}, true)
  | None => (s, false)
  end.

(** Modelled from the spec: the read requests of section 6 answer from the
    server state and leave it unchanged. *)
Definition model_api : API server :=
  {| api_get_albums := fun s => (s, Some (srv_albums s));
     api_get_album_details := fun k s => (s, find_album k (srv_albums s));
     api_get_users := fun s => (s, Some (srv_users s));
     api_share := model_share;
     api_remove := model_remove |}.

(* Export the current state, feed the written file back as desired state. *)
Definition round_trip (ord : SetOrder) (s : server) : run server :=
  match process_albums_to_csv model_api s with
  | (s', Written table) => process_share_albums model_api ord (Some table) s'
  | (s', _) => process_share_albums model_api ord None s'
  end.

(* Two consecutive synchronisation runs from the same input file. *)
Definition run_twice (ord : SetOrder) (file : option (list (list string)))
  (s : server) : run server * run server :=
  let r1 := process_share_albums model_api ord file s in
  (r1, process_share_albums model_api ord file (final r1)).

Definition mk_user (email id : string) : user_json :=
  {| u_email := Some email; u_id := Some id |}.

Definition mk_share (r : string) (u : user_json) : album_user_json :=
  {| au_role := Some r; au_user := Some u |}.

Definition mk_album (id name : string) (shares : list album_user_json)
  : album_json :=
  {| a_id := Some id; a_albumName := Some name; a_albumUsers := Some shares |}.

Definition alice : user_json := mk_user "alice@x.com" "u1".
Definition bob : user_json := mk_user "Bob@x.com" "u2".
Definition carol : user_json := mk_user "carol@x.com" "u3".

Definition demo_server : server :=
  {| srv_users := [alice; bob; carol];
     srv_albums := [ mk_album "A1" "Trip" [mk_share "editor" alice; mk_share "viewer" bob;
                                          mk_share "editor" carol];
                     mk_album "A2" "Empty" [] ] |}.

Definition cased_server : server :=
  {| srv_users := [alice];
     srv_albums := [ mk_album "A1" "Trip" [mk_share "Editor" alice] ] |}.

Definition header_lacks_column (headers : list string) : Prop :=
  ~ In COL_ALBUM_NAME headers \/ ~ In COL_ALBUM_ID headers
  \/ ~ In COL_ROLE headers.

Definition demo_env (file : list (list string)) : env :=
  {| probe_url := fun _ => Reachable;
     read_csv := fun path => if String.eqb path "shares.csv" then Some file else None |}.

Definition share_args : args :=
  {| arg_command := Some ShareAlbums;
     arg_url := Some "https://photos.example.org";
     arg_api_key := Some "secret";
     arg_output := None;
     arg_input := Some "shares.csv" |}.

(** ** Vocabulary for the call log *)

(* [ev] is a removal request of album [k] for one of the emails [targets]. *)
Definition removal_of (dir : dict string) (k : string) (targets : list string)
  (ev : event) : Prop :=
  exists e uid ok,
    ev = EvRemove k e uid ok /\ In e targets /\ dict_get dir e = Some uid.

(* [ev] is a share/update request of album [k] for one of [tuples]. *)
Definition share_of (dir cur : dict string) (k : string)
  (tuples : list (string * string)) (ev : event) : Prop :=
  exists e r uid ok,
    ev = EvShare k e uid r ok /\ In (e, r) tuples
    /\ dict_get dir e = Some uid /\ truthy uid = true
    /\ role_differs (dict_get cur e) r = true.

Definition failed_share_count (log : list event) : nat :=
  List.length (filter (fun ev => is_share ev && negb (ev_ok ev)) log).

(* The current users the album pass works with: the mapping derived from the
   second detail fetch of [process_album]. *)
Definition fetched_users {W} (api : API W) (k : string) (w : W) : dict string :=
  snd (get_current_album_users api k (fst (api_get_album_details api k w))).

(* The log of one album pass, seen from the desired set alone. *)
Definition pass_shape (k : string) (d : album_entry) (new : list event) : Prop :=
  exists rem sh,
    new = rem ++ sh
    /\ Forall (fun ev => is_remove ev = true /\ ev_album ev = k
                         /\ ~ In (ev_email ev) (map fst (users d))) rem
    /\ Forall (fun ev => is_share ev = true /\ ev_album ev = k
                         /\ In (ev_email ev) (map fst (users d))) sh.

Fixpoint run_shape (album_data : dict album_entry) (new : list event) : Prop :=
  match album_data with
  | [] => new = []
  | (k, d) :: rest =>
      exists b tl, new = b ++ tl /\ pass_shape k d b /\ run_shape rest tl
  end.

Definition demote_alice : list (list string) :=
  [["AlbumName"; "AlbumId"; "Role"; "User 1"];
   ["Trip"; "A1"; "viewer"; "alice@x.com"]].

(* The album data of two inputs agree up to the stored batch role. *)
Definition same_tuples (ad1 ad2 : dict album_entry) : Prop :=
  map (fun kd => (fst kd, users (snd kd))) ad1
  = map (fun kd => (fst kd, users (snd kd))) ad2.

(* A desired tuple whose email the directory does not know. *)
Definition unresolved (dir : dict string) (t : string * string) : bool :=
  negb (dict_mem (fst t) dir).

Definition two_roles : dict album_entry :=
  [("A1", {| users := [("alice@x.com", "viewer"); ("dave@x.com", "viewer")];
             role := "viewer" |})].

Definition two_roles' : dict album_entry :=
  [("A1", {| users := [("alice@x.com", "viewer"); ("dave@x.com", "viewer")];
             role := "editor" |})].

(* The world after the two detail fetches of [process_album]. *)
Definition fetched_world {W} (api : API W) (k : string) (w : W) : W :=
  fst (get_current_album_users api k (fst (api_get_album_details api k w))).

Definition with_stranger : album_entry :=
  {| users := [("alice@x.com", "viewer"); ("zoe@x.com", "viewer")];
     role := "viewer" |}.

(** ** The grouping of the exporter, stated on its own *)

(* The distinct roles of a share list, in order of first appearance. *)
Definition roles_in_order (l : list album_user_json) : list string :=
  fold_left (fun acc ui => set_add_str (entry_role ui) acc) l [].

(* The non-empty emails of the entries holding role [r], in list order. *)
Definition users_with_role (r : string) (l : list album_user_json)
  : list string :=
  filter truthy
    (map exported_email (filter (fun ui => String.eqb (entry_role ui) r) l)).

Definition grouped (l : list album_user_json) : dict (list string) :=
  map (fun r => (r, users_with_role r l)) (roles_in_order l).


(** ** Vocabulary for ingestion and for the current state *)

(* The tuples stored for album [k], none when the album is unknown. *)
Definition tuples_of (ad : dict album_entry) (k : string)
  : list (string * string) :=
  match dict_get ad k with Some d => users d | None => [] end.

(* [row] passes the two guards of the reader loop as album [k], role [r]. *)
Definition row_accepts (c : columns) (row : list string) (k r : string) : Prop :=
  exists id_cell role_cell,
    nth_error row (id_idx c) = Some id_cell
    /\ nth_error row (role_idx c) = Some role_cell
    /\ k = strip id_cell /\ r = lower (strip role_cell)
    /\ truthy k = true /\ truthy r = true.

(* [row] contributes the tuple [(e, r)] to album [k]. *)
Definition row_gives (c : columns) (row : list string) (k e r : string) : Prop :=
  row_accepts c row k r
  /\ exists i cell,
      In i (user_indices c) /\ nth_error row i = Some cell
      /\ e = lower (strip cell) /\ truthy e = true.

(* An entry of a share list that [get_current_album_users] keeps. *)
Definition visible (ui : album_user_json) : bool :=
  truthy (lower (entry_email ui)) && truthy (get_or "" (au_role ui)).

(* The role the current-users mapping holds for [e]: that of the last kept
   entry whose lower-cased email is [e]. *)
Fixpoint role_in (l : list album_user_json) (e : string) : option string :=
  match l with
  | [] => None
  | ui :: l' =>
      match role_in l' e with
      | Some r => Some r
      | None =>
          if visible ui && String.eqb (lower (entry_email ui)) e
          then Some (get_or "" (au_role ui)) else None
      end
  end.

(* Album [k] needs no request on server [s]: every current user is desired
   or unknown to the directory, and every desired tuple whose email the
   directory resolves already holds its role. *)
Definition settled (dir : dict string) (s : server) (k : string)
  (d : album_entry) : Prop :=
  (forall e, In e (dict_keys (current_users_of (find_album k (srv_albums s)))) ->
             In e (map fst (users d)) \/ dict_get dir e = None)
  /\ (forall e r uid,
         In (e, r) (users d) -> dict_get dir e = Some uid ->
         dict_get (current_users_of (find_album k (srv_albums s))) e = Some r).

(** ** Server states the export reproduces *)

Definition normalised_entry (ui : album_user_json) : Prop :=
  (exists r, au_role ui = Some r /\ lower (strip r) = r)
  /\ strip (entry_email ui) = entry_email ui.

Definition one_role_per_user (l : list album_user_json) : Prop :=
  forall ui uj,
    In ui l -> In uj l -> visible ui = true -> visible uj = true ->
    lower (entry_email ui) = lower (entry_email uj) ->
    au_role ui = au_role uj.

Definition normalised_album (a : album_json) : Prop :=
  strip (get_or "" (a_id a)) = get_or "" (a_id a)
  /\ Forall normalised_entry (album_entries a)
  /\ one_role_per_user (album_entries a).

Definition unique_album_ids (albums : list album_json) : Prop :=
  forall a a' k,
    In a albums -> In a' albums -> a_id a = Some k -> a_id a' = Some k ->
    a = a'.

Definition normalised_server (s : server) : Prop :=
  Forall normalised_album (srv_albums s) /\ unique_album_ids (srv_albums s).

(* The columns [parse_header] finds in a header written by the exporter. *)
Definition export_columns (m : nat) : columns :=
  {| name_idx := 0; id_idx := 1; role_idx := 2; user_indices := seq 3 m |}.

Definition alice_editor : album_entry :=
  {| users := [("alice@x.com", "editor")]; role := "editor" |}.

(** ** Vocabulary for repeated runs *)

(* The album data a run reconciles, when it gets that far. *)
Definition desired_state (file : option (list (list string)))
  : option (dict album_entry) :=
  match open_csv file with
  | inr (headers, rows) =>
      match parse_header headers with
      | Some c =>
          match ingest_rows c [] rows with
          | inr ad => Some ad
          | inl _ => None
          end
      | None => None
      end
  | inl _ => None
  end.

Definition one_role_per_email (d : album_entry) : Prop :=
  forall e r1 r2, In (e, r1) (users d) -> In (e, r2) (users d) -> r1 = r2.

(* No album of the input lists an email under two different roles. *)
Definition unambiguous (file : option (list (list string))) : Prop :=
  forall ad k d,
    desired_state file = Some ad -> In (k, d) ad -> one_role_per_email d.

Definition user_email (u : user_json) : string := get_or "" (u_email u).
Definition user_id (u : user_json) : string := get_or "" (u_id u).

Definition listed (u : user_json) : Prop :=
  u_email u = Some (user_email u) /\ u_id u = Some (user_id u)
  /\ truthy (user_email u) = true /\ truthy (user_id u) = true.

(* Users have an email and an id each, and two users share the lower-cased
   email exactly when they share the id. *)
Definition consistent_users (us : list user_json) : Prop :=
  Forall listed us
  /\ forall u u', In u us -> In u' us ->
                  (lower (user_email u) = lower (user_email u')
                   <-> user_id u = user_id u').

(* Every share entry embeds one of the listed users. *)
Definition consistent_entries (us : list user_json)
  (l : list album_user_json) : Prop :=
  Forall (fun ui => exists u, au_user ui = Some u /\ In u us) l.

Definition consistent_server (s : server) : Prop :=
  consistent_users (srv_users s)
  /\ Forall (fun a => consistent_entries (srv_users s) (album_entries a))
       (srv_albums s).

(* The role the current-users mapping of album [k] holds for [e] on [s]. *)
Definition role_on (s : server) (k e : string) : option string :=
  dict_get (current_users_of (find_album k (srv_albums s))) e.

Definition all_ok (log : list event) : Prop :=
  Forall (fun ev => ev_ok ev = true) log.

(* The entries of user [uid] are those whose lower-cased email is [e]. *)
Definition owned_by (uid e : string) (ui : album_user_json) : Prop :=
  entry_has_user uid ui = String.eqb (lower (entry_email ui)) e.

Definition conflicting_roles : list (list string) :=
  [["AlbumName"; "AlbumId"; "Role"; "User 1"];
   ["Trip"; "A1"; "viewer"; "alice@x.com"];
   ["Trip"; "A1"; "editor"; "alice@x.com"]].

(** ** Vocabulary for further properties of the reader loop *)

(* The two [continue] guards of the reader loop, as a test on the row. *)
Definition skipped_row (c : columns) (row : list string) : bool :=
  match row with
  | [] => true
  | _ :: _ =>
      match nth_error row (id_idx c), nth_error row (role_idx c) with
      | Some id_cell, Some role_cell =>
          negb (truthy (strip id_cell))
          || negb (truthy (lower (strip role_cell)))
      | _, _ => false
      end
  end.

(* A row on which [row[id_idx]] and [row[role_idx]] can both be read, or
   which is empty and never gets that far. *)
Definition readable_row (c : columns) (row : list string) : Prop :=
  row = [] \/ (id_idx c < List.length row /\ role_idx c < List.length row).

Definition sparse_rows : list (list string) :=
  [[]; ["Trip"; "A1"; "viewer"; "carol@x.com"]; ["Lost"; "  "; "viewer"; "x@x.com"];
   ["Trip"; "A1"; ""; "bob@x.com"]].

Definition std_columns : columns :=
  {| name_idx := 0; id_idx := 1; role_idx := 2; user_indices := [3] |}.

(** ** Vocabulary for the requests of a pass *)

(* The directory holds a usable id for [e]: the test [if user_id]. *)
Definition resolves (dir : dict string) (e : string) : bool :=
  match dict_get dir e with Some uid => truthy uid | None => false end.

(* The desired tuple [t] is resolved and its role is not the current one. *)
Definition needs_share (dir cur : dict string) (t : string * string) : bool :=
  resolves dir (fst t) && role_differs (dict_get cur (fst t)) (snd t).

Definition alice_and_bob : album_entry :=
  {| users := [("alice@x.com", "editor"); ("bob@x.com", "editor")];
     role := "editor" |}.

(** ** Vocabulary for the statistics *)

Definition ok_shares (log : list event) : nat :=
  List.length (filter (fun ev => is_share ev && ev_ok ev) log).

Definition ok_removals (log : list event) : nat :=
  List.length (filter (fun ev => is_remove ev && ev_ok ev) log).

Definition failed_removals (log : list event) : nat :=
  List.length (filter (fun ev => is_remove ev && negb (ev_ok ev)) log).

(* The number of desired tuples, over all albums, whose email the directory
   does not resolve. *)
Definition unresolved_tuples (dir : dict string) (ad : dict album_entry) : nat :=
  list_sum
    (map (fun kd =>
            List.length
              (filter (fun t => negb (resolves dir (fst t))) (users (snd kd))))
       ad).

(* The counters agree with the log, [n] unresolved tuples having been met. *)
Definition accounted {W} (s : state W) (n : nat) : Prop :=
  successful_shares (st s) = ok_shares (calls s)
  /\ failed_shares (st s) = failed_share_count (calls s) + n
  /\ users_removed (st s) = ok_removals (calls s)
  /\ removal_failures (st s) = failed_removals (calls s).

Definition with_strangers : list (list string) :=
  [["AlbumName"; "AlbumId"; "Role"; "User 1"; "User 2"];
   ["Trip"; "A1"; "viewer"; "alice@x.com"; "zoe@x.com"];
   ["Gone"; "Z9"; "editor"; "bob@x.com"; "zoe@x.com"]].

(** ** Vocabulary for the command line *)

Definition list_args : args :=
  {| arg_command := Some ListAll;
     arg_url := Some "http://photos.example.org/";
     arg_api_key := Some "secret";
     arg_output := None;
     arg_input := None |}.

Definition no_input_args : args :=
  {| arg_command := Some ShareAlbums;
     arg_url := Some "https://photos.example.org";
     arg_api_key := Some "secret";
     arg_output := None;
     arg_input := None |}.

(** ** Vocabulary for the directory *)

(* The test [if email and user_id] of [get_users]. *)
Definition listedb (u : user_json) : bool :=
  match u_email u, u_id u with
  | Some email, Some user_id => truthy email && truthy user_id
  | _, _ => false
  end.

(* The id of the last user of the listing that passes the test and whose
   lower-cased email is [e]. *)
Fixpoint last_listed (us : list user_json) (e : string) : option string :=
  match us with
  | [] => None
  | u :: us' =>
      match last_listed us' e with
      | Some i => Some i
      | None =>
          if listedb u && String.eqb (lower (user_email u)) e
          then Some (user_id u) else None
      end
  end.

Definition twin_users : list user_json :=
  [mk_user "Ann@x.com" "u1"; {| u_email := Some "ghost@x.com"; u_id := None |};
   mk_user "ann@X.com" "u9"; mk_user "" "u5"].

(** ** A share entry of a user the listing does not return *)

Definition ghost : user_json := mk_user "ghost@x.com" "u7".

Definition ghost_server : server :=
  {| srv_users := [alice];
     srv_albums := [ mk_album "A1" "Trip" [mk_share "Editor" ghost] ] |}.

Definition ghost_editor : list (list string) :=
  [["AlbumName"; "AlbumId"; "Role"; "User 1"];
   ["Trip"; "A1"; "editor"; "ghost@x.com"]].

(* The number of rows an album contributes to the export. *)
Definition row_count (a : album_json) : nat :=
  Nat.max 1 (List.length (roles_in_order (album_entries a))).

(* An environment in which one address does not answer in time. *)
Definition offline_env : env :=
  {| probe_url := fun u =>
       if String.eqb u "https://photos.example.org" then Timeout
       else Reachable;
     read_csv := fun _ => None |}.

(** * Properties *)

(** ** Header parsing and the exit code *)

Lemma index_absent (x : string) (l : list string) :
  ~ In x l -> index x l = None.
Proof.
  induction l as [|y l IH]; simpl; intros Hn; [reflexivity|].
  destruct (String.eqb_spec y x) as [->|Hne].
  - exfalso; apply Hn; now left.
  - rewrite IH; [reflexivity|]. intros Hin; apply Hn; now right.
Qed.

Lemma index_present (x : string) (l : list string) :
  In x l -> exists n, index x l = Some n /\ nth_error l n = Some x.
Proof.
  induction l as [|y l IH]; simpl; intros Hin; [contradiction|].
  destruct (String.eqb_spec y x) as [->|Hne].
  - exists 0; split; reflexivity.
  - destruct Hin as [->|Hin]; [contradiction|].
    destruct (IH Hin) as (n & Hn & Hnth). exists (S n). rewrite Hn. now split.
Qed.


Lemma parse_header_malformed (headers : list string) :
  header_lacks_column headers -> parse_header headers = None.
Proof.
  unfold parse_header. intros [H|[H|H]]; rewrite ?(index_absent _ _ H).
  - reflexivity.
  - destruct (index COL_ALBUM_NAME headers); reflexivity.
  - destruct (index COL_ALBUM_NAME headers); [|reflexivity].
    destruct (index COL_ALBUM_ID headers); reflexivity.
Qed.

Section HeaderErrors.

Context {W : Type} (api : API W) (ord : SetOrder).

(* The abort itself: nothing is ingested and no request is sent. *)
Lemma malformed_header_aborts (headers : list string)
  (rows : list (list string)) (w w1 : W) (us : list user_json) :
  api_get_users api w = (w1, Some us) ->
  header_lacks_column headers ->
  process_share_albums api ord (Some (headers :: rows)) w
  = {| final := w1; result := InvalidFormat; issued := [] |}.
Proof.
  intros Hu Hh. unfold process_share_albums, open_csv, get_users. rewrite Hu. simpl.
  now rewrite (parse_header_malformed _ Hh).
Qed.

(** C1 (as the code behaves): when the header row lacks one of AlbumName,
    AlbumId, Role, the share-albums command sends no mutating request and
    processes nothing, but the function merely returns, so the process
    ends with exit code 0 and not 1. *)
Theorem malformed_header_exit_code (e : env) (a : args) (w w1 : W)
  (url key path : string) (headers : list string)
  (rows : list (list string)) (us : list user_json) :
  arg_command a = Some ShareAlbums ->
  arg_url a = Some url -> truthy url = true ->
  arg_api_key a = Some key -> truthy key = true ->
  has_http_scheme url = true ->
  probe_url e (adjust_url url) = Reachable ->
  arg_input a = Some path -> truthy path = true ->
  read_csv e path = Some (headers :: rows) ->
  api_get_users api w = (w1, Some us) ->
  header_lacks_column headers ->
  exit_code (main api ord e a w) = 0%Z
  /\ exit_calls (main api ord e a w) = []
  /\ exit_world (main api ord e a w) = w1.
Proof.
  intros Hc Hu Htu Hk Htk Hs Hp Hi Hti Hf Hg Hh.
  unfold main. rewrite Hc. unfold arg_given. rewrite Hu, Hk, Hi. simpl.
  rewrite Htu, Htk, Hs, Hti. simpl. rewrite Hp, Hf.
  rewrite (malformed_header_aborts _ _ _ _ _ Hg Hh). simpl. auto.
Qed.

End HeaderErrors.


Lemma malformed_header_exit_code_witness :
  exit_code (main model_api insertion_order
               (demo_env [["AlbumName"; "AlbumId"; "User 1"];
                          ["Trip"; "A1"; "alice@x.com"]])
               share_args demo_server) = 0%Z
  /\ exit_calls (main model_api insertion_order
               (demo_env [["AlbumName"; "AlbumId"; "User 1"];
                          ["Trip"; "A1"; "alice@x.com"]])
               share_args demo_server) = []
  /\ exit_world (main model_api insertion_order
               (demo_env [["AlbumName"; "AlbumId"; "User 1"];
                          ["Trip"; "A1"; "alice@x.com"]])
               share_args demo_server) = demo_server.
Proof.
  apply (malformed_header_exit_code model_api insertion_order
           (demo_env [["AlbumName"; "AlbumId"; "User 1"];
                      ["Trip"; "A1"; "alice@x.com"]])
           share_args demo_server demo_server
           "https://photos.example.org" "secret" "shares.csv"
           ["AlbumName"; "AlbumId"; "User 1"]
           [["Trip"; "A1"; "alice@x.com"]] (srv_users demo_server));
    try reflexivity.
  right; right. simpl. intros [H|[H|[H|[]]]]; discriminate H.
Defined.

(** ** Rows the reader skips, and rows that stop the run *)

Lemma ingest_row_empty (c : columns) (ad : dict album_entry) :
  ingest_row c ad [] = inr ad.
Proof. reflexivity. Qed.

Lemma ingest_row_skips (c : columns) (ad : dict album_entry)
  (row : list string) (id_cell role_cell : string) :
  nth_error row (id_idx c) = Some id_cell ->
  nth_error row (role_idx c) = Some role_cell ->
  strip id_cell = "" \/ lower (strip role_cell) = "" ->
  ingest_row c ad row = inr ad.
Proof.
  intros Hi Hr Hskip. unfold ingest_row.
  destruct row as [|x row]; [reflexivity|].
  rewrite Hi, Hr. cbv zeta.
  destruct Hskip as [-> | ->]; simpl; [reflexivity|].
  now rewrite orb_true_r.
Qed.

Lemma ingest_row_raises (c : columns) (ad : dict album_entry)
  (row : list string) (e : exn) :
  ingest_row c ad row = inl e -> e = IndexError.
Proof.
  unfold ingest_row. destruct row as [|x row]; [discriminate|].
  destruct (nth_error (x :: row) (id_idx c)); [|now intros [= <-]].
  destruct (nth_error (x :: row) (role_idx c)); [|now intros [= <-]].
  cbv zeta. destruct (_ || _); discriminate.
Qed.

Lemma ingest_row_short (c : columns) (ad : dict album_entry)
  (row : list string) :
  row <> [] ->
  List.length row <= id_idx c \/ List.length row <= role_idx c ->
  ingest_row c ad row = inl IndexError.
Proof.
  intros Hne Hlen. unfold ingest_row. destruct row as [|x row]; [contradiction|].
  destruct (nth_error (x :: row) (id_idx c)) eqn:Hi; [|reflexivity].
  destruct (nth_error (x :: row) (role_idx c)) eqn:Hr; [|reflexivity].
  exfalso. destruct Hlen as [H|H]; apply nth_error_None in H; congruence.
Qed.

Lemma ingest_rows_short (c : columns) (rows : list (list string)) :
  forall (ad : dict album_entry) (row : list string),
    In row rows -> row <> [] ->
    List.length row <= id_idx c \/ List.length row <= role_idx c ->
    ingest_rows c ad rows = inl IndexError.
Proof.
  induction rows as [|r rows IH]; intros ad row Hin Hne Hlen; [contradiction|].
  simpl. destruct (ingest_row c ad r) as [e|ad'] eqn:Hr.
  - now rewrite (ingest_row_raises _ _ _ _ Hr).
  - destruct Hin as [->|Hin].
    + rewrite (ingest_row_short c ad row Hne Hlen) in Hr. discriminate.
    + now apply (IH ad' row).
Qed.

Section ShortRows.

Context {W : Type} (api : API W) (ord : SetOrder).

(** C7 (as the code behaves): a non-empty data row too short to hold the
    album id cell or the role cell is not skipped; reading the missing cell
    raises IndexError, the run is abandoned with exit status 1 and not a
    single album, including those of well-formed rows, is reconciled. *)
Theorem short_row_aborts_run (headers : list string)
  (rows : list (list string)) (row : list string) (c : columns)
  (w w1 : W) (us : list user_json) :
  api_get_users api w = (w1, Some us) ->
  parse_header headers = Some c ->
  In row rows -> row <> [] ->
  List.length row <= id_idx c \/ List.length row <= role_idx c ->
  process_share_albums api ord (Some (headers :: rows)) w
  = {| final := w1; result := SysExit 1; issued := [] |}.
Proof.
  intros Hu Hh Hin Hne Hlen. unfold process_share_albums, open_csv, get_users.
  rewrite Hu. simpl. rewrite Hh.
  now rewrite (ingest_rows_short c rows [] row Hin Hne Hlen).
Qed.

End ShortRows.

Lemma short_row_aborts_run_witness :
  process_share_albums model_api insertion_order
    (Some [["AlbumName"; "AlbumId"; "Role"; "User 1"];
           ["Trip"; "A1"; "viewer"; "carol@x.com"];
           ["Holiday"]]) demo_server
  = {| final := demo_server; result := SysExit 1; issued := [] |}.
Proof.
  apply (short_row_aborts_run model_api insertion_order
           ["AlbumName"; "AlbumId"; "Role"; "User 1"]
           [["Trip"; "A1"; "viewer"; "carol@x.com"]; ["Holiday"]]
           ["Holiday"]
           {| name_idx := 0; id_idx := 1; role_idx := 2; user_indices := [3] |}
           demo_server demo_server (srv_users demo_server)).
  - reflexivity.
  - reflexivity.
  - right; left; reflexivity.
  - discriminate.
  - left. simpl. lia.
Defined.

(** ** Sets and dictionaries *)

Lemma mem_str_In (x : string) (s : list string) :
  mem_str x s = true <-> In x s.
Proof.
  unfold mem_str. rewrite existsb_exists. split.
  - intros (y & Hy & He). apply String.eqb_eq in He. now subst.
  - intros H. exists x. split; [assumption|apply String.eqb_refl].
Qed.

Lemma mem_str_not_In (x : string) (s : list string) :
  mem_str x s = false <-> ~ In x s.
Proof.
  rewrite <- mem_str_In. destruct (mem_str x s); split; congruence.
Qed.

Lemma In_set_add_str (x y : string) (s : list string) :
  In y (set_add_str x s) <-> y = x \/ In y s.
Proof.
  unfold set_add_str. destruct (mem_str x s) eqn:Hm.
  - apply mem_str_In in Hm. split; [now right|]. intros [->|H]; assumption.
  - rewrite in_app_iff. simpl. split.
    + intros [H|[H|[]]]; [now right|now left].
    + intros [H|H]; [right; left; now symmetry|now left].
Qed.

Lemma In_fold_set_add (l : list (string * string)) :
  forall (acc : list string) (e : string),
    In e (fold_left (fun s t => set_add_str (fst t) s) l acc)
    <-> In e acc \/ In e (map fst l).
Proof.
  induction l as [|t l IH]; intros acc e; simpl; [tauto|].
  rewrite IH, In_set_add_str. intuition congruence.
Qed.

Lemma In_iter_pairs (ord : SetOrder) (l : list (string * string))
  (t : string * string) : In t (iter_pairs ord l) <-> In t l.
Proof.
  split; apply Permutation_in;
    [apply iter_pairs_perm | apply Permutation_sym, iter_pairs_perm].
Qed.

Lemma In_iter_emails (ord : SetOrder) (l : list string) (e : string) :
  In e (iter_emails ord l) <-> In e l.
Proof.
  split; apply Permutation_in;
    [apply iter_emails_perm | apply Permutation_sym, iter_emails_perm].
Qed.

Lemma In_desired_users (ord : SetOrder) (d : album_entry) (e : string) :
  In e (desired_users ord d) <-> In e (map fst (users d)).
Proof.
  unfold desired_users. rewrite In_fold_set_add. simpl.
  rewrite !in_map_iff. split.
  - intros [[]|(t & Ht & Hin)]. exists t. split; [assumption|].
    now apply In_iter_pairs in Hin.
  - intros (t & Ht & Hin). right. exists t. split; [assumption|].
    now apply In_iter_pairs.
Qed.

Lemma In_users_to_remove (cur : dict string) (des : list string) (e : string) :
  In e (users_to_remove cur des) <-> In e (dict_keys cur) /\ ~ In e des.
Proof.
  unfold users_to_remove. rewrite filter_In, negb_true_iff, mem_str_not_In.
  reflexivity.
Qed.

(** The removal set never meets the desired emails. *)
Lemma users_to_remove_disjoint (ord : SetOrder) (cur : dict string)
  (d : album_entry) (e : string) :
  In e (users_to_remove cur (desired_users ord d)) ->
  ~ In e (map fst (users d)).
Proof.
  rewrite In_users_to_remove, In_desired_users. tauto.
Qed.

(** ** The call log of one album pass *)

Section AlbumPass.

Context {W : Type} (api : API W) (ord : SetOrder).
Variables (dir : dict string) (k : string).

Lemma remove_step_trace (s : state W) (e : string) :
  world (remove_step api dir k s e) = world s /\
  calls (remove_step api dir k s e) = calls s /\
  st (remove_step api dir k s e) = st s
  \/ exists uid ok,
    dict_get dir e = Some uid /\ truthy uid = true /\
    api_remove api k uid (world s) = (world (remove_step api dir k s e), ok) /\
    calls (remove_step api dir k s e) = calls s ++ [EvRemove k e uid ok] /\
    st (remove_step api dir k s e) = count_removal ok (st s).
Proof.
  unfold remove_step. destruct (dict_get dir e) as [uid|]; [|now left].
  destruct (truthy uid) eqn:Ht; [|now left].
  destruct (api_remove api k uid (world s)) as [w' ok] eqn:Hr.
  right. exists uid, ok. simpl. auto.
Qed.

Lemma remove_loop_trace (l : list string) :
  forall s : state W,
  exists new,
    calls (fold_left (remove_step api dir k) l s) = calls s ++ new
    /\ Forall (removal_of dir k l) new.
Proof.
  induction l as [|e l IH]; intros s; simpl.
  - exists []. now rewrite app_nil_r.
  - destruct (IH (remove_step api dir k s e)) as (new & Hc & Hf).
    assert (Hw : Forall (removal_of dir k (e :: l)) new).
    { eapply Forall_impl; [|exact Hf].
      intros ev (e' & uid & ok & -> & Hin & Hd).
      exists e', uid, ok. simpl. auto. }
    destruct (remove_step_trace s e) as [(_ & Hs & _)|(uid & ok & Hd & _ & _ & Hs & _)].
    + exists new. now rewrite Hc, Hs.
    + exists (EvRemove k e uid ok :: new). rewrite Hc, Hs, <- app_assoc.
      split; [reflexivity|]. constructor; [|assumption].
      exists e, uid, ok. simpl. auto.
Qed.

Variable cur : dict string.

Lemma share_step_trace (s : state W) (e r : string) :
  (world (share_step api dir k cur s (e, r)) = world s /\
   calls (share_step api dir k cur s (e, r)) = calls s)
  \/ exists uid ok,
    dict_get dir e = Some uid /\ truthy uid = true /\
    role_differs (dict_get cur e) r = true /\
    api_share api k uid r (world s)
      = (world (share_step api dir k cur s (e, r)), ok) /\
    calls (share_step api dir k cur s (e, r))
      = calls s ++ [EvShare k e uid r ok] /\
    st (share_step api dir k cur s (e, r)) = count_share ok (st s).
Proof.
  unfold share_step. destruct (dict_get dir e) as [uid|]; [|left; split; reflexivity].
  destruct (truthy uid) eqn:Ht; [|left; split; reflexivity].
  destruct (role_differs (dict_get cur e) r) eqn:Hd; [|left; split; reflexivity].
  destruct (api_share api k uid r (world s)) as [w' ok] eqn:Hr.
  right. exists uid, ok. simpl. auto 10.
Qed.

Lemma share_loop_trace (l : list (string * string)) :
  forall s : state W,
  exists new,
    calls (fold_left (share_step api dir k cur) l s) = calls s ++ new
    /\ Forall (share_of dir cur k l) new.
Proof.
  induction l as [|[e r] l IH]; intros s; cbn [fold_left].
  - exists []. now rewrite app_nil_r.
  - destruct (IH (share_step api dir k cur s (e, r))) as (new & Hc & Hf).
    assert (Hw : Forall (share_of dir cur k ((e, r) :: l)) new).
    { eapply Forall_impl; [|exact Hf].
      intros ev (e' & r' & uid & ok & -> & Hin & Hd).
      exists e', r', uid, ok. simpl. auto. }
    destruct (share_step_trace s e r)
      as [(_ & Hs)|(uid & ok & Hd & Ht & Hr & _ & Hs & _)].
    + exists new. now rewrite Hc, Hs.
    + exists (EvShare k e uid r ok :: new). rewrite Hc, Hs, <- app_assoc.
      split; [reflexivity|]. constructor; [|assumption].
      exists e, r, uid, ok. simpl. auto.
Qed.

End AlbumPass.

Section AlbumTrace.

Context {W : Type} (api : API W) (ord : SetOrder).

(** Shape of the log of one album: removals of non-desired current
    users, followed by share/update requests of desired tuples. *)
Lemma process_album_trace (dir : dict string) (s : state W) (k : string)
  (d : album_entry) :
  exists rem sh,
    calls (process_album api ord dir s (k, d)) = calls s ++ rem ++ sh
    /\ Forall (removal_of dir k
                 (users_to_remove (fetched_users api k (world s))
                    (desired_users ord d))) rem
    /\ Forall (share_of dir (fetched_users api k (world s)) k (users d)) sh.
Proof.
  unfold process_album, fetched_users. simpl.
  destruct (api_get_album_details api k (world s)) as [w1 d1]. simpl.
  destruct (get_current_album_users api k w1) as [w2 cur]. simpl.
  set (s2 := {| world := w2; calls := calls s; st := count_album (st s) |}).
  destruct (remove_loop_trace api dir k
              (iter_emails ord (users_to_remove cur (desired_users ord d))) s2)
    as (rem & Hrem & Frem).
  destruct (share_loop_trace api dir k cur (iter_pairs ord (users d))
              (fold_left (remove_step api dir k)
                 (iter_emails ord (users_to_remove cur (desired_users ord d))) s2))
    as (sh & Hsh & Fsh).
  exists rem, sh. rewrite Hsh, Hrem. simpl. rewrite <- app_assoc.
  split; [reflexivity|]. split.
  - eapply Forall_impl; [|exact Frem].
    intros ev (e & uid & ok & -> & Hin & Hd). exists e, uid, ok.
    rewrite In_iter_emails in Hin. auto.
  - eapply Forall_impl; [|exact Fsh].
    intros ev (e & r & uid & ok & -> & Hin & Hd). exists e, r, uid, ok.
    rewrite In_iter_pairs in Hin. auto.
Qed.

End AlbumTrace.

(** ** Dictionary keys *)

Lemma dict_mem_In {V} (k : string) (d : dict V) :
  dict_mem k d = true <-> In k (dict_keys d).
Proof.
  unfold dict_mem. induction d as [|[k' v] d IH]; simpl.
  - split; [discriminate|contradiction].
  - destruct (String.eqb_spec k' k) as [->|Hne].
    + split; auto.
    + rewrite IH. split; [now right|]. intros [H|H]; [contradiction|assumption].
Qed.

Lemma dict_get_In {V} (k : string) (d : dict V) (v : V) :
  dict_get d k = Some v -> In (k, v) d.
Proof.
  induction d as [|[k' v'] d IH]; simpl; [discriminate|].
  destruct (String.eqb_spec k' k) as [->|Hne].
  - intros [= ->]. now left.
  - intros H. right. auto.
Qed.

Lemma dict_get_None {V} (k : string) (d : dict V) :
  dict_get d k = None <-> ~ In k (dict_keys d).
Proof.
  rewrite <- dict_mem_In. unfold dict_mem.
  destruct (dict_get d k); split; congruence.
Qed.

Lemma dict_keys_update {V} (d : dict V) (k : string) (f : V -> V) :
  dict_keys (dict_update d k f) = dict_keys d.
Proof.
  induction d as [|[k' v] d IH]; simpl; [reflexivity|].
  destruct (String.eqb k' k); simpl; [reflexivity|]. now rewrite IH.
Qed.

Lemma dict_keys_set {V} (d : dict V) (k : string) (v : V) :
  dict_keys (dict_set d k v)
  = if dict_mem k d then dict_keys d else dict_keys d ++ [k].
Proof.
  unfold dict_mem. induction d as [|[k' v'] d IH]; simpl; [reflexivity|].
  destruct (String.eqb k' k); simpl; [reflexivity|].
  rewrite IH. now destruct (dict_get d k).
Qed.

Lemma dict_get_set {V} (d : dict V) (k k' : string) (v : V) :
  dict_get (dict_set d k v) k'
  = if String.eqb k k' then Some v else dict_get d k'.
Proof.
  induction d as [|[k0 v0] d IH]; simpl.
  - reflexivity.
  - destruct (String.eqb_spec k0 k) as [->|Hne]; simpl.
    + now destruct (String.eqb k k').
    + rewrite IH. destruct (String.eqb_spec k0 k') as [->|Hne'].
      * destruct (String.eqb_spec k k'); [congruence|reflexivity].
      * reflexivity.
Qed.

Lemma dict_get_update {V} (d : dict V) (k k' : string) (f : V -> V) :
  dict_get (dict_update d k f) k'
  = if String.eqb k k' then option_map f (dict_get d k') else dict_get d k'.
Proof.
  induction d as [|[k0 v0] d IH]; simpl.
  - now destruct (String.eqb k k').
  - destruct (String.eqb_spec k0 k) as [->|Hne]; simpl.
    + now destruct (String.eqb k k').
    + rewrite IH. destruct (String.eqb_spec k0 k') as [->|Hne'].
      * destruct (String.eqb_spec k k'); [congruence|reflexivity].
      * reflexivity.
Qed.

Lemma NoDup_snoc {A} (l : list A) (x : A) :
  NoDup l -> ~ In x l -> NoDup (l ++ [x]).
Proof.
  intros Hl Hx. apply NoDup_app_remove_l with (l := []).
  apply Permutation_NoDup with (l := x :: l).
  - simpl. apply Permutation_cons_append.
  - now constructor.
Qed.

Lemma dict_set_keys_nodup {V} (d : dict V) (k : string) (v : V) :
  NoDup (dict_keys d) -> NoDup (dict_keys (dict_set d k v)).
Proof.
  intros H. rewrite dict_keys_set. destruct (dict_mem k d) eqn:Hm; [assumption|].
  apply NoDup_snoc; [assumption|]. rewrite <- dict_mem_In. congruence.
Qed.

(** ** Keys of the ingested album data are unique *)

Lemma add_users_keys (album_id r : string) (row : list string) (l : list nat) :
  forall ad : dict album_entry,
    dict_keys (fold_left (add_cell row album_id r) l ad) = dict_keys ad.
Proof.
  induction l as [|i l IH]; intros ad; cbn [fold_left]; [reflexivity|].
  rewrite IH. unfold add_cell. destruct (nth_error row i); [|reflexivity].
  cbv zeta. destruct (truthy _); [|reflexivity].
  unfold add_user. apply dict_keys_update.
Qed.

Lemma ingest_row_keys_nodup (c : columns) (ad ad' : dict album_entry)
  (row : list string) :
  NoDup (dict_keys ad) -> ingest_row c ad row = inr ad' ->
  NoDup (dict_keys ad').
Proof.
  intros Hn. unfold ingest_row. destruct row as [|x row]; [now intros [= <-]|].
  destruct (nth_error (x :: row) (id_idx c)); [|discriminate].
  destruct (nth_error (x :: row) (role_idx c)); [|discriminate].
  cbv zeta. destruct (_ || _); [now intros [= <-]|].
  intros [= <-]. rewrite add_users_keys.
  destruct (dict_mem _ ad); [assumption|]. now apply dict_set_keys_nodup.
Qed.

Lemma ingest_rows_keys_nodup (c : columns) (rows : list (list string)) :
  forall ad ad' : dict album_entry,
    NoDup (dict_keys ad) -> ingest_rows c ad rows = inr ad' ->
    NoDup (dict_keys ad').
Proof.
  induction rows as [|row rows IH]; intros ad ad' Hn; simpl.
  - now intros [= <-].
  - destruct (ingest_row c ad row) as [e|ad1] eqn:Hr; [discriminate|].
    apply IH. eapply ingest_row_keys_nodup; eassumption.
Qed.

(** ** The call log of a whole run *)

Section RunTrace.

Context {W : Type} (api : API W) (ord : SetOrder).

Lemma process_album_shape (dir : dict string) (s : state W) (k : string)
  (d : album_entry) :
  exists new,
    calls (process_album api ord dir s (k, d)) = calls s ++ new
    /\ pass_shape k d new.
Proof.
  destruct (process_album_trace api ord dir s k d) as (rem & sh & Hc & Hr & Hs).
  exists (rem ++ sh). split; [assumption|]. exists rem, sh.
  split; [reflexivity|]. split.
  - eapply Forall_impl; [|exact Hr].
    intros ev (e & uid & ok & -> & Hin & _). simpl.
    split; [reflexivity|]. split; [reflexivity|].
    now apply users_to_remove_disjoint in Hin.
  - eapply Forall_impl; [|exact Hs].
    intros ev (e & r & uid & ok & -> & Hin & _). simpl.
    split; [reflexivity|]. split; [reflexivity|].
    apply in_map_iff. now exists (e, r).
Qed.

Lemma process_all_shape (dir : dict string) (ad : dict album_entry) :
  forall s : state W,
  exists new,
    calls (process_all api ord dir ad s) = calls s ++ new
    /\ run_shape ad new.
Proof.
  unfold process_all.
  induction ad as [|[k d] ad IH]; intros s; cbn [fold_left].
  - exists []. now rewrite app_nil_r.
  - destruct (process_album_shape dir s k d) as (b & Hb & Sb).
    destruct (IH (process_album api ord dir s (k, d))) as (tl & Ht & St).
    exists (b ++ tl). rewrite Ht, Hb, app_assoc. split; [reflexivity|].
    simpl. now exists b, tl.
Qed.

Lemma pass_shape_album (k : string) (d : album_entry) (new : list event)
  (ev : event) : pass_shape k d new -> In ev new -> ev_album ev = k.
Proof.
  intros (rem & sh & -> & Hr & Hs) Hin. apply in_app_or in Hin.
  rewrite Forall_forall in Hr, Hs.
  destruct Hin as [H|H]; [apply Hr in H|apply Hs in H]; tauto.
Qed.

Lemma run_shape_album (ad : dict album_entry) :
  forall (new : list event) (ev : event),
    run_shape ad new -> In ev new -> In (ev_album ev) (dict_keys ad).
Proof.
  induction ad as [|[k d] ad IH]; intros new ev; simpl.
  - intros -> [].
  - intros (b & tl & -> & Sb & St) Hin. apply in_app_or in Hin.
    destruct Hin as [H|H].
    + left. symmetry. eapply pass_shape_album; eassumption.
    + right. eapply IH; eassumption.
Qed.

Lemma pass_shape_disjoint (k : string) (d : album_entry) (new : list event)
  (e1 e2 : event) :
  pass_shape k d new -> In e1 new -> In e2 new ->
  is_remove e1 = true -> is_share e2 = true -> ev_email e1 <> ev_email e2.
Proof.
  intros (rem & sh & -> & Hr & Hs) H1 H2 R1 S2.
  rewrite Forall_forall in Hr, Hs.
  assert (N1 : ~ In (ev_email e1) (map fst (users d))).
  { apply in_app_or in H1. destruct H1 as [H|H]; [apply Hr in H; tauto|].
    apply Hs in H. destruct e1; simpl in *; [|discriminate].
    destruct H as (H & _). discriminate. }
  assert (I2 : In (ev_email e2) (map fst (users d))).
  { apply in_app_or in H2. destruct H2 as [H|H]; [|apply Hs in H; tauto].
    apply Hr in H. destruct e2; simpl in *; [discriminate|].
    destruct H as (H & _). discriminate. }
  congruence.
Qed.

Lemma run_shape_disjoint (ad : dict album_entry) :
  forall (new : list event) (e1 e2 : event),
    NoDup (dict_keys ad) -> run_shape ad new ->
    In e1 new -> In e2 new ->
    is_remove e1 = true -> is_share e2 = true ->
    ev_album e1 = ev_album e2 -> ev_email e1 <> ev_email e2.
Proof.
  induction ad as [|[k d] ad IH]; intros new e1 e2 Hn; simpl.
  - intros -> [].
  - intros (b & tl & -> & Sb & St) H1 H2 R1 S2 Ha.
    simpl in Hn. inversion Hn as [|? ? Hk Hn']; subst.
    apply in_app_or in H1. apply in_app_or in H2.
    destruct H1 as [H1|H1], H2 as [H2|H2].
    + eapply pass_shape_disjoint; eassumption.
    + exfalso. apply Hk. rewrite <- (pass_shape_album _ _ _ _ Sb H1), Ha.
      eapply run_shape_album; eassumption.
    + exfalso. apply Hk. rewrite <- (pass_shape_album _ _ _ _ Sb H2), <- Ha.
      eapply run_shape_album; eassumption.
    + eapply IH; eassumption.
Qed.

Lemma process_share_albums_shape (file : option (list (list string))) (w : W) :
  issued (process_share_albums api ord file w) = []
  \/ exists ad, NoDup (dict_keys ad)
                /\ run_shape ad (issued (process_share_albums api ord file w)).
Proof.
  unfold process_share_albums, open_csv.
  destruct (get_users api w) as [w1 [dir|]]; [|now left].
  destruct file as [[|headers rows]|]; [now left| |now left].
  destruct (parse_header headers) as [c|]; [|now left].
  destruct (ingest_rows c [] rows) as [e|ad] eqn:Hi; [now left|].
  right. exists ad. split.
  - eapply ingest_rows_keys_nodup; [|exact Hi]. constructor.
  - destruct (process_all_shape dir ad {| world := w1; calls := []; st := stats0 |})
      as (new & Hc & Hs).
    simpl in *. now rewrite Hc.
Qed.

(** C4: in a synchronisation run, the emails slated for removal from an
    album (current users minus desired emails) are disjoint from the
    emails of its desired tuples, and no email is the subject of both a
    removal request and a share/update request for the same album. *)
Theorem removals_and_shares_disjoint :
  (forall (cur : dict string) (d : album_entry) (e : string),
      In e (users_to_remove cur (desired_users ord d)) ->
      ~ In e (map fst (users d)))
  /\ (forall (file : option (list (list string))) (w : W) (e1 e2 : event),
         In e1 (issued (process_share_albums api ord file w)) ->
         In e2 (issued (process_share_albums api ord file w)) ->
         is_remove e1 = true -> is_share e2 = true ->
         ev_album e1 = ev_album e2 ->
         ev_email e1 <> ev_email e2).
Proof.
  split.
  - intros cur d e. apply users_to_remove_disjoint.
  - intros file w e1 e2 H1 H2 R1 S2 Ha.
    destruct (process_share_albums_shape file w) as [Hnil|(ad & Hn & Hs)].
    + rewrite Hnil in H1. contradiction.
    + eapply run_shape_disjoint; eassumption.
Qed.

End RunTrace.

Lemma removals_and_shares_disjoint_witness :
  ~ In "bob@x.com" (map fst [("alice@x.com", "viewer")])
  /\ ev_email (EvRemove "A1" "bob@x.com" "u2" true)
     <> ev_email (EvShare "A1" "alice@x.com" "u1" "viewer" true).
Proof.
  split.
  - apply (proj1 (removals_and_shares_disjoint model_api insertion_order)
             [("alice@x.com", "editor"); ("bob@x.com", "viewer")]
             {| users := [("alice@x.com", "viewer")]; role := "viewer" |}
             "bob@x.com").
    simpl. left; reflexivity.
  - apply (proj2 (removals_and_shares_disjoint model_api insertion_order)
             (Some demote_alice) demo_server
             (EvRemove "A1" "bob@x.com" "u2" true)
             (EvShare "A1" "alice@x.com" "u1" "viewer" true)).
    + vm_compute. left; reflexivity.
    + vm_compute. right; right; left; reflexivity.
    + reflexivity.
    + reflexivity.
    + reflexivity.
Defined.

(** ** Ordering of the requests *)

Section Ordering.

Context {W : Type} (api : API W) (ord : SetOrder).

Lemma pass_shape_order (k : string) (d : album_entry) (new : list event)
  (i j : nat) (e1 e2 : event) :
  pass_shape k d new ->
  nth_error new i = Some e1 -> nth_error new j = Some e2 ->
  is_remove e1 = true -> is_share e2 = true -> i < j.
Proof.
  intros (rem & sh & -> & Hr & Hs) H1 H2 R1 S2.
  rewrite Forall_forall in Hr, Hs.
  destruct (Nat.lt_ge_cases i (List.length rem)) as [Hi|Hi];
    destruct (Nat.lt_ge_cases j (List.length rem)) as [Hj|Hj]; try lia.
  - rewrite nth_error_app1 in H2 by assumption.
    apply nth_error_In, Hr in H2. destruct e2; simpl in *; [discriminate|].
    destruct H2 as (H & _). discriminate.
  - rewrite nth_error_app1 in H2 by assumption.
    apply nth_error_In, Hr in H2. destruct e2; simpl in *; [discriminate|].
    destruct H2 as (H & _). discriminate.
  - rewrite nth_error_app2 in H1 by assumption.
    apply nth_error_In, Hs in H1. destruct e1; simpl in *; [|discriminate].
    destruct H1 as (H & _). discriminate.
Qed.

Lemma run_shape_order (ad : dict album_entry) :
  forall (new : list event) (i j : nat) (e1 e2 : event),
    NoDup (dict_keys ad) -> run_shape ad new ->
    nth_error new i = Some e1 -> nth_error new j = Some e2 ->
    is_remove e1 = true -> is_share e2 = true ->
    ev_album e1 = ev_album e2 -> i < j.
Proof.
  induction ad as [|[k d] ad IH]; intros new i j e1 e2 Hn; simpl.
  - intros -> H1. destruct i; discriminate H1.
  - intros (b & tl & -> & Sb & St) H1 H2 R1 S2 Ha.
    simpl in Hn. inversion Hn as [|? ? Hk Hn']; subst.
    destruct (Nat.lt_ge_cases i (List.length b)) as [Hi|Hi];
      destruct (Nat.lt_ge_cases j (List.length b)) as [Hj|Hj]; try lia.
    + rewrite nth_error_app1 in H1, H2 by assumption.
      eapply pass_shape_order; eassumption.
    + rewrite nth_error_app2 in H1 by assumption.
      rewrite nth_error_app1 in H2 by assumption.
      exfalso. apply Hk.
      rewrite <- (pass_shape_album k d b e2 Sb (nth_error_In _ _ H2)), <- Ha.
      eapply run_shape_album; [exact St|]. eapply nth_error_In; exact H1.
    + rewrite nth_error_app2 in H1, H2 by assumption.
      assert (i - List.length b < j - List.length b); [|lia].
      eapply IH; eassumption.
Qed.

(** C5: the log of one album pass consists of its removal requests
    followed by its share/update requests, and no removal concerns an email
    of the desired set, so a role change of a desired user is never a
    remove-then-add; in the log of a whole run every removal request of an
    album stands before every share/update request of that album. *)
Theorem removals_precede_shares :
  (forall (dir : dict string) (s : state W) (k : string) (d : album_entry),
      exists rem sh,
        calls (process_album api ord dir s (k, d)) = calls s ++ rem ++ sh
        /\ Forall (fun ev => is_remove ev = true /\ ev_album ev = k
                             /\ ~ In (ev_email ev) (map fst (users d))) rem
        /\ Forall (fun ev => is_share ev = true /\ ev_album ev = k
                             /\ In (ev_email ev) (map fst (users d))) sh)
  /\ (forall (file : option (list (list string))) (w : W) (i j : nat)
             (e1 e2 : event),
         nth_error (issued (process_share_albums api ord file w)) i = Some e1 ->
         nth_error (issued (process_share_albums api ord file w)) j = Some e2 ->
         is_remove e1 = true -> is_share e2 = true ->
         ev_album e1 = ev_album e2 ->
         i < j).
Proof.
  split.
  - intros dir s k d.
    destruct (process_album_shape api ord dir s k d)
      as (new & Hc & rem & sh & -> & Hr & Hs).
    now exists rem, sh.
  - intros file w i j e1 e2 H1 H2 R1 S2 Ha.
    destruct (process_share_albums_shape api ord file w) as [Hnil|(ad & Hn & Hs)].
    + rewrite Hnil in H1. destruct i; discriminate H1.
    + eapply (run_shape_order ad); eassumption.
Qed.

End Ordering.

Lemma removals_precede_shares_witness : 1 < 2.
Proof.
  apply (proj2 (removals_precede_shares model_api insertion_order)
           (Some demote_alice) demo_server 1 2
           (EvRemove "A1" "carol@x.com" "u3" true)
           (EvShare "A1" "alice@x.com" "u1" "viewer" true));
    reflexivity.
Defined.

(** ** Requests that must be issued *)

Section Issued.

Context {W : Type} (api : API W) (ord : SetOrder).
Variables (dir : dict string) (k : string) (cur : dict string).

Lemma share_loop_keeps (l : list (string * string)) (s : state W)
  (ev : event) :
  In ev (calls s) -> In ev (calls (fold_left (share_step api dir k cur) l s)).
Proof.
  intros H. destruct (share_loop_trace api dir k cur l s) as (new & -> & _).
  apply in_or_app. now left.
Qed.

Lemma share_loop_issues (e r uid : string) (l : list (string * string)) :
  forall s : state W,
    In (e, r) l -> dict_get dir e = Some uid -> truthy uid = true ->
    role_differs (dict_get cur e) r = true ->
    exists ok,
      In (EvShare k e uid r ok)
        (calls (fold_left (share_step api dir k cur) l s)).
Proof.
  induction l as [|t l IH]; intros s Hin Hd Ht Hr; [contradiction|].
  cbn [fold_left]. destruct Hin as [->|Hin]; [|now apply IH].
  destruct (share_step_trace api dir k cur s e r)
    as [(_ & Hs)|(uid' & ok & Hd' & _ & _ & _ & Hs & _)].
  - exfalso. revert Hs. unfold share_step. rewrite Hd, Ht, Hr.
    destruct (api_share api k uid r (world s)) as [w' ok]. simpl.
    intros Hs. apply (f_equal (@List.length event)) in Hs.
    rewrite length_app in Hs. simpl in Hs. lia.
  - exists ok. apply share_loop_keeps. rewrite Hs.
    apply in_or_app. right. left. congruence.
Qed.

End Issued.

Section CaseSensitivity.

Context {W : Type} (api : API W) (ord : SetOrder).

Lemma process_album_issues (dir : dict string) (s : state W) (k : string)
  (d : album_entry) (e r uid : string) :
  In (e, r) (users d) -> dict_get dir e = Some uid -> truthy uid = true ->
  role_differs (dict_get (fetched_users api k (world s)) e) r = true ->
  exists ok,
    In (EvShare k e uid r ok) (calls (process_album api ord dir s (k, d))).
Proof.
  intros Hin Hd Ht Hr. unfold process_album, fetched_users in *. simpl in *.
  destruct (api_get_album_details api k (world s)) as [w1 d1]. simpl in *.
  destruct (get_current_album_users api k w1) as [w2 cur]. simpl in *.
  apply share_loop_issues; try assumption. now apply In_iter_pairs.
Qed.

End CaseSensitivity.

(** ** The stored batch role *)

Section BatchRole.

Context {W : Type} (api : API W) (ord : SetOrder).

Lemma process_album_ignores_role (dir : dict string) (s : state W)
  (k : string) (d1 d2 : album_entry) :
  users d1 = users d2 ->
  process_album api ord dir s (k, d1) = process_album api ord dir s (k, d2).
Proof.
  intros H. unfold process_album, desired_users. now rewrite H.
Qed.

(** C10: the role stored per album at ingestion is never read by the
    reconciliation; two album data that agree on the album ids and on the
    (email, role) tuples of every album lead to the same final world, the
    same requests and the same statistics. *)
Theorem batch_role_is_ignored (dir : dict string)
  (ad1 ad2 : dict album_entry) (s : state W) :
  same_tuples ad1 ad2 ->
  process_all api ord dir ad1 s = process_all api ord dir ad2 s.
Proof.
  unfold same_tuples, process_all. revert ad2 s.
  induction ad1 as [|[k1 d1] ad1 IH]; intros [|[k2 d2] ad2] s H;
    simpl in H; try discriminate; [reflexivity|].
  injection H as Hk Hu Hrest. subst k2. cbn [fold_left].
  rewrite (process_album_ignores_role dir s k1 d1 d2 Hu). now apply IH.
Qed.

End BatchRole.

Lemma batch_role_is_ignored_witness :
  process_all model_api insertion_order (build_email_to_id (srv_users demo_server))
    two_roles {| world := demo_server; calls := []; st := stats0 |}
  = process_all model_api insertion_order (build_email_to_id (srv_users demo_server))
      two_roles' {| world := demo_server; calls := []; st := stats0 |}.
Proof.
  apply (batch_role_is_ignored model_api insertion_order
           (build_email_to_id (srv_users demo_server)) two_roles two_roles'
           {| world := demo_server; calls := []; st := stats0 |}).
  reflexivity.
Defined.

(** ** Unresolved emails *)

Lemma build_email_to_id_truthy (us : list user_json) (e uid : string) :
  dict_get (build_email_to_id us) e = Some uid -> truthy uid = true.
Proof.
  unfold build_email_to_id.
  assert (G : forall d : dict string,
             (forall e uid, dict_get d e = Some uid -> truthy uid = true) ->
             forall e uid,
               dict_get (fold_left directory_step us d) e = Some uid ->
               truthy uid = true).
  { induction us as [|u us IH]; intros d Hd; cbn [fold_left]; [exact Hd|].
    apply IH. unfold directory_step. destruct (u_email u) as [em|]; [|exact Hd].
    destruct (u_id u) as [i|]; [|exact Hd].
    destruct (truthy em && truthy i) eqn:Ht; [|exact Hd].
    intros e' uid'. rewrite dict_get_set.
    destruct (String.eqb (lower em) e'); [|apply Hd].
    intros [= <-]. now apply andb_true_iff in Ht. }
  apply G. intros ? ?. discriminate.
Qed.

Lemma failed_share_count_app (l1 l2 : list event) :
  failed_share_count (l1 ++ l2) = failed_share_count l1 + failed_share_count l2.
Proof. unfold failed_share_count. now rewrite filter_app, length_app. Qed.

Lemma filter_length_perm {A} (f : A -> bool) (l l' : list A) :
  Permutation l l' -> List.length (filter f l) = List.length (filter f l').
Proof.
  induction 1; simpl; try congruence.
  - destruct (f x); simpl; congruence.
  - destruct (f x), (f y); reflexivity.
Qed.

Section Unresolved.

Context {W : Type} (api : API W) (ord : SetOrder).
Variables (dir : dict string) (k : string).
Hypothesis dir_truthy :
  forall e uid, dict_get dir e = Some uid -> truthy uid = true.

Lemma share_step_unresolved (cur : dict string) (s : state W) (e r : string) :
  dict_get dir e = None ->
  share_step api dir k cur s (e, r)
  = {| world := world s; calls := calls s; st := count_not_found e (st s) |}.
Proof. intros H. unfold share_step. now rewrite H. Qed.

Lemma remove_loop_shares (l : list string) :
  forall s : state W,
    failed_shares (st (fold_left (remove_step api dir k) l s))
    = failed_shares (st s)
    /\ users_not_found (st (fold_left (remove_step api dir k) l s))
       = users_not_found (st s)
    /\ failed_share_count (calls (fold_left (remove_step api dir k) l s))
       = failed_share_count (calls s).
Proof.
  induction l as [|e l IH]; intros s; cbn [fold_left]; [auto|].
  destruct (IH (remove_step api dir k s e)) as (-> & -> & ->).
  destruct (remove_step_trace api dir k s e)
    as [(_ & -> & ->)|(uid & ok & _ & _ & _ & -> & ->)]; [auto|].
  rewrite failed_share_count_app. unfold failed_share_count at 2. simpl.
  repeat split; lia.
Qed.

Lemma share_loop_failed (cur : dict string) (l : list (string * string)) :
  forall s : state W,
    failed_shares (st (fold_left (share_step api dir k cur) l s))
      + failed_share_count (calls s)
    = failed_shares (st s) + List.length (filter (unresolved dir) l)
      + failed_share_count (calls (fold_left (share_step api dir k cur) l s)).
Proof.
  induction l as [|[e r] l IH]; intros s; cbn [fold_left filter].
  - simpl. lia.
  - specialize (IH (share_step api dir k cur s (e, r))).
    unfold unresolved at 1. unfold dict_mem. cbn [fst].
    destruct (dict_get dir e) as [uid|] eqn:Hd.
    + assert (Hst :
        failed_shares (st (share_step api dir k cur s (e, r)))
          + failed_share_count (calls s)
        = failed_shares (st s)
          + failed_share_count (calls (share_step api dir k cur s (e, r)))).
      { unfold share_step. rewrite Hd, (dir_truthy e uid Hd).
        destruct (role_differs (dict_get cur e) r); [|reflexivity].
        destruct (api_share api k uid r (world s)) as [w' ok]. simpl.
        rewrite failed_share_count_app. unfold failed_share_count at 3.
        destruct ok; simpl; lia. }
      cbn [negb]. lia.
    + assert (Hf : failed_shares (st (share_step api dir k cur s (e, r)))
                   = S (failed_shares (st s)))
        by now rewrite (share_step_unresolved cur s e r Hd).
      assert (Hc : calls (share_step api dir k cur s (e, r)) = calls s)
        by now rewrite (share_step_unresolved cur s e r Hd).
      rewrite Hf, Hc in IH. cbn [negb List.length]. lia.
Qed.

Lemma share_loop_not_found (cur : dict string) (e : string)
  (l : list (string * string)) :
  forall s : state W,
    In e (users_not_found (st s))
    \/ (exists r, In (e, r) l) /\ dict_get dir e = None ->
    In e (users_not_found (st (fold_left (share_step api dir k cur) l s))).
Proof.
  induction l as [|[e' r'] l IH]; intros s; cbn [fold_left].
  - intros [H|((r & []) & _)]. exact H.
  - intros H. apply IH.
    destruct H as [H|((r & [Heq|Hin]) & Hd)].
    + left. unfold share_step. destruct (dict_get dir e') as [uid|].
      * destruct (truthy uid).
        -- destruct (role_differs _ _); [|exact H].
           now destruct (api_share api k uid r' (world s)).
        -- simpl. apply In_set_add_str. now right.
      * simpl. apply In_set_add_str. now right.
    + injection Heq as -> ->. left.
      rewrite (share_step_unresolved cur s e r Hd). simpl.
      apply In_set_add_str. now left.
    + right. split; [now exists r|exact Hd].
Qed.

End Unresolved.

Section UnresolvedAlbum.

Context {W : Type} (api : API W) (ord : SetOrder).

Lemma process_album_unfold (dir : dict string) (s : state W) (k : string)
  (d : album_entry) :
  process_album api ord dir s (k, d)
  = fold_left (share_step api dir k (fetched_users api k (world s)))
      (iter_pairs ord (users d))
      (fold_left (remove_step api dir k)
         (iter_emails ord
            (users_to_remove (fetched_users api k (world s))
               (desired_users ord d)))
         {| world := fetched_world api k (world s); calls := calls s;
            st := count_album (st s) |}).
Proof.
  unfold process_album, fetched_users, fetched_world. simpl.
  destruct (api_get_album_details api k (world s)) as [w1 d1]. simpl.
  now destruct (get_current_album_users api k w1) as [w2 cur].
Qed.

(** C6: a desired tuple whose email is absent from the user directory
    causes no request: the step leaves world and call log untouched,
    records the email among the users not found and adds one to the
    failed-shares counter.  Over an album pass no new request concerns such
    an email, every such email ends up recorded, and the failed-shares
    counter grows by one per such tuple plus one per failed share request. *)
Theorem unresolved_email_accounting (us : list user_json) (k : string) :
  (forall (cur : dict string) (s : state W) (e r : string),
      dict_get (build_email_to_id us) e = None ->
      share_step api (build_email_to_id us) k cur s (e, r)
      = {| world := world s; calls := calls s;
           st := {| total_albums := total_albums (st s);
                    successful_shares := successful_shares (st s);
                    failed_shares := S (failed_shares (st s));
                    users_removed := users_removed (st s);
                    removal_failures := removal_failures (st s);
                    users_not_found :=
                      set_add_str e (users_not_found (st s)) |} |})
  /\ (forall (s : state W) (d : album_entry),
         exists new,
           calls (process_album api ord (build_email_to_id us) s (k, d))
           = calls s ++ new
           /\ (forall e r,
                  In (e, r) (users d) ->
                  dict_get (build_email_to_id us) e = None ->
                  (forall ev, In ev new -> ev_email ev <> e)
                  /\ In e (users_not_found
                             (st (process_album api ord
                                    (build_email_to_id us) s (k, d)))))
           /\ failed_shares
                (st (process_album api ord (build_email_to_id us) s (k, d)))
              = failed_shares (st s)
                + List.length
                    (filter (unresolved (build_email_to_id us)) (users d))
                + failed_share_count new).
Proof.
  set (dir := build_email_to_id us).
  assert (Ht : forall e uid, dict_get dir e = Some uid -> truthy uid = true)
    by apply build_email_to_id_truthy.
  split.
  - intros cur s e r Hd. now rewrite (share_step_unresolved api dir k cur s e r Hd).
  - intros s d.
    destruct (process_album_trace api ord dir s k d) as (rem & sh & Hc & Hr & Hs).
    exists (rem ++ sh). split; [exact Hc|]. split.
    + intros e r Hin Hd. split.
      * intros ev Hev Heq. apply in_app_or in Hev.
        rewrite Forall_forall in Hr, Hs. destruct Hev as [Hev|Hev].
        -- destruct (Hr ev Hev) as (e' & uid & ok & -> & Hrm & _).
           simpl in Heq. subst e'.
           apply users_to_remove_disjoint in Hrm. apply Hrm.
           apply in_map_iff. now exists (e, r).
        -- destruct (Hs ev Hev) as (e' & r' & uid & ok & -> & _ & Hd' & _).
           simpl in Heq. subst e'. congruence.
      * rewrite process_album_unfold. apply share_loop_not_found.
        right. split; [|exact Hd]. exists r. now apply In_iter_pairs.
    + pose proof (share_loop_failed api dir k Ht
                    (fetched_users api k (world s))
                    (iter_pairs ord (users d))
                    (fold_left (remove_step api dir k)
                       (iter_emails ord
                          (users_to_remove (fetched_users api k (world s))
                             (desired_users ord d)))
                       {| world := fetched_world api k (world s);
                          calls := calls s; st := count_album (st s) |}))
        as Hf.
      rewrite <- process_album_unfold in Hf.
      destruct (remove_loop_shares api dir k
                  (iter_emails ord
                     (users_to_remove (fetched_users api k (world s))
                        (desired_users ord d)))
                  {| world := fetched_world api k (world s);
                     calls := calls s; st := count_album (st s) |})
        as (Hf1 & _ & Hf3).
      rewrite Hf1, Hf3 in Hf. cbn [st calls count_album failed_shares] in Hf.
      rewrite Hc, failed_share_count_app in Hf.
      rewrite (filter_length_perm _ _ _ (iter_pairs_perm ord (users d))) in Hf.
      lia.
Qed.

End UnresolvedAlbum.

Lemma unresolved_email_accounting_witness :
  share_step model_api (build_email_to_id (srv_users demo_server)) "A1" []
    {| world := demo_server; calls := []; st := stats0 |}
    ("zoe@x.com", "viewer")
  = {| world := demo_server; calls := [];
       st := {| total_albums := 0; successful_shares := 0; failed_shares := 1;
                users_removed := 0; removal_failures := 0;
                users_not_found := ["zoe@x.com"] |} |}
  /\ In "zoe@x.com"
       (users_not_found
          (st (process_album model_api insertion_order
                 (build_email_to_id (srv_users demo_server))
                 {| world := demo_server; calls := []; st := stats0 |}
                 ("A1", with_stranger)))).
Proof.
  split.
  - apply (proj1 (unresolved_email_accounting model_api insertion_order
                    (srv_users demo_server) "A1")
             [] {| world := demo_server; calls := []; st := stats0 |}
             "zoe@x.com" "viewer").
    reflexivity.
  - destruct (proj2 (unresolved_email_accounting model_api insertion_order
                       (srv_users demo_server) "A1")
                {| world := demo_server; calls := []; st := stats0 |}
                with_stranger) as (new & _ & H & _).
    apply (H "zoe@x.com" "viewer").
    + right; left; reflexivity.
    + reflexivity.
Defined.

(** ** The exporter *)

Lemma set_add_str_nodup (x : string) (s : list string) :
  NoDup s -> NoDup (set_add_str x s).
Proof.
  intros H. unfold set_add_str. destruct (mem_str x s) eqn:Hm; [assumption|].
  apply NoDup_snoc; [assumption|]. now apply mem_str_not_In.
Qed.

Lemma roles_in_order_snoc (l : list album_user_json) (x : album_user_json) :
  roles_in_order (l ++ [x]) = set_add_str (entry_role x) (roles_in_order l).
Proof. unfold roles_in_order. now rewrite fold_left_app. Qed.

Lemma roles_in_order_nodup (l : list album_user_json) :
  NoDup (roles_in_order l).
Proof.
  induction l as [|x l IH] using rev_ind; [constructor|].
  rewrite roles_in_order_snoc. now apply set_add_str_nodup.
Qed.

Lemma In_roles_in_order (l : list album_user_json) (r : string) :
  In r (roles_in_order l) <-> exists ui, In ui l /\ entry_role ui = r.
Proof.
  induction l as [|x l IH] using rev_ind.
  - simpl. split; [contradiction|]. now intros (ui & [] & _).
  - rewrite roles_in_order_snoc, In_set_add_str, IH. split.
    + intros [->|(ui & Hin & Hr)].
      * exists x. split; [apply in_or_app; right; now left|reflexivity].
      * exists ui. split; [apply in_or_app; now left|assumption].
    + intros (ui & Hin & Hr). apply in_app_or in Hin.
      destruct Hin as [Hin|[->|[]]]; [right; now exists ui|left; now symmetry].
Qed.

Lemma users_with_role_snoc (r : string) (l : list album_user_json)
  (x : album_user_json) :
  users_with_role r (l ++ [x])
  = users_with_role r l
    ++ (if String.eqb (entry_role x) r && truthy (exported_email x)
        then [exported_email x] else []).
Proof.
  unfold users_with_role. rewrite filter_app, map_app, filter_app. f_equal.
  simpl. destruct (String.eqb (entry_role x) r); simpl; [|reflexivity].
  now destruct (truthy (exported_email x)).
Qed.

Lemma users_with_role_absent (r : string) (l : list album_user_json) :
  ~ In r (roles_in_order l) -> users_with_role r l = [].
Proof.
  intros Hn. unfold users_with_role.
  replace (filter (fun ui => String.eqb (entry_role ui) r) l) with (@nil album_user_json);
    [reflexivity|].
  symmetry. induction l as [|x l IH]; [reflexivity|]. simpl.
  destruct (String.eqb_spec (entry_role x) r) as [Heq|Hne].
  - exfalso. apply Hn, In_roles_in_order. exists x. split; [now left|assumption].
  - apply IH. intros Hin. apply Hn. apply In_roles_in_order in Hin.
    destruct Hin as (ui & Hin & Hr). apply In_roles_in_order.
    exists ui. split; [now right|assumption].
Qed.

Section TabulatedDict.

Context {V : Type}.

Lemma dict_mem_tabulate (g : string -> V) (rs : list string) (k : string) :
  dict_mem k (map (fun r => (r, g r)) rs) = mem_str k rs.
Proof.
  unfold dict_mem. induction rs as [|r rs IH]; simpl; [reflexivity|].
  rewrite (String.eqb_sym k r).
  destruct (String.eqb r k); [reflexivity|exact IH].
Qed.

Lemma dict_set_tabulate (g : string -> V) (rs : list string) (k : string)
  (v : V) :
  ~ In k rs ->
  dict_set (map (fun r => (r, g r)) rs) k v
  = map (fun r => (r, g r)) rs ++ [(k, v)].
Proof.
  induction rs as [|r rs IH]; simpl; intros Hn; [reflexivity|].
  destruct (String.eqb_spec r k) as [->|Hne].
  - exfalso. apply Hn. now left.
  - rewrite IH; [reflexivity|]. intros H. apply Hn. now right.
Qed.

Lemma dict_update_tabulate (g : string -> V) (rs : list string) (k : string)
  (f : V -> V) :
  NoDup rs ->
  dict_update (map (fun r => (r, g r)) rs) k f
  = map (fun r => (r, if String.eqb r k then f (g r) else g r)) rs.
Proof.
  induction 1 as [|r rs Hr Hn IH]; simpl; [reflexivity|].
  destruct (String.eqb_spec r k) as [->|Hne].
  - f_equal. apply map_ext_in. intros r' Hin.
    destruct (String.eqb_spec r' k) as [->|_]; [contradiction|reflexivity].
  - now rewrite IH.
Qed.

End TabulatedDict.

Lemma grouped_snoc (l : list album_user_json) (x : album_user_json) :
  grouped (l ++ [x]) = group_step (grouped l) x.
Proof.
  unfold group_step, grouped. rewrite dict_mem_tabulate, roles_in_order_snoc.
  unfold set_add_str.
  pose proof (roles_in_order_nodup l) as Hnd.
  destruct (mem_str (entry_role x) (roles_in_order l)) eqn:Hm.
  - destruct (truthy (exported_email x)) eqn:Ht.
    + rewrite dict_update_tabulate by assumption.
      apply map_ext. intros r. rewrite users_with_role_snoc, Ht, andb_true_r.
      rewrite (String.eqb_sym r). destruct (String.eqb (entry_role x) r);
        [reflexivity|now rewrite app_nil_r].
    + apply map_ext. intros r.
      now rewrite users_with_role_snoc, Ht, andb_false_r, app_nil_r.
  - apply mem_str_not_In in Hm.
    rewrite dict_set_tabulate by assumption.
    rewrite map_app. simpl.
    assert (Hrest :
      map (fun r => (r, users_with_role r (l ++ [x]))) (roles_in_order l)
      = map (fun r => (r, users_with_role r l)) (roles_in_order l)).
    { apply map_ext_in. intros r Hin. rewrite users_with_role_snoc.
      destruct (String.eqb_spec (entry_role x) r) as [<-|_];
        [contradiction|]. now rewrite app_nil_r. }
    rewrite Hrest, users_with_role_snoc, String.eqb_refl.
    rewrite (users_with_role_absent _ _ Hm). simpl.
    destruct (truthy (exported_email x)) eqn:Ht; [|reflexivity].
    assert (Hnd' : NoDup (roles_in_order l ++ [entry_role x]))
      by now apply NoDup_snoc.
    pose proof (dict_update_tabulate
                  (fun r => if String.eqb r (entry_role x) then []
                            else users_with_role r l)
                  (roles_in_order l ++ [entry_role x]) (entry_role x)
                  (fun u => u ++ [exported_email x]) Hnd') as Hu.
    rewrite map_app in Hu. simpl in Hu. rewrite String.eqb_refl in Hu.
    assert (Htab :
      map (fun r => (r, if String.eqb r (entry_role x) then []
                        else users_with_role r l)) (roles_in_order l)
      = map (fun r => (r, users_with_role r l)) (roles_in_order l)).
    { apply map_ext_in. intros r Hin.
      destruct (String.eqb_spec r (entry_role x)) as [->|_];
        [contradiction|reflexivity]. }
    rewrite Htab in Hu. rewrite Hu. rewrite map_app. simpl.
    rewrite String.eqb_refl. f_equal.
    apply map_ext_in. intros r Hin.
    destruct (String.eqb_spec r (entry_role x)) as [->|_];
      [contradiction|reflexivity].
Qed.

(** The dictionary the exporter builds per album is the tabulation of
    [users_with_role] over the distinct roles. *)
Lemma group_by_role_grouped (l : list album_user_json) :
  group_by_role l = grouped l.
Proof.
  induction l as [|x l IH] using rev_ind; [reflexivity|].
  unfold group_by_role in *. rewrite fold_left_app. simpl.
  now rewrite IH, grouped_snoc.
Qed.

Lemma max_users_ge (ps : list processed) (p : processed) :
  In p ps -> List.length (p_users p) <= max_users ps.
Proof.
  unfold max_users. induction ps as [|q ps IH]; simpl; [contradiction|].
  intros [->|H]; [lia|]. specialize (IH H). lia.
Qed.

Lemma max_users_attained (ps : list processed) :
  ps <> [] -> exists p, In p ps /\ List.length (p_users p) = max_users ps.
Proof.
  unfold max_users. induction ps as [|q ps IH]; [congruence|]. intros _.
  simpl. destruct ps as [|q' ps].
  - exists q. split; [now left|]. simpl. lia.
  - destruct IH as (p & Hin & Hp); [discriminate|].
    destruct (Nat.max_spec (List.length (p_users q))
                (fold_right Nat.max 0
                   (map (fun p => List.length (p_users p)) (q' :: ps))))
      as [(_ & ->)|(_ & ->)].
    + exists p. split; [now right|exact Hp].
    + exists q. split; [now left|reflexivity].
Qed.

Lemma csv_headers_length (m : nat) : List.length (csv_headers m) = 3 + m.
Proof. unfold csv_headers. simpl. now rewrite length_map, length_seq. Qed.

Lemma csv_row_length (m : nat) (p : processed) :
  List.length (p_users p) <= m -> List.length (csv_row m p) = 3 + m.
Proof.
  intros H. unfold csv_row. simpl. rewrite length_app, repeat_length. lia.
Qed.

Lemma album_rows_length (a : album_json) :
  List.length (album_rows a) = row_count a.
Proof.
  unfold album_rows, row_count, album_entries.
  destruct (get_or [] (a_albumUsers a)) as [|ui l]; [reflexivity|].
  rewrite group_by_role_grouped. unfold grouped. rewrite !length_map.
  destruct (roles_in_order (ui :: l)) as [|r0 rs] eqn:Hr; [|simpl; lia].
  exfalso. assert (H : In (entry_role ui) (roles_in_order (ui :: l))).
  { apply In_roles_in_order. exists ui. split; [now left|reflexivity]. }
  rewrite Hr in H. exact H.
Qed.

Lemma processed_albums_length (albums : list album_json) :
  List.length (processed_albums albums) = list_sum (map row_count albums).
Proof.
  unfold processed_albums.
  induction albums as [|a albums IH]; [reflexivity|].
  cbn [flat_map map]. rewrite length_app, IH, album_rows_length.
  reflexivity.
Qed.

(** C8: the exported table is rectangular.  An album with shares yields one
    row per distinct role, in order of first appearance, holding the
    non-empty emails of the entries with that role; an album without shares
    yields the single row of its name, its id, an empty role and empty user
    cells only.  The header has three fixed columns and as many User-N
    columns as the longest user list of any row, that maximum is attained
    when there are rows, and every data row consists of name, id, role, its
    users and empty cells up to that width.  The rows of the table are the
    rows of every album of the listing, album after album in the order of
    the listing: an album contributes as many rows as it has distinct roles,
    one when it has no shares, and the table has one row more than the
    albums contribute together. *)
Theorem export_is_rectangular (albums : list album_json) :
  (forall a : album_json,
      album_rows a
      = match get_or [] (a_albumUsers a) with
        | [] => [ {| p_name := get_or "" (a_albumName a);
                     p_id := get_or "" (a_id a);
                     p_role := ""; p_users := [] |} ]
        | ui :: l =>
            map (fun r => {| p_name := get_or "" (a_albumName a);
                             p_id := get_or "" (a_id a);
                             p_role := r;
                             p_users := users_with_role r (ui :: l) |})
              (roles_in_order (ui :: l))
        end)
  /\ (forall l : list album_user_json,
         NoDup (roles_in_order l)
         /\ forall r, In r (roles_in_order l)
                      <-> exists ui, In ui l /\ entry_role ui = r)
  /\ (forall (a : album_json) (m : nat),
         get_or [] (a_albumUsers a) = [] ->
         map (csv_row m) (album_rows a)
         = [ [get_or "" (a_albumName a); get_or "" (a_id a); ""]
               ++ repeat "" m ])
  /\ List.length (csv_headers (max_users (processed_albums albums)))
     = 3 + max_users (processed_albums albums)
  /\ (forall p, In p (processed_albums albums) ->
                List.length (p_users p) <= max_users (processed_albums albums))
  /\ (processed_albums albums <> [] ->
      exists p, In p (processed_albums albums)
                /\ List.length (p_users p) = max_users (processed_albums albums))
  /\ export_table albums
     = csv_headers (max_users (processed_albums albums))
         :: map (fun p =>
                   [p_name p; p_id p; p_role p] ++ p_users p
                     ++ repeat "" (max_users (processed_albums albums)
                                   - List.length (p_users p)))
              (processed_albums albums)
  /\ (forall row, In row (export_table albums) ->
                  List.length row = 3 + max_users (processed_albums albums))
  /\ processed_albums albums = List.concat (map album_rows albums)
  /\ (forall a : album_json, List.length (album_rows a) = row_count a)
  /\ List.length (export_table albums) = 1 + list_sum (map row_count albums).
Proof.
  repeat split.
  - intros a. unfold album_rows.
    destruct (get_or [] (a_albumUsers a)) as [|ui l]; [reflexivity|].
    rewrite group_by_role_grouped. unfold grouped. now rewrite map_map.
  - apply roles_in_order_nodup.
  - apply In_roles_in_order.
  - apply In_roles_in_order.
  - intros a m H. unfold album_rows. rewrite H. unfold csv_row. simpl.
    now rewrite Nat.sub_0_r.
  - apply csv_headers_length.
  - apply max_users_ge.
  - apply max_users_attained.
  - intros row Hin. unfold export_table in Hin. destruct Hin as [<-|Hin].
    + apply csv_headers_length.
    + apply in_map_iff in Hin. destruct Hin as (p & <- & Hp).
      apply csv_row_length. now apply max_users_ge.
  - apply flat_map_concat_map.
  - apply album_rows_length.
  - unfold export_table. cbn [List.length].
    now rewrite length_map, processed_albums_length.
Qed.

Lemma export_is_rectangular_witness :
  map (csv_row 2) (album_rows (mk_album "A2" "Empty" []))
  = [ ["Empty"; "A2"; ""] ++ repeat "" 2 ]
  /\ List.length (p_users {| p_name := "Trip"; p_id := "A1"; p_role := "viewer";
                             p_users := ["Bob@x.com"] |})
     <= max_users (processed_albums (srv_albums demo_server))
  /\ (exists p, In p (processed_albums (srv_albums demo_server))
                /\ List.length (p_users p)
                   = max_users (processed_albums (srv_albums demo_server)))
  /\ List.length ["Empty"; "A2"; ""; ""; ""]
     = 3 + max_users (processed_albums (srv_albums demo_server))
  /\ In {| p_name := "Empty"; p_id := "A2"; p_role := ""; p_users := [] |}
       (processed_albums (srv_albums demo_server))
  /\ List.length (export_table (srv_albums demo_server)) = 4.
Proof.
  pose proof (export_is_rectangular (srv_albums demo_server))
    as (_ & _ & Hempty & _ & Hle & Hmax & _ & Hrow & Hall & _ & Hlen).
  split; [|split; [|split; [|split; [|split]]]];
    [| | | |rewrite Hall; vm_compute; right; right; left; reflexivity
     |rewrite Hlen; reflexivity].
  - apply (Hempty (mk_album "A2" "Empty" []) 2). reflexivity.
  - apply Hle. vm_compute. right; left; reflexivity.
  - apply Hmax. discriminate.
  - apply Hrow. vm_compute. right; right; right; left; reflexivity.
Defined.


(** ** What ingestion stores *)

Lemma pair_eqb_eq (a b : string * string) : pair_eqb a b = true <-> a = b.
Proof.
  unfold pair_eqb. destruct a as [a1 a2], b as [b1 b2]. simpl.
  rewrite andb_true_iff, !String.eqb_eq. split.
  - now intros [-> ->].
  - now intros [= -> ->].
Qed.

Lemma mem_pair_In (x : string * string) (s : list (string * string)) :
  mem_pair x s = true <-> In x s.
Proof.
  unfold mem_pair. rewrite existsb_exists. split.
  - intros (y & Hy & He). apply pair_eqb_eq in He. now subst.
  - intros H. exists x. split; [assumption|now apply pair_eqb_eq].
Qed.

Lemma In_set_add_pair (x y : string * string) (s : list (string * string)) :
  In y (set_add_pair x s) <-> y = x \/ In y s.
Proof.
  unfold set_add_pair. destruct (mem_pair x s) eqn:Hm.
  - apply mem_pair_In in Hm. split; [now right|]. intros [->|H]; assumption.
  - rewrite in_app_iff. simpl. split.
    + intros [H|[H|[]]]; [now right|now left].
    + intros [H|H]; [right; left; now symmetry|now left].
Qed.

Lemma set_add_pair_nodup (x : string * string) (s : list (string * string)) :
  NoDup s -> NoDup (set_add_pair x s).
Proof.
  intros H. unfold set_add_pair. destruct (mem_pair x s) eqn:Hm; [assumption|].
  apply NoDup_snoc; [assumption|]. rewrite <- mem_pair_In. congruence.
Qed.

Lemma dict_get_of_In {V} (d : dict V) (k : string) (v : V) :
  NoDup (dict_keys d) -> In (k, v) d -> dict_get d k = Some v.
Proof.
  induction d as [|[k' v'] d IH]; simpl; intros Hn Hin; [contradiction|].
  inversion Hn as [|? ? Hk Hn']; subst.
  destruct Hin as [[= -> ->]|Hin]; [now rewrite String.eqb_refl|].
  destruct (String.eqb_spec k' k) as [->|_]; [|now apply IH].
  exfalso. apply Hk. apply in_map_iff. now exists (k, v).
Qed.

Lemma In_tuples_add_user (ad : dict album_entry) (k k' : string)
  (t t' : string * string) :
  In t' (tuples_of (add_user ad k t) k')
  <-> In t' (tuples_of ad k')
      \/ (k' = k /\ t' = t /\ In k (dict_keys ad)).
Proof.
  unfold tuples_of, add_user. rewrite dict_get_update.
  destruct (String.eqb_spec k k') as [<-|Hne].
  - destruct (dict_get ad k) as [d|] eqn:Hd; simpl.
    + rewrite In_set_add_pair. split.
      * intros [->|H]; [|now left]. right. repeat split.
        apply dict_mem_In. unfold dict_mem. now rewrite Hd.
      * intros [H|(_ & -> & _)]; [now right|now left].
    + split; [contradiction|]. intros [[]|(_ & _ & Hin)].
      apply dict_get_None in Hd. contradiction.
  - split; [now left|]. intros [H|(Heq & _)]; [assumption|congruence].
Qed.

Lemma In_tuples_add_cells (row : list string) (k r : string) (l : list nat) :
  forall (ad : dict album_entry) (k' : string) (t' : string * string),
    In k (dict_keys ad) ->
    (In t' (tuples_of (fold_left (add_cell row k r) l ad) k')
     <-> In t' (tuples_of ad k')
         \/ (k' = k
             /\ exists i cell,
                 In i l /\ nth_error row i = Some cell
                 /\ t' = (lower (strip cell), r)
                 /\ truthy (lower (strip cell)) = true)).
Proof.
  induction l as [|i l IH]; intros ad k' t' Hk; cbn [fold_left].
  - split; [now left|]. intros [H|(_ & i & cell & [] & _)]. exact H.
  - assert (Hk1 : In k (dict_keys (add_cell row k r ad i))).
    { unfold add_cell. destruct (nth_error row i); [|exact Hk].
      cbv zeta. destruct (truthy _); [|exact Hk].
      unfold add_user. now rewrite dict_keys_update. }
    rewrite (IH _ k' t' Hk1). clear IH. unfold add_cell at 1.
    destruct (nth_error row i) as [cell|] eqn:Hc.
    + cbv zeta. destruct (truthy (lower (strip cell))) eqn:Ht.
      * rewrite In_tuples_add_user. split.
        -- intros [[H|(-> & -> & _)]|(-> & j & c' & Hj & Hn & Ht' & Htr)].
           ++ now left.
           ++ right. split; [reflexivity|]. exists i, cell. simpl. auto.
           ++ right. split; [reflexivity|]. exists j, c'. simpl. auto.
        -- intros [H|(-> & j & c' & [<-|Hj] & Hn & Ht' & Htr)].
           ++ left. now left.
           ++ left. right. rewrite Hc in Hn. injection Hn as <-. auto.
           ++ right. split; [reflexivity|]. now exists j, c'.
      * split.
        -- intros [H|(-> & j & c' & Hj & Hn & Ht' & Htr)]; [now left|].
           right. split; [reflexivity|]. exists j, c'. simpl. auto.
        -- intros [H|(-> & j & c' & [<-|Hj] & Hn & Ht' & Htr)]; [now left| |].
           ++ rewrite Hc in Hn. injection Hn as <-. congruence.
           ++ right. split; [reflexivity|]. now exists j, c'.
    + split.
      * intros [H|(-> & j & c' & Hj & Hn & Ht' & Htr)]; [now left|].
        right. split; [reflexivity|]. exists j, c'. simpl. auto.
      * intros [H|(-> & j & c' & [<-|Hj] & Hn & Ht' & Htr)]; [now left| |].
        -- congruence.
        -- right. split; [reflexivity|]. now exists j, c'.
Qed.

Lemma tuples_of_fresh (ad : dict album_entry) (k k' r : string) :
  dict_mem k ad = false ->
  tuples_of (dict_set ad k {| users := []; role := r |}) k' = tuples_of ad k'.
Proof.
  intros Hm. unfold tuples_of. rewrite dict_get_set.
  destruct (String.eqb_spec k k') as [<-|_]; [|reflexivity].
  unfold dict_mem in Hm. now destruct (dict_get ad k).
Qed.

Lemma ingest_row_spec (c : columns) (ad ad' : dict album_entry)
  (row : list string) :
  ingest_row c ad row = inr ad' ->
  (forall k, In k (dict_keys ad')
             <-> In k (dict_keys ad) \/ exists r, row_accepts c row k r)
  /\ (forall k e r, In (e, r) (tuples_of ad' k)
                    <-> In (e, r) (tuples_of ad k) \/ row_gives c row k e r).
Proof.
  unfold ingest_row. destruct row as [|x row].
  - intros [= <-]. split.
    + intros k. split; [now left|].
      intros [H|(r & ic & rc & Hi & _)]; [assumption|].
      now destruct (id_idx c).
    + intros k e r. split; [now left|].
      intros [H|((ic & rc & Hi & _) & _)]; [assumption|].
      now destruct (id_idx c).
  - destruct (nth_error (x :: row) (id_idx c)) as [ic|] eqn:Hi; [|discriminate].
    destruct (nth_error (x :: row) (role_idx c)) as [rc|] eqn:Hr; [|discriminate].
    cbv zeta.
    destruct (negb (truthy (strip ic)) || negb (truthy (lower (strip rc)))) eqn:Hg.
    + intros [= <-].
      assert (Hno : forall k r, ~ row_accepts c (x :: row) k r).
      { intros k r (ic' & rc' & Hi' & Hr' & -> & -> & Tk & Tr).
        rewrite Hi in Hi'. rewrite Hr in Hr'.
        injection Hi' as <-. injection Hr' as <-.
        rewrite Tk, Tr in Hg. discriminate. }
      split.
      * intros k. split; [now left|]. intros [H|(r & H)]; [assumption|].
        now apply Hno in H.
      * intros k e r. split; [now left|]. intros [H|(H & _)]; [assumption|].
        now apply Hno in H.
    + apply orb_false_iff in Hg. destruct Hg as (Tk & Tr).
      apply negb_false_iff in Tk, Tr.
      set (k0 := strip ic) in *. set (r0 := lower (strip rc)) in *.
      set (ad1 := if dict_mem k0 ad then ad
                  else dict_set ad k0 {| users := []; role := r0 |}).
      intros [= <-].
      assert (Hacc : row_accepts c (x :: row) k0 r0).
      { exists ic, rc. auto 10. }
      assert (Hacc' : forall k r, row_accepts c (x :: row) k r -> k = k0 /\ r = r0).
      { intros k r (ic' & rc' & Hi' & Hr' & -> & -> & _).
        rewrite Hi in Hi'. rewrite Hr in Hr'.
        injection Hi' as <-. injection Hr' as <-. now split. }
      assert (Hk1 : forall k, In k (dict_keys ad1) <-> In k (dict_keys ad) \/ k = k0).
      { intros k. unfold ad1. destruct (dict_mem k0 ad) eqn:Hm.
        - apply dict_mem_In in Hm. split; [now left|].
          intros [H| ->]; assumption.
        - rewrite dict_keys_set, Hm, in_app_iff. simpl. intuition. }
      assert (Ht1 : forall k, tuples_of ad1 k = tuples_of ad k).
      { intros k. unfold ad1. destruct (dict_mem k0 ad) eqn:Hm; [reflexivity|].
        now apply tuples_of_fresh. }
      split.
      * intros k. rewrite add_users_keys, Hk1. split.
        -- intros [H| ->]; [now left|]. right. now exists r0.
        -- intros [H|(r & H)]; [now left|]. right. now apply Hacc' in H.
      * intros k e r. rewrite In_tuples_add_cells by (apply Hk1; now right).
        rewrite Ht1. split.
        -- intros [H|(-> & i & cell & Hin & Hn & [= -> ->] & Ht)]; [now left|].
           right. split; [exact Hacc|]. now exists i, cell.
        -- intros [H|(Ha & i & cell & Hin & Hn & -> & Ht)]; [now left|].
           destruct (Hacc' _ _ Ha) as (-> & ->). right.
           split; [reflexivity|]. now exists i, cell.
Qed.

Lemma ingest_rows_spec (c : columns) (rows : list (list string)) :
  forall ad ad' : dict album_entry,
    ingest_rows c ad rows = inr ad' ->
    (forall k, In k (dict_keys ad')
               <-> In k (dict_keys ad)
                   \/ exists row r, In row rows /\ row_accepts c row k r)
    /\ (forall k e r, In (e, r) (tuples_of ad' k)
                      <-> In (e, r) (tuples_of ad k)
                          \/ exists row, In row rows /\ row_gives c row k e r).
Proof.
  induction rows as [|row rows IH]; intros ad ad'; simpl.
  - intros [= <-]. split.
    + intros k. split; [now left|]. now intros [H|(? & ? & [] & _)].
    + intros k e r. split; [now left|]. now intros [H|(? & [] & _)].
  - destruct (ingest_row c ad row) as [ex|ad1] eqn:Hrow; [discriminate|].
    intros Hrest. destruct (ingest_row_spec _ _ _ _ Hrow) as (K1 & T1).
    destruct (IH _ _ Hrest) as (K2 & T2). split.
    + intros k. rewrite K2, K1. split.
      * intros [[H|(r & H)]|(rw & r & Hin & H)]; [now left| |].
        -- right. exists row, r. auto.
        -- right. exists rw, r. auto.
      * intros [H|(rw & r & [<-|Hin] & H)]; [now left; left| |].
        -- left; right. now exists r.
        -- right. now exists rw, r.
    + intros k e r. rewrite T2, T1. split.
      * intros [[H|H]|(rw & Hin & H)]; [now left| |].
        -- right. exists row. auto.
        -- right. exists rw. auto.
      * intros [H|(rw & [<-|Hin] & H)]; [now left; left| |].
        -- left; now right.
        -- right. now exists rw.
Qed.

(** What the reader has stored once all rows are read. *)
Lemma ingested_spec (c : columns) (rows : list (list string))
  (ad : dict album_entry) :
  ingest_rows c [] rows = inr ad ->
  NoDup (dict_keys ad)
  /\ (forall k, In k (dict_keys ad)
                <-> exists row r, In row rows /\ row_accepts c row k r)
  /\ (forall k e r, In (e, r) (tuples_of ad k)
                    <-> exists row, In row rows /\ row_gives c row k e r).
Proof.
  intros H. destruct (ingest_rows_spec c rows [] ad H) as (K & T).
  split; [eapply ingest_rows_keys_nodup; [|exact H]; constructor|]. split.
  - intros k. rewrite K. simpl. tauto.
  - intros k e r. rewrite T.
    change (tuples_of [] k) with (@nil (string * string)). simpl. tauto.
Qed.

Lemma In_album_data_tuples (ad : dict album_entry) (k : string)
  (d : album_entry) :
  NoDup (dict_keys ad) -> In (k, d) ad -> tuples_of ad k = users d.
Proof.
  intros Hn Hin. unfold tuples_of. now rewrite (dict_get_of_In ad k d Hn Hin).
Qed.


(** ** What the current-users mapping holds *)

Lemma current_fold_get (l : list album_user_json) :
  forall (d : dict string) (e : string),
    dict_get (fold_left current_step l d) e
    = match role_in l e with Some r => Some r | None => dict_get d e end.
Proof.
  induction l as [|ui l IH]; intros d e; cbn [fold_left role_in]; [reflexivity|].
  rewrite IH. destruct (role_in l e); [reflexivity|].
  unfold current_step, visible. cbv zeta.
  destruct (truthy (lower (entry_email ui)) && truthy (get_or "" (au_role ui)));
    simpl; [|reflexivity].
  rewrite dict_get_set. now destruct (String.eqb (lower (entry_email ui)) e).
Qed.

Lemma current_users_get (a : album_json) (e : string) :
  dict_get (current_users_of (Some a)) e = role_in (album_entries a) e.
Proof.
  unfold current_users_of. rewrite current_fold_get. simpl.
  now destruct (role_in (album_entries a) e).
Qed.

Lemma role_in_Some (l : list album_user_json) (e r : string) :
  role_in l e = Some r ->
  exists ui, In ui l /\ visible ui = true /\ lower (entry_email ui) = e
             /\ get_or "" (au_role ui) = r.
Proof.
  induction l as [|ui l IH]; simpl; [discriminate|].
  destruct (role_in l e) as [r'|].
  - intros [= ->]. destruct (IH eq_refl) as (uj & Hin & H). exists uj. auto.
  - destruct (visible ui) eqn:Hv; simpl; [|discriminate].
    destruct (String.eqb_spec (lower (entry_email ui)) e) as [He|_];
      [|discriminate].
    intros [= <-]. exists ui. auto.
Qed.

Lemma role_in_None (l : list album_user_json) (e : string) :
  role_in l e = None ->
  forall ui, In ui l -> visible ui = true -> lower (entry_email ui) <> e.
Proof.
  induction l as [|uj l IH]; simpl; [contradiction|].
  destruct (role_in l e) as [r'|]; [discriminate|].
  intros H ui [->|Hin] Hv He.
  - rewrite Hv in H. simpl in H. apply String.eqb_eq in He.
    rewrite He in H. discriminate.
  - now apply (IH eq_refl ui).
Qed.

Lemma visible_role (ui : album_user_json) :
  visible ui = true ->
  au_role ui = Some (get_or "" (au_role ui))
  /\ truthy (get_or "" (au_role ui)) = true
  /\ truthy (lower (entry_email ui)) = true.
Proof.
  unfold visible. rewrite andb_true_iff. intros (He & Hr).
  destruct (au_role ui); simpl in *; [auto|discriminate].
Qed.

Lemma truthy_lower (s : string) : truthy (lower s) = truthy s.
Proof. now destruct s. Qed.

(** ** Passes that send nothing *)

Section Idle.

Context {W : Type} (api : API W).
Variables (dir : dict string) (k : string).

Lemma remove_loop_idle (l : list string) (s : state W) :
  (forall e, In e l -> dict_get dir e = None) ->
  fold_left (remove_step api dir k) l s = s.
Proof.
  revert s. induction l as [|e l IH]; intros s H; cbn [fold_left]; [reflexivity|].
  assert (Hs : remove_step api dir k s e = s).
  { unfold remove_step. now rewrite (H e (or_introl eq_refl)). }
  rewrite Hs. apply IH. intros e' Hin. apply H. now right.
Qed.

Lemma share_loop_idle (cur : dict string) (l : list (string * string))
  (s : state W) :
  (forall e r, In (e, r) l ->
               dict_get dir e = None
               \/ role_differs (dict_get cur e) r = false) ->
  world (fold_left (share_step api dir k cur) l s) = world s
  /\ calls (fold_left (share_step api dir k cur) l s) = calls s.
Proof.
  revert s. induction l as [|[e r] l IH]; intros s H; cbn [fold_left]; [auto|].
  assert (Hs : world (share_step api dir k cur s (e, r)) = world s
               /\ calls (share_step api dir k cur s (e, r)) = calls s).
  { unfold share_step. destruct (H e r (or_introl eq_refl)) as [Hd|Hr].
    - rewrite Hd. auto.
    - destruct (dict_get dir e) as [uid|]; [|auto].
      destruct (truthy uid); [|auto]. rewrite Hr. auto. }
  destruct Hs as (Hw & Hc).
  destruct (IH (share_step api dir k cur s (e, r))) as (Hw' & Hc').
  { intros e' r' Hin. apply H. now right. }
  rewrite Hw', Hc'. auto.
Qed.

End Idle.

Lemma model_fetched_users (k : string) (s : server) :
  fetched_users model_api k s = current_users_of (find_album k (srv_albums s)).
Proof. reflexivity. Qed.

Lemma model_fetched_world (k : string) (s : server) :
  fetched_world model_api k s = s.
Proof. reflexivity. Qed.

Lemma settled_pass (ord : SetOrder) (dir : dict string) (st0 : state server)
  (k : string) (d : album_entry) :
  settled dir (world st0) k d ->
  world (process_album model_api ord dir st0 (k, d)) = world st0
  /\ calls (process_album model_api ord dir st0 (k, d)) = calls st0.
Proof.
  intros (Hrm & Hsh). rewrite process_album_unfold.
  rewrite model_fetched_users, model_fetched_world.
  set (cur := current_users_of (find_album k (srv_albums (world st0)))) in *.
  rewrite remove_loop_idle.
  - destruct (share_loop_idle model_api dir k cur (iter_pairs ord (users d))
                {| world := world st0; calls := calls st0;
                   st := count_album (st st0) |}) as (Hw & Hc); [|auto].
    intros e r Hin. apply In_iter_pairs in Hin.
    destruct (dict_get dir e) as [uid|] eqn:Hd; [right|now left].
    rewrite (Hsh e r uid Hin Hd). simpl. now rewrite String.eqb_refl.
  - intros e Hin. apply In_iter_emails, In_users_to_remove in Hin.
    destruct Hin as (Hk & Hn). rewrite In_desired_users in Hn.
    destruct (Hrm e Hk) as [H|H]; [contradiction|exact H].
Qed.

Lemma settled_run (ord : SetOrder) (dir : dict string)
  (ad : dict album_entry) :
  forall st0 : state server,
    (forall k d, In (k, d) ad -> settled dir (world st0) k d) ->
    world (process_all model_api ord dir ad st0) = world st0
    /\ calls (process_all model_api ord dir ad st0) = calls st0.
Proof.
  unfold process_all.
  induction ad as [|[k d] ad IH]; intros st0 H; cbn [fold_left]; [auto|].
  destruct (settled_pass ord dir st0 k d) as (Hw & Hc);
    [apply H; now left|].
  destruct (IH (process_album model_api ord dir st0 (k, d))) as (Hw' & Hc').
  { intros k' d' Hin. rewrite Hw. apply H. now right. }
  rewrite Hw', Hc'. auto.
Qed.


(** ** Reading an exported table back *)


Lemma album_rows_spec (a : album_json) :
  album_rows a
  = match album_entries a with
    | [] => [ {| p_name := get_or "" (a_albumName a);
                 p_id := get_or "" (a_id a);
                 p_role := ""; p_users := [] |} ]
    | _ :: _ =>
        map (fun r => {| p_name := get_or "" (a_albumName a);
                         p_id := get_or "" (a_id a);
                         p_role := r;
                         p_users := users_with_role r (album_entries a) |})
          (roles_in_order (album_entries a))
    end.
Proof.
  unfold album_rows, album_entries.
  destruct (get_or [] (a_albumUsers a)) as [|ui l]; [reflexivity|].
  rewrite group_by_role_grouped. unfold grouped. now rewrite map_map.
Qed.

Lemma In_users_with_role (r : string) (l : list album_user_json) (E : string) :
  In E (users_with_role r l)
  <-> exists ui, In ui l /\ entry_role ui = r /\ exported_email ui = E
                 /\ truthy E = true.
Proof.
  unfold users_with_role. rewrite filter_In, in_map_iff. split.
  - intros ((ui & He & Hin) & Ht). apply filter_In in Hin.
    destruct Hin as (Hin & Hr). apply String.eqb_eq in Hr. exists ui. auto.
  - intros (ui & Hin & Hr & He & Ht). split; [|exact Ht].
    exists ui. split; [exact He|]. apply filter_In. split; [exact Hin|].
    now apply String.eqb_eq.
Qed.

Lemma csv_row_user (m : nat) (p : processed) (n : nat) :
  nth_error (csv_row m p) (3 + n)
  = nth_error (p_users p ++ repeat "" (m - List.length (p_users p))) n.
Proof. reflexivity. Qed.

(* A tuple read back from an exported row comes from a share entry. *)
Lemma exported_row_gives (albums : list album_json) (row : list string)
  (k e r : string) :
  In row (map (csv_row (max_users (processed_albums albums)))
            (processed_albums albums)) ->
  row_gives (export_columns (max_users (processed_albums albums))) row k e r ->
  exists a ui,
    In a albums /\ In ui (album_entries a)
    /\ k = strip (get_or "" (a_id a))
    /\ r = lower (strip (entry_role ui))
    /\ e = lower (strip (exported_email ui))
    /\ truthy (exported_email ui) = true.
Proof.
  set (m := max_users (processed_albums albums)).
  intros Hrow ((ic & rc & Hi & Hr & -> & -> & Tk & Tr)
               & i & cell & Hin & Hn & -> & Te).
  apply in_map_iff in Hrow. destruct Hrow as (p & <- & Hp).
  simpl in Hi, Hr. injection Hi as <-. injection Hr as <-.
  unfold processed_albums in Hp. apply in_flat_map in Hp.
  destruct Hp as (a & Ha & Hp). rewrite album_rows_spec in Hp.
  simpl in Hin. apply in_seq in Hin.
  replace i with (3 + (i - 3)) in Hn by lia. rewrite csv_row_user in Hn.
  apply nth_error_In, in_app_or in Hn.
  destruct (album_entries a) as [|u0 l0] eqn:Hl.
  - destruct Hp as [<-|[]]. simpl in Tr. discriminate.
  - apply in_map_iff in Hp. destruct Hp as (R & <- & HR). simpl in *.
    destruct Hn as [Hn|Hn].
    + apply In_users_with_role in Hn.
      destruct Hn as (ui & Hui & Hrole & Hem & Ht).
      exists a, ui. rewrite Hl. subst. auto 10.
    + apply repeat_spec in Hn. subst cell. discriminate.
Qed.

Lemma exported_row_accepts (albums : list album_json) (row : list string)
  (k r : string) :
  In row (map (csv_row (max_users (processed_albums albums)))
            (processed_albums albums)) ->
  row_accepts (export_columns (max_users (processed_albums albums))) row k r ->
  exists a, In a albums /\ k = strip (get_or "" (a_id a)).
Proof.
  intros Hrow (ic & rc & Hi & Hr & -> & -> & Tk & Tr).
  apply in_map_iff in Hrow. destruct Hrow as (p & <- & Hp).
  simpl in Hi. injection Hi as <-.
  unfold processed_albums in Hp. apply in_flat_map in Hp.
  destruct Hp as (a & Ha & Hp). rewrite album_rows_spec in Hp.
  exists a. split; [exact Ha|].
  destruct (album_entries a) as [|u0 l0].
  - now destruct Hp as [<-|[]].
  - apply in_map_iff in Hp. now destruct Hp as (R & <- & HR).
Qed.

(* Every share entry with usable id, role and email is read back. *)
Lemma share_entry_is_read_back (albums : list album_json) (a : album_json)
  (ui : album_user_json) :
  In a albums -> In ui (album_entries a) ->
  truthy (strip (get_or "" (a_id a))) = true ->
  truthy (lower (strip (entry_role ui))) = true ->
  truthy (lower (strip (exported_email ui))) = true ->
  exists row,
    In row (map (csv_row (max_users (processed_albums albums)))
              (processed_albums albums))
    /\ row_gives (export_columns (max_users (processed_albums albums))) row
         (strip (get_or "" (a_id a)))
         (lower (strip (exported_email ui)))
         (lower (strip (entry_role ui))).
Proof.
  set (m := max_users (processed_albums albums)).
  intros Ha Hui Tk Tr Te.
  set (p := {| p_name := get_or "" (a_albumName a);
               p_id := get_or "" (a_id a);
               p_role := entry_role ui;
               p_users := users_with_role (entry_role ui) (album_entries a) |}).
  assert (Hp : In p (processed_albums albums)).
  { unfold processed_albums. apply in_flat_map. exists a. split; [exact Ha|].
    rewrite album_rows_spec. destruct (album_entries a) as [|u0 l0] eqn:Hl;
      [contradiction|].
    apply in_map_iff. exists (entry_role ui). split; [reflexivity|].
    apply In_roles_in_order. now exists ui. }
  assert (Tem : truthy (exported_email ui) = true).
  { destruct (exported_email ui); [discriminate Te|reflexivity]. }
  assert (Hcell : In (exported_email ui) (p_users p)).
  { simpl. apply In_users_with_role. exists ui. auto. }
  apply In_nth_error in Hcell. destruct Hcell as (n & Hn).
  assert (Hlen : n < List.length (p_users p)).
  { apply nth_error_Some. congruence. }
  pose proof (max_users_ge _ _ Hp) as Hmax. fold m in Hmax.
  exists (csv_row m p). split; [apply in_map; exact Hp|]. split.
  - exists (p_id p), (p_role p). simpl. auto 10.
  - exists (3 + n), (exported_email ui). split; [|split; [|auto]].
    + apply in_seq. lia.
    + rewrite csv_row_user. rewrite nth_error_app1 by exact Hlen. exact Hn.
Qed.


(** ** The round trip *)

Lemma find_album_unique (albums : list album_json) (a : album_json)
  (k : string) :
  unique_album_ids albums -> In a albums -> a_id a = Some k ->
  find_album k albums = Some a.
Proof.
  intros Hu Ha Hk. unfold find_album.
  destruct (find (has_id k) albums) as [a'|] eqn:Hf.
  - apply find_some in Hf. destruct Hf as (Ha' & Hid). unfold has_id in Hid.
    destruct (a_id a') as [i|] eqn:Hi; [|discriminate].
    apply String.eqb_eq in Hid. subst i. f_equal. now apply (Hu a' a k).
  - exfalso. apply (find_none _ _ Hf) in Ha. unfold has_id in Ha.
    rewrite Hk, String.eqb_refl in Ha. discriminate.
Qed.

Lemma truthy_id (a : album_json) :
  truthy (get_or "" (a_id a)) = true -> a_id a = Some (get_or "" (a_id a)).
Proof. destruct (a_id a); simpl; [reflexivity|discriminate]. Qed.

(* On a normalised server, what is read back from the export asks for
   nothing. *)
Lemma round_trip_settled (s : server) (dir : dict string)
  (ad : dict album_entry) :
  normalised_server s ->
  ingest_rows (export_columns (max_users (processed_albums (srv_albums s)))) []
    (map (csv_row (max_users (processed_albums (srv_albums s))))
       (processed_albums (srv_albums s))) = inr ad ->
  forall k d, In (k, d) ad -> settled dir s k d.
Proof.
  intros (Hnorm & Huniq) Hi k d Hin.
  rewrite Forall_forall in Hnorm.
  destruct (ingested_spec _ _ _ Hi) as (Hn & K & T).
  pose proof (In_album_data_tuples ad k d Hn Hin) as Htup.
  assert (Hk : In k (dict_keys ad)).
  { apply in_map_iff. now exists (k, d). }
  apply K in Hk. destruct Hk as (row & r0 & Hrow & Hacc).
  assert (Tk : truthy k = true).
  { destruct Hacc as (? & ? & _ & _ & _ & _ & H & _). exact H. }
  destruct (exported_row_accepts _ _ _ _ Hrow Hacc) as (a & Ha & Hka).
  destruct (Hnorm a Ha) as (Hid & Hent & Hone).
  rewrite Hid in Hka. rewrite Forall_forall in Hent.
  assert (Haid : a_id a = Some k).
  { rewrite Hka. apply truthy_id. now rewrite <- Hka. }
  assert (Hsame : forall a', In a' (srv_albums s) ->
                             k = strip (get_or "" (a_id a')) -> a' = a).
  { intros a' Ha' Hk'. destruct (Hnorm a' Ha') as (Hid' & _).
    rewrite Hid' in Hk'. apply (Huniq a' a k); try assumption.
    rewrite Hk'. apply truthy_id. now rewrite <- Hk'. }
  unfold settled. rewrite (find_album_unique _ a k Huniq Ha Haid).
  split.
  - intros e He. left.
    destruct (dict_get (current_users_of (Some a)) e) as [r'|] eqn:Hg.
    2:{ apply dict_get_None in Hg. contradiction. }
    rewrite current_users_get in Hg.
    destruct (role_in_Some _ _ _ Hg) as (ui & Hui & Hv & Hem & Hr).
    destruct (visible_role ui Hv) as (Hsome & Tr & Te).
    destruct (Hent ui Hui) as ((R & HR & HRn) & HE).
    assert (R = r') by congruence. subst R.
    assert (Her : entry_role ui = r').
    { unfold entry_role. now rewrite HR. }
    destruct (share_entry_is_read_back (srv_albums s) a ui Ha Hui) as (rw & Hrw & Hg').
    + rewrite Hid, <- Hka. exact Tk.
    + rewrite Her, HRn. congruence.
    + change (exported_email ui) with (entry_email ui). now rewrite HE.
    + rewrite Hid, <- Hka, Her, HRn in Hg'.
      change (exported_email ui) with (entry_email ui) in Hg'.
      rewrite HE, Hem in Hg'.
      apply in_map_iff. exists (e, r'). split; [reflexivity|].
      rewrite <- Htup. apply T. now exists rw.
  - intros e r uid Hu Hd. rewrite <- Htup in Hu. apply T in Hu.
    destruct Hu as (rw & Hrw & Hg).
    assert (Tr : truthy r = true /\ truthy e = true).
    { destruct Hg as ((? & ? & _ & _ & _ & _ & _ & H) & ? & ? & _ & _ & _ & H').
      auto. }
    destruct Tr as (Tr & Te).
    destruct (exported_row_gives _ _ _ _ _ Hrw Hg)
      as (a' & ui & Ha' & Hui & Hk' & Hr & He & Tem).
    pose proof (Hsame a' Ha' Hk'). subst a'.
    destruct (Hent ui Hui) as ((R & HR & HRn) & HE).
    assert (Her : entry_role ui = R).
    { unfold entry_role. now rewrite HR. }
    rewrite Her, HRn in Hr. subst R.
    change (exported_email ui) with (entry_email ui) in He.
    rewrite HE in He.
    assert (Hv : visible ui = true).
    { unfold visible. rewrite HR, <- He. simpl. now rewrite Te, Tr. }
    rewrite current_users_get.
    destruct (role_in (album_entries a) e) as [r''|] eqn:Hg''.
    + destruct (role_in_Some _ _ _ Hg'') as (uj & Huj & Hvj & Hej & Hrj).
      assert (Heq : au_role ui = au_role uj).
      { apply Hone; try assumption. congruence. }
      rewrite <- Heq, HR in Hrj. simpl in Hrj. congruence.
    + exfalso. apply (role_in_None _ _ Hg'' ui Hui Hv). now symmetry.
Qed.

Lemma demo_server_normalised : normalised_server demo_server.
Proof.
  split.
  - repeat constructor; try (eexists; split; reflexivity).
    + intros ui uj Hi Hj _ _ He. simpl in Hi, Hj.
      destruct Hi as [<-|[<-|[<-|[]]]], Hj as [<-|[<-|[<-|[]]]];
        try reflexivity; discriminate He.
    + intros ui uj [].
  - intros a a' k Ha Ha' Hk Hk'. simpl in Ha, Ha'.
    destruct Ha as [<-|[<-|[]]], Ha' as [<-|[<-|[]]];
      try reflexivity; simpl in Hk, Hk'; congruence.
Qed.

(** C2 (amended): on a server state whose album ids are distinct and carry
    no surrounding white space, whose share entries all have a role that is
    already trimmed and lower-case and an email without surrounding white
    space, and in which no user holds two different roles in one album,
    exporting the state, reading the export back as desired state and
    reconciling against the unchanged state issues no share/update and no
    removal request. *)
Theorem round_trip_is_quiet (ord : SetOrder) (s : server) :
  normalised_server s -> issued (round_trip ord s) = [].
Proof.
  intros Hnorm. unfold round_trip, process_albums_to_csv. simpl.
  destruct (srv_albums s) as [|a0 albums] eqn:Hal; [reflexivity|].
  rewrite <- Hal. unfold process_share_albums, open_csv, get_users. simpl.
  rewrite length_map, length_seq, Nat.sub_0_r.
  fold (export_columns (max_users (processed_albums (srv_albums s)))).
  destruct (ingest_rows _ [] _) as [ex|ad] eqn:Hi; [reflexivity|].
  simpl.
  destruct (settled_run ord (build_email_to_id (srv_users s)) ad
              {| world := s; calls := []; st := stats0 |}) as (_ & Hc).
  - intros k d Hin. simpl. now apply (round_trip_settled s _ ad Hnorm Hi).
  - exact Hc.
Qed.

Lemma round_trip_is_quiet_witness :
  issued (round_trip reversed_order demo_server) = [].
Proof.
  apply (round_trip_is_quiet reversed_order demo_server).
  exact demo_server_normalised.
Defined.

(** C2 (as stated) fails: a server on which alice holds the role "Editor"
    is exported with that spelling, read back as "editor", and the
    reconciliation then sends a share/update request. *)
Lemma round_trip_counterexample :
  issued (round_trip insertion_order cased_server)
  = [EvShare "A1" "alice@x.com" "u1" "editor" true]
  /\ issued (round_trip insertion_order cased_server) <> [].
Proof. split; [reflexivity|discriminate]. Qed.


(** ** The server model *)

Lemma has_id_with_entries (k : string)
  (f : list album_user_json -> list album_user_json) (a : album_json) :
  has_id k (with_entries f a) = has_id k a.
Proof. reflexivity. Qed.

Lemma find_album_update_same (k : string)
  (f : list album_user_json -> list album_user_json)
  (albums : list album_json) :
  find_album k (update_album k f albums)
  = option_map (with_entries f) (find_album k albums).
Proof.
  unfold find_album, update_album.
  induction albums as [|a albums IH]; simpl; [reflexivity|].
  destruct (has_id k a) eqn:Ha.
  - now rewrite has_id_with_entries, Ha.
  - now rewrite Ha.
Qed.

Lemma find_album_update_other (k k' : string)
  (f : list album_user_json -> list album_user_json)
  (albums : list album_json) :
  k <> k' ->
  find_album k' (update_album k f albums) = find_album k' albums.
Proof.
  intros Hne. unfold find_album, update_album.
  induction albums as [|a albums IH]; simpl; [reflexivity|].
  destruct (has_id k a) eqn:Ha.
  - rewrite has_id_with_entries.
    assert (Hk' : has_id k' a = false).
    { unfold has_id in *. destruct (a_id a) as [i|]; [|reflexivity].
      apply String.eqb_eq in Ha. subst i. now apply String.eqb_neq. }
    now rewrite Hk'.
  - now rewrite IH.
Qed.

Lemma role_in_snoc (l : list album_user_json) (x : album_user_json)
  (e : string) :
  role_in (l ++ [x]) e
  = if visible x && String.eqb (lower (entry_email x)) e
    then Some (get_or "" (au_role x)) else role_in l e.
Proof.
  induction l as [|ui l IH]; simpl.
  - now destruct (visible x && String.eqb (lower (entry_email x)) e).
  - rewrite IH.
    destruct (visible x && String.eqb (lower (entry_email x)) e);
      [reflexivity|].
    reflexivity.
Qed.

Section Entries.

Variables (uid e r : string).
Hypothesis e_truthy : truthy e = true.
Hypothesis r_truthy : truthy r = true.

Lemma role_in_drop (l : list album_user_json) (e' : string) :
  Forall (owned_by uid e) l ->
  role_in (drop_entry uid l) e'
  = if String.eqb e e' then None else role_in l e'.
Proof.
  unfold drop_entry. induction 1 as [|ui l Hui Hl IH]; simpl.
  - now destruct (String.eqb e e').
  - unfold owned_by in Hui. rewrite Hui.
    destruct (String.eqb_spec (lower (entry_email ui)) e) as [He|He]; simpl.
    + rewrite IH. destruct (String.eqb_spec e e') as [Heq|Hne]; [reflexivity|].
      rewrite He. apply String.eqb_neq in Hne. rewrite Hne, andb_false_r.
      now destruct (role_in l e').
    + rewrite IH. destruct (String.eqb_spec e e') as [<-|Hne].
      * apply String.eqb_neq in He. now rewrite He, andb_false_r.
      * reflexivity.
Qed.

Lemma role_in_set_role (l : list album_user_json) (e' : string) :
  Forall (owned_by uid e) l ->
  role_in (map (set_role uid r) l) e'
  = if String.eqb e e'
    then (if existsb (entry_has_user uid) l then Some r else None)
    else role_in l e'.
Proof.
  induction 1 as [|ui l Hui Hl IH]; simpl.
  - now destruct (String.eqb e e').
  - rewrite IH. unfold owned_by in Hui. unfold set_role. rewrite Hui.
    destruct (String.eqb_spec (lower (entry_email ui)) e) as [He|He]; simpl.
    + unfold visible, entry_email in *. simpl. rewrite He, e_truthy, r_truthy.
      simpl. destruct (String.eqb e e').
      * now destruct (existsb (entry_has_user uid) l).
      * rewrite ?andb_false_r. now destruct (role_in l e').
    + destruct (String.eqb_spec e e') as [<-|Hne]; [|reflexivity].
      apply String.eqb_neq in He. rewrite He, andb_false_r.
      now destruct (existsb (entry_has_user uid) l).
Qed.

Lemma role_in_upsert (u : user_json) (l : list album_user_json) (e' : string) :
  Forall (owned_by uid e) l ->
  lower (user_email u) = e ->
  role_in (upsert_entry u uid r l) e'
  = if String.eqb e e' then Some r else role_in l e'.
Proof.
  intros Hl Hu. unfold upsert_entry.
  destruct (existsb (entry_has_user uid) l) eqn:Hex.
  - now rewrite role_in_set_role, Hex.
  - rewrite role_in_snoc. unfold visible, entry_email. simpl.
    fold (user_email u). now rewrite Hu, e_truthy, r_truthy.
Qed.

End Entries.

Lemma build_email_to_id_snoc (us : list user_json) (u : user_json) :
  build_email_to_id (us ++ [u]) = directory_step (build_email_to_id us) u.
Proof. unfold build_email_to_id. now rewrite fold_left_app. Qed.

(* An entry of the directory comes from a listed user. *)
Lemma directory_entry (us : list user_json) (e uid : string) :
  dict_get (build_email_to_id us) e = Some uid ->
  exists u, In u us /\ lower (user_email u) = e /\ user_id u = uid
            /\ truthy (user_email u) = true.
Proof.
  induction us as [|u us IH] using rev_ind; [discriminate|].
  rewrite build_email_to_id_snoc. unfold directory_step.
  assert (Hold : dict_get (build_email_to_id us) e = Some uid ->
                 exists u0, In u0 (us ++ [u]) /\ lower (user_email u0) = e
                            /\ user_id u0 = uid /\ truthy (user_email u0) = true).
  { intros H. destruct (IH H) as (u0 & Hin & Hrest). exists u0.
    split; [apply in_or_app; now left|exact Hrest]. }
  destruct (u_email u) as [em|] eqn:Hem; [|exact Hold].
  destruct (u_id u) as [i|] eqn:Hi; [|exact Hold].
  destruct (truthy em && truthy i) eqn:Ht; [|exact Hold].
  rewrite dict_get_set.
  destruct (String.eqb_spec (lower em) e) as [He|_]; [|exact Hold].
  intros [= <-]. exists u. unfold user_email, user_id. rewrite Hem, Hi. simpl.
  apply andb_true_iff in Ht. split; [apply in_or_app; right; now left|].
  tauto.
Qed.

Lemma directory_key_truthy (us : list user_json) (e uid : string) :
  dict_get (build_email_to_id us) e = Some uid -> truthy e = true.
Proof.
  intros H. destruct (directory_entry us e uid H) as (u & _ & <- & _ & Ht).
  now rewrite truthy_lower.
Qed.

Lemma owned_entries (us : list user_json) (l : list album_user_json)
  (e uid : string) :
  consistent_users us -> consistent_entries us l ->
  dict_get (build_email_to_id us) e = Some uid ->
  Forall (owned_by uid e) l.
Proof.
  intros (Hlist & Hcons) Hl Hd. rewrite Forall_forall in Hlist.
  destruct (directory_entry us e uid Hd) as (u0 & Hu0 & He0 & Hi0 & _).
  unfold consistent_entries in Hl. rewrite Forall_forall in Hl |- *.
  intros ui Hui. destruct (Hl ui Hui) as (u' & Hau & Hu').
  destruct (Hlist u' Hu') as (_ & Hid & _).
  unfold owned_by, entry_has_user, entry_email, user_has_id.
  rewrite Hau, Hid. simpl. fold (user_email u').
  pose proof (Hcons u' u0 Hu' Hu0) as Hiff. rewrite He0, Hi0 in Hiff.
  destruct (String.eqb_spec (user_id u') uid) as [H1|H1];
    destruct (String.eqb_spec (lower (user_email u')) e) as [H2|H2];
    try reflexivity; tauto.
Qed.

Lemma found_user (us : list user_json) (u : user_json) (e uid : string) :
  consistent_users us ->
  dict_get (build_email_to_id us) e = Some uid ->
  find (user_has_id uid) us = Some u ->
  In u us /\ lower (user_email u) = e.
Proof.
  intros (Hlist & Hcons) Hd Hf. rewrite Forall_forall in Hlist.
  apply find_some in Hf. destruct Hf as (Hu & Hid). split; [exact Hu|].
  destruct (directory_entry us e uid Hd) as (u0 & Hu0 & He0 & Hi0 & _).
  destruct (Hlist u Hu) as (_ & Hsome & _).
  unfold user_has_id in Hid. rewrite Hsome in Hid. apply String.eqb_eq in Hid.
  rewrite <- He0. apply (Hcons u u0 Hu Hu0). congruence.
Qed.

Lemma find_album_In (k : string) (albums : list album_json) (a : album_json) :
  find_album k albums = Some a -> In a albums.
Proof. intros H. now apply find_some in H. Qed.

Lemma role_on_found (s : server) (k : string) (a : album_json) (e' : string) :
  find_album k (srv_albums s) = Some a ->
  role_on s k e' = role_in (album_entries a) e'.
Proof. intros H. unfold role_on. rewrite H. apply current_users_get. Qed.

Lemma role_on_update (s : server) (k : string)
  (f : list album_user_json -> list album_user_json) (a : album_json)
  (e' : string) :
  find_album k (srv_albums s) = Some a ->
  role_on {| srv_users := srv_users s;
             srv_albums := update_album k f (srv_albums s) |} k e'
  = role_in (f (album_entries a)) e'.
Proof.
  intros H. unfold role_on. cbn [srv_albums].
  rewrite find_album_update_same, H. cbn [option_map].
  now rewrite current_users_get.
Qed.

Lemma consistent_update (s : server) (k : string)
  (f : list album_user_json -> list album_user_json) :
  consistent_server s ->
  (forall l, consistent_entries (srv_users s) l ->
             consistent_entries (srv_users s) (f l)) ->
  consistent_server {| srv_users := srv_users s;
                       srv_albums := update_album k f (srv_albums s) |}.
Proof.
  intros (Hu & Ha) Hf. split; [exact Hu|]. cbn [srv_users srv_albums].
  rewrite Forall_forall in Ha |- *. intros a' Hin.
  unfold update_album in Hin. apply in_map_iff in Hin.
  destruct Hin as (a & <- & Hin). destruct (has_id k a).
  - apply Hf. now apply Ha.
  - now apply Ha.
Qed.

Lemma model_remove_effect (s s' : server) (k uid e : string) :
  consistent_server s ->
  dict_get (build_email_to_id (srv_users s)) e = Some uid ->
  model_remove k uid s = (s', true) ->
  consistent_server s' /\ srv_users s' = srv_users s
  /\ (forall e', role_on s' k e'
                 = if String.eqb e e' then None else role_on s k e')
  /\ (forall k', k <> k' ->
                 find_album k' (srv_albums s') = find_album k' (srv_albums s)).
Proof.
  intros Hc Hd. unfold model_remove.
  destruct (find_album k (srv_albums s)) as [a|] eqn:Hf; [|discriminate].
  intros [= <-]. split; [|split; [reflexivity|split]].
  - apply consistent_update; [exact Hc|]. intros l Hl.
    unfold consistent_entries, drop_entry in *. rewrite Forall_forall in Hl |- *.
    intros ui Hui. apply filter_In in Hui. now apply Hl.
  - intros e'. rewrite (role_on_update s k _ a e' Hf), (role_on_found s k a e' Hf).
    apply role_in_drop. destruct Hc as (Hu & Ha). rewrite Forall_forall in Ha.
    eapply owned_entries; [exact Hu| |exact Hd].
    apply Ha. eapply find_album_In; exact Hf.
  - intros k' Hne. cbn [srv_albums]. now apply find_album_update_other.
Qed.

Lemma model_share_effect (s s' : server) (k uid e r : string) :
  consistent_server s ->
  dict_get (build_email_to_id (srv_users s)) e = Some uid ->
  truthy r = true ->
  model_share k uid r s = (s', true) ->
  consistent_server s' /\ srv_users s' = srv_users s
  /\ (forall e', role_on s' k e'
                 = if String.eqb e e' then Some r else role_on s k e')
  /\ (forall k', k <> k' ->
                 find_album k' (srv_albums s') = find_album k' (srv_albums s)).
Proof.
  intros Hc Hd Hr. unfold model_share.
  destruct (find_album k (srv_albums s)) as [a|] eqn:Hf; [|discriminate].
  destruct (find (user_has_id uid) (srv_users s)) as [u|] eqn:Hu; [|discriminate].
  intros [= <-].
  destruct (found_user _ _ _ _ (proj1 Hc) Hd Hu) as (Hin & Hem).
  split; [|split; [reflexivity|split]].
  - apply consistent_update; [exact Hc|]. intros l Hl.
    unfold consistent_entries, upsert_entry in *.
    destruct (existsb (entry_has_user uid) l).
    + rewrite Forall_forall in Hl |- *. intros ui Hui.
      apply in_map_iff in Hui. destruct Hui as (uj & <- & Huj).
      destruct (Hl uj Huj) as (u' & Hau & Hu'). exists u'.
      split; [|exact Hu']. unfold set_role.
      now destruct (entry_has_user uid uj).
    + apply Forall_app. split; [exact Hl|]. constructor; [|constructor].
      exists u. now split.
  - intros e'. rewrite (role_on_update s k _ a e' Hf), (role_on_found s k a e' Hf).
    apply role_in_upsert; try assumption.
    + eapply directory_key_truthy; exact Hd.
    + destruct Hc as (Hus & Ha). rewrite Forall_forall in Ha.
      eapply owned_entries; [exact Hus| |exact Hd].
      apply Ha. eapply find_album_In; exact Hf.
  - intros k' Hne. cbn [srv_albums]. now apply find_album_update_other.
Qed.

(** ** Steps that do send a request *)

Section Steps.

Context {W : Type} (api : API W).
Variables (dir : dict string) (k : string).

Lemma remove_step_resolved (s : state W) (e uid : string) :
  dict_get dir e = Some uid -> truthy uid = true ->
  exists ok,
    api_remove api k uid (world s) = (world (remove_step api dir k s e), ok)
    /\ calls (remove_step api dir k s e) = calls s ++ [EvRemove k e uid ok].
Proof.
  intros Hd Ht. unfold remove_step. rewrite Hd, Ht.
  destruct (api_remove api k uid (world s)) as [w' ok]. now exists ok.
Qed.

Lemma remove_step_unresolved (s : state W) (e : string) :
  dict_get dir e = None -> remove_step api dir k s e = s.
Proof. intros Hd. unfold remove_step. now rewrite Hd. Qed.

Lemma share_step_triggered (cur : dict string) (s : state W)
  (e r uid : string) :
  dict_get dir e = Some uid -> truthy uid = true ->
  role_differs (dict_get cur e) r = true ->
  exists ok,
    api_share api k uid r (world s)
    = (world (share_step api dir k cur s (e, r)), ok)
    /\ calls (share_step api dir k cur s (e, r))
       = calls s ++ [EvShare k e uid r ok].
Proof.
  intros Hd Ht Hr. unfold share_step. rewrite Hd, Ht, Hr.
  destruct (api_share api k uid r (world s)) as [w' ok]. now exists ok.
Qed.

Lemma share_step_matched (cur : dict string) (s : state W)
  (e r uid : string) :
  dict_get dir e = Some uid -> truthy uid = true ->
  role_differs (dict_get cur e) r = false ->
  share_step api dir k cur s (e, r) = s.
Proof. intros Hd Ht Hr. unfold share_step. now rewrite Hd, Ht, Hr. Qed.

Lemma remove_loop_keeps (l : list string) (s : state W) :
  exists new, calls (fold_left (remove_step api dir k) l s) = calls s ++ new.
Proof.
  destruct (remove_loop_trace api dir k l s) as (new & H & _). now exists new.
Qed.

Lemma share_loop_extends (cur : dict string) (l : list (string * string))
  (s : state W) :
  exists new,
    calls (fold_left (share_step api dir k cur) l s) = calls s ++ new.
Proof.
  destruct (share_loop_trace api dir k cur l s) as (new & H & _). now exists new.
Qed.

End Steps.

Lemma all_ok_prefix (l1 l2 : list event) : all_ok (l1 ++ l2) -> all_ok l1.
Proof. unfold all_ok. intros H. now apply Forall_app in H. Qed.

Lemma all_ok_last (l : list event) (ev : event) :
  all_ok (l ++ [ev]) -> ev_ok ev = true.
Proof.
  unfold all_ok. intros H. apply Forall_app in H. destruct H as (_ & H).
  now inversion H.
Qed.

(** ** The loops on the server model *)

Ltac split4 := split; [|split; [|split]].

Section ModelLoops.

Variables (us : list user_json) (k : string).

Lemma remove_loop_model (l : list string) :
  forall st0 : state server,
    consistent_server (world st0) -> srv_users (world st0) = us ->
    all_ok (calls (fold_left (remove_step model_api (build_email_to_id us) k)
                     l st0)) ->
    consistent_server
      (world (fold_left (remove_step model_api (build_email_to_id us) k) l st0))
    /\ srv_users
         (world (fold_left (remove_step model_api (build_email_to_id us) k) l st0))
       = us
    /\ (forall e',
           role_on
             (world (fold_left (remove_step model_api (build_email_to_id us) k)
                       l st0)) k e'
           = if mem_str e' l && dict_mem e' (build_email_to_id us)
             then None else role_on (world st0) k e')
    /\ (forall k', k <> k' ->
           find_album k'
             (srv_albums
                (world (fold_left (remove_step model_api (build_email_to_id us) k)
                          l st0)))
           = find_album k' (srv_albums (world st0))).
Proof.
  induction l as [|e l IH]; intros st0 Hc Hu Hok; cbn [fold_left] in *.
  - split4; auto.
  - destruct (dict_get (build_email_to_id us) e) as [uid|] eqn:Hd.
    + pose proof (build_email_to_id_truthy us e uid Hd) as Ht.
      destruct (remove_step_resolved model_api _ k st0 e uid Hd Ht)
        as (ok & Hrm & Hcalls).
      set (st1 := remove_step model_api (build_email_to_id us) k st0 e) in *.
      assert (Hok1 : ok = true).
      { destruct (remove_loop_keeps model_api (build_email_to_id us) k l st1)
          as (new & Hnew).
        rewrite Hnew, Hcalls in Hok. apply all_ok_prefix in Hok.
        now apply all_ok_last in Hok. }
      subst ok. cbn [api_remove model_api] in Hrm.
      rewrite <- Hu in Hd.
      destruct (model_remove_effect _ _ k uid e Hc Hd Hrm)
        as (Hc1 & Hu1 & Hrole1 & Hframe1).
      rewrite Hu in Hu1.
      destruct (IH st1 Hc1 Hu1 Hok) as (Hc2 & Hu2 & Hrole2 & Hframe2).
      split4; try assumption.
      * intros e'. rewrite Hrole2, Hrole1. cbn [mem_str existsb].
        fold (mem_str e' l). rewrite (String.eqb_sym e' e).
        rewrite Hu in Hd.
        destruct (String.eqb_spec e e') as [<-|Hne]; [|reflexivity].
        unfold dict_mem. rewrite Hd. simpl.
        now destruct (mem_str e l).
      * intros k' Hne. rewrite Hframe2, Hframe1; auto.
    + rewrite (remove_step_unresolved model_api _ k st0 e Hd) in *.
      destruct (IH st0 Hc Hu Hok) as (Hc2 & Hu2 & Hrole2 & Hframe2).
      split4; try assumption.
      intros e'. rewrite Hrole2. cbn [mem_str existsb]. fold (mem_str e' l).
      destruct (String.eqb_spec e' e) as [->|Hne]; [|reflexivity].
      unfold dict_mem. rewrite Hd. simpl. now rewrite andb_false_r.
Qed.

Variable cur0 : dict string.

Lemma share_loop_model (l : list (string * string)) :
  forall st0 : state server,
    consistent_server (world st0) -> srv_users (world st0) = us ->
    (forall e r, In (e, r) l -> truthy r = true) ->
    all_ok (calls (fold_left (share_step model_api (build_email_to_id us) k cur0)
                     l st0)) ->
    consistent_server
      (world (fold_left (share_step model_api (build_email_to_id us) k cur0) l st0))
    /\ srv_users
         (world (fold_left (share_step model_api (build_email_to_id us) k cur0)
                   l st0)) = us
    /\ (forall e',
           (exists r uid,
               In (e', r) l /\ dict_get (build_email_to_id us) e' = Some uid
               /\ role_on
                    (world (fold_left
                              (share_step model_api (build_email_to_id us) k cur0)
                              l st0)) k e' = Some r)
           \/ ((forall r uid,
                   In (e', r) l ->
                   dict_get (build_email_to_id us) e' = Some uid ->
                   role_differs (dict_get cur0 e') r = false)
               /\ role_on
                    (world (fold_left
                              (share_step model_api (build_email_to_id us) k cur0)
                              l st0)) k e'
                  = role_on (world st0) k e'))
    /\ (forall k', k <> k' ->
           find_album k'
             (srv_albums
                (world (fold_left
                          (share_step model_api (build_email_to_id us) k cur0)
                          l st0)))
           = find_album k' (srv_albums (world st0))).
Proof.
  induction l as [|[e r] l IH]; intros st0 Hc Hu Htr Hok; cbn [fold_left] in *.
  - split4; auto. intros e'. right. split; [|reflexivity].
    intros ? ? [].
  - assert (Htr' : forall e0 r0, In (e0, r0) l -> truthy r0 = true).
    { intros e0 r0 Hin. apply (Htr e0 r0). now right. }
    destruct (dict_get (build_email_to_id us) e) as [uid|] eqn:Hd.
    + pose proof (build_email_to_id_truthy us e uid Hd) as Ht.
      destruct (role_differs (dict_get cur0 e) r) eqn:Hdiff.
      * destruct (share_step_triggered model_api _ k cur0 st0 e r uid Hd Ht Hdiff)
          as (ok & Hsh & Hcalls).
        set (st1 := share_step model_api (build_email_to_id us) k cur0 st0 (e, r))
          in *.
        assert (Hok1 : ok = true).
        { destruct (share_loop_extends model_api (build_email_to_id us) k cur0 l st1)
            as (new & Hnew).
          rewrite Hnew, Hcalls in Hok. apply all_ok_prefix in Hok.
          now apply all_ok_last in Hok. }
        subst ok. cbn [api_share model_api] in Hsh.
        assert (Hd' := Hd). rewrite <- Hu in Hd'.
        destruct (model_share_effect _ _ k uid e r Hc Hd'
                    (Htr e r (or_introl eq_refl)) Hsh)
          as (Hc1 & Hu1 & Hrole1 & Hframe1).
        rewrite Hu in Hu1.
        destruct (IH st1 Hc1 Hu1 Htr' Hok) as (Hc2 & Hu2 & Hrole2 & Hframe2).
        split4; try assumption.
        -- intros e'. destruct (Hrole2 e') as [(r' & uid' & Hin & Hd2 & Hr2)|(Hno & Hr2)].
           ++ left. exists r', uid'. repeat split; auto. now right.
           ++ rewrite Hrole1 in Hr2.
              destruct (String.eqb_spec e e') as [<-|Hne].
              ** left. exists r, uid. repeat split; auto. now left.
              ** right. split; [|exact Hr2].
                 intros r0 uid0 [[= -> ->]|Hin] Hd0; [contradiction|].
                 now apply (Hno r0 uid0).
        -- intros k' Hne. rewrite Hframe2, Hframe1; auto.
      * rewrite (share_step_matched model_api _ k cur0 st0 e r uid Hd Ht Hdiff) in *.
        destruct (IH st0 Hc Hu Htr' Hok) as (Hc2 & Hu2 & Hrole2 & Hframe2).
        split4; try assumption.
        intros e'. destruct (Hrole2 e') as [(r' & uid' & Hin & Hd2 & Hr2)|(Hno & Hr2)].
        -- left. exists r', uid'. repeat split; auto. now right.
        -- right. split; [|exact Hr2].
           intros r0 uid0 [[= -> ->]|Hin] Hd0; [exact Hdiff|].
           now apply (Hno r0 uid0).
    + assert (Hw : world (share_step model_api (build_email_to_id us) k cur0
                            st0 (e, r)) = world st0)
        by now rewrite (share_step_unresolved model_api _ k cur0 st0 e r Hd).
      destruct (IH (share_step model_api (build_email_to_id us) k cur0 st0 (e, r)))
        as (Hc2 & Hu2 & Hrole2 & Hframe2); try assumption.
      { now rewrite Hw. }
      { now rewrite Hw. }
      rewrite Hw in *.
      split4; try assumption.
      intros e'. destruct (Hrole2 e') as [(r' & uid' & Hin & Hd2 & Hr2)|(Hno & Hr2)].
      * left. exists r', uid'. repeat split; auto. now right.
      * right. split; [|exact Hr2].
        intros r0 uid0 [[= -> ->]|Hin] Hd0; [congruence|].
        now apply (Hno r0 uid0).
Qed.

End ModelLoops.

(** ** One pass settles its album *)

Lemma role_differs_false (cur : dict string) (e r : string) :
  role_differs (dict_get cur e) r = false -> dict_get cur e = Some r.
Proof.
  destruct (dict_get cur e) as [r'|]; simpl; [|discriminate].
  intros H. apply negb_false_iff, String.eqb_eq in H. now subst.
Qed.

Lemma role_on_keys (s : server) (k e : string) :
  In e (dict_keys (current_users_of (find_album k (srv_albums s))))
  <-> role_on s k e <> None.
Proof.
  unfold role_on. rewrite <- dict_mem_In. unfold dict_mem.
  destruct (dict_get _ e); split; congruence.
Qed.

Lemma settled_frame (dir : dict string) (s s' : server) (k : string)
  (d : album_entry) :
  find_album k (srv_albums s') = find_album k (srv_albums s) ->
  settled dir s k d -> settled dir s' k d.
Proof. unfold settled. now intros ->. Qed.

Lemma pass_settles (ord : SetOrder) (us : list user_json)
  (st0 : state server) (k : string) (d : album_entry) :
  consistent_server (world st0) -> srv_users (world st0) = us ->
  one_role_per_email d ->
  (forall e r, In (e, r) (users d) -> truthy r = true) ->
  all_ok (calls (process_album model_api ord (build_email_to_id us) st0 (k, d))) ->
  consistent_server
    (world (process_album model_api ord (build_email_to_id us) st0 (k, d)))
  /\ srv_users
       (world (process_album model_api ord (build_email_to_id us) st0 (k, d)))
     = us
  /\ settled (build_email_to_id us)
       (world (process_album model_api ord (build_email_to_id us) st0 (k, d)))
       k d
  /\ (forall k', k <> k' ->
         find_album k'
           (srv_albums
              (world (process_album model_api ord (build_email_to_id us) st0
                        (k, d))))
         = find_album k' (srv_albums (world st0))).
Proof.
  intros Hc Hu Hone Htr. rewrite process_album_unfold.
  rewrite model_fetched_users, model_fetched_world.
  set (dir := build_email_to_id us).
  set (cur0 := current_users_of (find_album k (srv_albums (world st0)))).
  set (to_rm := iter_emails ord (users_to_remove cur0 (desired_users ord d))).
  set (st2 := {| world := world st0; calls := calls st0;
                 st := count_album (st st0) |}).
  set (st3 := fold_left (remove_step model_api dir k) to_rm st2).
  intros Hok.
  assert (Hok3 : all_ok (calls st3)).
  { destruct (share_loop_extends model_api dir k cur0
                (iter_pairs ord (users d)) st3) as (new & Hnew).
    rewrite Hnew in Hok. now apply all_ok_prefix in Hok. }
  destruct (remove_loop_model us k to_rm st2 Hc Hu Hok3)
    as (Hc3 & Hu3 & Hrole3 & Hframe3).
  fold dir in Hc3, Hu3, Hrole3, Hframe3. fold st3 in Hc3, Hu3, Hrole3, Hframe3.
  assert (Htr' : forall e r, In (e, r) (iter_pairs ord (users d)) ->
                             truthy r = true).
  { intros e r Hin. apply In_iter_pairs in Hin. eauto. }
  destruct (share_loop_model us k cur0 (iter_pairs ord (users d)) st3
              Hc3 Hu3 Htr' Hok) as (Hc4 & Hu4 & Hrole4 & Hframe4).
  fold dir in Hc4, Hu4, Hrole4, Hframe4.
  set (st4 := fold_left (share_step model_api dir k cur0)
                (iter_pairs ord (users d)) st3) in *.
  assert (Hcur : forall e, role_on (world st2) k e = dict_get cur0 e)
    by reflexivity.
  split4; try assumption.
  - split.
    + intros e He. apply role_on_keys in He.
      destruct (Hrole4 e) as [(r & uid & Hin & Hd & Hr)|(Hno & Hr)].
      * left. apply in_map_iff. exists (e, r). split; [reflexivity|].
        now apply In_iter_pairs in Hin.
      * rewrite Hr, Hrole3 in He.
        destruct (dict_get dir e) as [uid|] eqn:Hd; [left|now right].
        unfold dict_mem in He. rewrite Hd, andb_true_r in He.
        destruct (mem_str e to_rm) eqn:Hm; [congruence|].
        rewrite Hcur in He.
        apply In_desired_users with (ord := ord).
        destruct (mem_str e (desired_users ord d)) eqn:Hdes;
          [now apply mem_str_In|].
        exfalso. apply mem_str_not_In in Hm. apply Hm.
        apply In_iter_emails, In_users_to_remove. split.
        -- apply dict_mem_In. unfold dict_mem.
           destruct (dict_get cur0 e); congruence.
        -- now apply mem_str_not_In.
    + intros e r uid Hin Hd. change (role_on (world st4) k e = Some r).
      destruct (Hrole4 e) as [(r' & uid' & Hin' & Hd' & Hr')|(Hno & Hr')].
      * rewrite Hr'. f_equal. apply (Hone e r' r); [|exact Hin].
        now apply In_iter_pairs in Hin'.
      * rewrite Hr', Hrole3.
        assert (Hm : mem_str e to_rm = false).
        { apply mem_str_not_In. intros Hm. apply In_iter_emails in Hm.
          apply users_to_remove_disjoint in Hm. apply Hm.
          apply in_map_iff. now exists (e, r). }
        rewrite Hm. cbn [andb]. rewrite Hcur. apply role_differs_false.
        apply (Hno r uid); [|exact Hd]. now apply In_iter_pairs.
  - intros k' Hne. rewrite Hframe4, Hframe3; auto.
Qed.

Lemma run_settles (ord : SetOrder) (us : list user_json)
  (ad : dict album_entry) :
  forall st0 : state server,
    NoDup (dict_keys ad) ->
    consistent_server (world st0) -> srv_users (world st0) = us ->
    (forall k d, In (k, d) ad ->
                 one_role_per_email d
                 /\ forall e r, In (e, r) (users d) -> truthy r = true) ->
    all_ok (calls (process_all model_api ord (build_email_to_id us) ad st0)) ->
    srv_users (world (process_all model_api ord (build_email_to_id us) ad st0))
    = us
    /\ (forall k d, In (k, d) ad ->
           settled (build_email_to_id us)
             (world (process_all model_api ord (build_email_to_id us) ad st0))
             k d)
    /\ (forall k', ~ In k' (dict_keys ad) ->
           find_album k'
             (srv_albums
                (world (process_all model_api ord (build_email_to_id us) ad st0)))
           = find_album k' (srv_albums (world st0))).
Proof.
  unfold process_all.
  induction ad as [|[k d] ad IH]; intros st0 Hn Hc Hu Hd Hok;
    cbn [fold_left] in *.
  - split; [exact Hu|]. split; [intros ? ? []|reflexivity].
  - simpl in Hn. inversion Hn as [|? ? Hk Hn']; subst.
    set (st1 := process_album model_api ord (build_email_to_id (srv_users (world st0)))
                  st0 (k, d)) in *.
    assert (Hok1 : all_ok (calls st1)).
    { destruct (process_all_shape model_api ord
                  (build_email_to_id (srv_users (world st0))) ad st1)
        as (new & Hnew & _).
      unfold process_all in Hnew. rewrite Hnew in Hok.
      now apply all_ok_prefix in Hok. }
    destruct (Hd k d (or_introl eq_refl)) as (Hone & Htr).
    destruct (pass_settles ord (srv_users (world st0)) st0 k d Hc eq_refl
                Hone Htr Hok1) as (Hc1 & Hu1 & Hset1 & Hframe1).
    fold st1 in Hc1, Hu1, Hset1, Hframe1.
    assert (Hd' : forall k0 d0, In (k0, d0) ad ->
                    one_role_per_email d0
                    /\ forall e r, In (e, r) (users d0) -> truthy r = true).
    { intros k0 d0 Hin. apply (Hd k0 d0). now right. }
    destruct (IH st1 Hn' Hc1 Hu1 Hd' Hok) as (Hu2 & Hset2 & Hframe2).
    split; [exact Hu2|]. split.
    + intros k0 d0 [[= <- <-]|Hin]; [|now apply Hset2].
      eapply settled_frame; [|exact Hset1]. now apply Hframe2.
    + intros k' Hnot. simpl in Hnot.
      rewrite Hframe2 by tauto. apply Hframe1. tauto.
Qed.

(** ** Two runs in a row *)

Lemma process_share_albums_aborted (ord : SetOrder)
  (file : option (list (list string))) (s : server) :
  desired_state file = None ->
  final (process_share_albums model_api ord file s) = s
  /\ issued (process_share_albums model_api ord file s) = [].
Proof.
  unfold desired_state, process_share_albums, open_csv, get_users.
  cbn [api_get_users model_api option_map].
  destruct file as [[|headers rows]|]; [auto| |auto].
  destruct (parse_header headers) as [c|]; [|auto].
  destruct (ingest_rows c [] rows); [auto|discriminate].
Qed.

Lemma process_share_albums_reconciles (ord : SetOrder)
  (file : option (list (list string))) (s : server)
  (ad : dict album_entry) :
  desired_state file = Some ad ->
  final (process_share_albums model_api ord file s)
  = world (process_all model_api ord (build_email_to_id (srv_users s)) ad
             {| world := s; calls := []; st := stats0 |})
  /\ issued (process_share_albums model_api ord file s)
     = calls (process_all model_api ord (build_email_to_id (srv_users s)) ad
                {| world := s; calls := []; st := stats0 |}).
Proof.
  unfold desired_state, process_share_albums, open_csv, get_users.
  cbn [api_get_users model_api option_map].
  destruct file as [[|headers rows]|]; try discriminate.
  destruct (parse_header headers) as [c|]; [|discriminate].
  destruct (ingest_rows c [] rows); [discriminate|].
  intros [= ->]. auto.
Qed.

Lemma desired_state_spec (file : option (list (list string)))
  (ad : dict album_entry) :
  desired_state file = Some ad ->
  NoDup (dict_keys ad)
  /\ forall k d e r, In (k, d) ad -> In (e, r) (users d) -> truthy r = true.
Proof.
  unfold desired_state, open_csv. destruct file as [[|headers rows]|]; try discriminate.
  destruct (parse_header headers) as [c|]; [|discriminate].
  destruct (ingest_rows c [] rows) as [|ad'] eqn:Hi; [discriminate|].
  intros [= ->]. destruct (ingested_spec c rows ad Hi) as (Hn & _ & T).
  split; [exact Hn|]. intros k d e r Hin Hu.
  rewrite <- (In_album_data_tuples ad k d Hn Hin) in Hu. apply T in Hu.
  destruct Hu as (row & _ & (? & ? & _ & _ & _ & _ & _ & H) & _). exact H.
Qed.

(** C3 (amended): on a server whose users have an email and an id each,
    distinct lower-cased emails and distinct ids, and whose share entries
    refer to listed users, and for an input that lists no email under two
    different roles of one album, a second run with the same input right
    after a run whose requests all succeeded issues no share/update and no
    removal request. *)
Theorem second_run_is_quiet (ord : SetOrder)
  (file : option (list (list string))) (s : server) :
  consistent_server s -> unambiguous file ->
  all_ok (issued (fst (run_twice ord file s))) ->
  issued (snd (run_twice ord file s)) = [].
Proof.
  intros Hc Hun Hok. unfold run_twice in *. cbn [fst snd] in *.
  destruct (desired_state file) as [ad|] eqn:Hds.
  - destruct (process_share_albums_reconciles ord file s ad Hds) as (Hf & Hi).
    destruct (desired_state_spec file ad Hds) as (Hn & Htr).
    rewrite Hi in Hok.
    assert (Hd : forall k d, In (k, d) ad ->
                   one_role_per_email d
                   /\ forall e r, In (e, r) (users d) -> truthy r = true).
    { intros k d Hin. split; [now apply (Hun ad k d)|].
      intros e r. now apply (Htr k d e r). }
    destruct (run_settles ord (srv_users s) ad
                {| world := s; calls := []; st := stats0 |} Hn Hc eq_refl Hd Hok)
      as (Hu1 & Hset & _).
    rewrite <- Hf in Hu1, Hset.
    destruct (process_share_albums_reconciles ord file
                (final (process_share_albums model_api ord file s)) ad Hds)
      as (_ & ->).
    rewrite Hu1.
    destruct (settled_run ord (build_email_to_id (srv_users s)) ad
                {| world := final (process_share_albums model_api ord file s);
                   calls := []; st := stats0 |}) as (_ & Hcalls).
    + intros k d Hin. now apply Hset.
    + exact Hcalls.
  - now destruct (process_share_albums_aborted ord file
                    (final (process_share_albums model_api ord file s)) Hds).
Qed.

Lemma demo_server_consistent : consistent_server demo_server.
Proof.
  split.
  - split.
    + repeat constructor.
    + intros u u' Hu Hu'. simpl in Hu, Hu'.
      destruct Hu as [<-|[<-|[<-|[]]]], Hu' as [<-|[<-|[<-|[]]]];
        split; intros H; try reflexivity; discriminate H.
  - repeat constructor; eexists; (split; [reflexivity|]); simpl; auto.
Qed.

Lemma demote_alice_unambiguous : unambiguous (Some demote_alice).
Proof.
  intros ad k d Hds Hin. vm_compute in Hds. injection Hds as <-.
  destruct Hin as [[= <- <-]|[]].
  intros e r1 r2 [[= <- <-]|[]] [[= <-]|[]]. reflexivity.
Qed.

Lemma second_run_is_quiet_witness :
  issued (snd (run_twice reversed_order (Some demote_alice) demo_server)) = [].
Proof.
  apply (second_run_is_quiet reversed_order (Some demote_alice) demo_server).
  - exact demo_server_consistent.
  - exact demote_alice_unambiguous.
  - vm_compute. repeat constructor.
Defined.

(** C3 (as stated) fails: when the input lists alice under both viewer and
    editor for album A1, the first run, all of whose requests succeed, leaves
    her viewer, and the second run with the same input sends a share/update
    request for editor. *)
Lemma second_run_counterexample :
  all_ok (issued (fst (run_twice insertion_order (Some conflicting_roles)
                         demo_server)))
  /\ issued (snd (run_twice insertion_order (Some conflicting_roles)
                    demo_server))
     = [EvShare "A1" "alice@x.com" "u1" "editor" true].
Proof.
  split.
  - vm_compute. repeat constructor.
  - reflexivity.
Qed.


(* On consistent users the directory maps every lower-cased email to the id
   of its user. *)
Lemma directory_lists (us : list user_json) :
  Forall listed us ->
  (forall u u', In u us -> In u' us ->
                lower (user_email u) = lower (user_email u') ->
                user_id u = user_id u') ->
  forall u, In u us ->
            dict_get (build_email_to_id us) (lower (user_email u))
            = Some (user_id u).
Proof.
  induction us as [|x us IH] using rev_ind; intros Hl Hc u Hu; [contradiction|].
  apply Forall_app in Hl. destruct Hl as (Hl & Hx).
  inversion Hx as [|? ? (Hxe & Hxi & Hte & Hti) _]; subst.
  rewrite build_email_to_id_snoc. unfold directory_step.
  rewrite Hxe, Hxi, Hte, Hti. cbn [andb]. rewrite dict_get_set.
  destruct (String.eqb_spec (lower (user_email x)) (lower (user_email u)))
    as [Heq|Hne].
  - f_equal. apply Hc; [apply in_or_app; right; now left|exact Hu|exact Heq].
  - apply in_app_or in Hu. destruct Hu as [Hu|[->|[]]]; [|congruence].
    apply IH; [exact Hl| |exact Hu].
    intros u1 u2 H1 H2. apply Hc; apply in_or_app; now left.
Qed.

(** ** Letter case of roles *)

Section RoleCase.

Context {W : Type} (api : API W) (ord : SetOrder).

(** C9 (amended): roles are compared as stored.  A desired role is the
    trimmed, lower-cased role cell of an input row, a current role is the
    role string of a share entry of the server, verbatim; so whenever the
    directory resolves the email of a desired tuple to a non-empty id and
    the current role of that user differs from the desired one only by
    letter case, the album pass issues a share/update request for the tuple,
    in every run in which this holds.  On a server whose users have an email
    and an id each, with distinct lower-cased emails and distinct ids, and
    whose share entries refer to listed users, the directory resolves the
    email of every current user, so there the request is issued for every
    album and user with such a role. *)
Theorem role_case_mismatch_is_shared :
  (forall (c : columns) (rows : list (list string)) (ad : dict album_entry)
          (k : string) (d : album_entry) (e r : string),
      ingest_rows c [] rows = inr ad -> In (k, d) ad -> In (e, r) (users d) ->
      exists row role_cell,
        In row rows /\ nth_error row (role_idx c) = Some role_cell
        /\ r = lower (strip role_cell))
  /\ (forall (a : album_json) (e r' : string),
         dict_get (current_users_of (Some a)) e = Some r' ->
         exists ui, In ui (album_entries a) /\ au_role ui = Some r'
                    /\ lower (entry_email ui) = e)
  /\ (forall (dir : dict string) (s : state W) (k : string) (d : album_entry)
             (e r r' uid : string),
         In (e, r) (users d) ->
         dict_get dir e = Some uid -> truthy uid = true ->
         dict_get (fetched_users api k (world s)) e = Some r' ->
         lower r' = lower r -> r' <> r ->
         exists ok,
           In (EvShare k e uid r ok)
             (calls (process_album api ord dir s (k, d))))
  /\ (forall (st0 : state server) (k : string) (a : album_json)
             (d : album_entry) (e r r' : string),
         consistent_server (world st0) ->
         find_album k (srv_albums (world st0)) = Some a ->
         dict_get (current_users_of (Some a)) e = Some r' ->
         In (e, r) (users d) ->
         lower r' = lower r -> r' <> r ->
         exists uid ok,
           In (EvShare k e uid r ok)
             (calls (process_album model_api ord
                       (build_email_to_id (srv_users (world st0))) st0 (k, d)))).
Proof.
  split; [|split; [|split]].
  - intros c rows ad k d e r Hi Hin Hu.
    destruct (ingested_spec c rows ad Hi) as (Hn & _ & T).
    rewrite <- (In_album_data_tuples ad k d Hn Hin) in Hu.
    apply T in Hu. destruct Hu as (row & Hrow & (ic & rc & _ & Hr & _ & -> & _) & _).
    now exists row, rc.
  - intros a e r' H. rewrite current_users_get in H.
    destruct (role_in_Some _ _ _ H) as (ui & Hin & Hv & He & Hr).
    exists ui. destruct (visible_role ui Hv) as (Hs & _). rewrite Hr in Hs. auto.
  - intros dir s k d e r r' uid Hin Hd Ht Hc _ Hne.
    apply process_album_issues; try assumption.
    rewrite Hc. simpl. apply negb_true_iff. now apply String.eqb_neq.
  - intros st0 k a d e r r' ((Hlist & Hcons) & Hal) Hf Hc Hin _ Hne.
    pose proof Hc as Hrole. rewrite current_users_get in Hrole.
    destruct (role_in_Some _ _ _ Hrole) as (ui & Hui & _ & Hem & _).
    rewrite Forall_forall in Hal.
    pose proof (Hal a (find_album_In _ _ _ Hf)) as Hent.
    unfold consistent_entries in Hent. rewrite Forall_forall in Hent.
    destruct (Hent ui Hui) as (u & Hau & Hu).
    assert (Heu : entry_email ui = user_email u).
    { unfold entry_email. now rewrite Hau. }
    rewrite Heu in Hem.
    pose proof (directory_lists _ Hlist
                  (fun u1 u2 H1 H2 => proj1 (Hcons u1 u2 H1 H2)) u Hu) as Hd.
    rewrite Hem in Hd. rewrite Forall_forall in Hlist.
    destruct (Hlist u Hu) as (_ & _ & _ & Ht).
    exists (user_id u).
    apply process_album_issues; try assumption.
    rewrite model_fetched_users, Hf, Hc. simpl.
    apply negb_true_iff. now apply String.eqb_neq.
Qed.

End RoleCase.

Lemma cased_server_consistent : consistent_server cased_server.
Proof.
  split.
  - split.
    + repeat constructor.
    + intros u u' [<-|[]] [<-|[]]. split; reflexivity.
  - repeat constructor. eexists. split; [reflexivity|]. now left.
Qed.

Lemma role_case_mismatch_is_shared_witness :
  (exists row role_cell,
      In row [["Trip"; "A1"; " Editor "; "alice@x.com"]]
      /\ nth_error row 2 = Some role_cell
      /\ "editor" = lower (strip role_cell))
  /\ (exists ui,
         In ui [mk_share "Editor" alice] /\ au_role ui = Some "Editor"
         /\ lower (entry_email ui) = "alice@x.com")
  /\ (exists ok,
         In (EvShare "A1" "alice@x.com" "u1" "editor" ok)
           (calls (process_album model_api insertion_order
                     (build_email_to_id (srv_users cased_server))
                     {| world := cased_server; calls := []; st := stats0 |}
                     ("A1", alice_editor))))
  /\ (exists uid ok,
         In (EvShare "A1" "alice@x.com" uid "editor" ok)
           (calls (process_album model_api reversed_order
                     (build_email_to_id (srv_users cased_server))
                     {| world := cased_server; calls := []; st := stats0 |}
                     ("A1", alice_editor)))).
Proof.
  split; [|split; [|split]].
  - apply (proj1 (role_case_mismatch_is_shared model_api insertion_order)
             (export_columns 1) [["Trip"; "A1"; " Editor "; "alice@x.com"]]
             [("A1", alice_editor)] "A1" alice_editor "alice@x.com" "editor").
    + reflexivity.
    + left; reflexivity.
    + left; reflexivity.
  - apply (proj1 (proj2 (role_case_mismatch_is_shared model_api insertion_order))
             (mk_album "A1" "Trip" [mk_share "Editor" alice])
             "alice@x.com" "Editor").
    reflexivity.
  - apply (proj1 (proj2 (proj2
             (role_case_mismatch_is_shared model_api insertion_order)))
             (build_email_to_id (srv_users cased_server))
             {| world := cased_server; calls := []; st := stats0 |}
             "A1" alice_editor "alice@x.com" "editor" "Editor" "u1").
    + left; reflexivity.
    + reflexivity.
    + reflexivity.
    + reflexivity.
    + reflexivity.
    + discriminate.
  - apply (proj2 (proj2 (proj2
             (role_case_mismatch_is_shared model_api reversed_order)))
             {| world := cased_server; calls := []; st := stats0 |}
             "A1" (mk_album "A1" "Trip" [mk_share "Editor" alice])
             alice_editor "alice@x.com" "editor" "Editor").
    + exact cased_server_consistent.
    + reflexivity.
    + reflexivity.
    + left; reflexivity.
    + reflexivity.
    + discriminate.
Defined.

(** C9 (as stated) fails: on a server that lists alice only while album A1
    is shared with ghost@x.com as "Editor", an input that wants ghost@x.com
    as editor meets a current role that differs from the desired one by
    letter case only; the directory does not resolve the email, and the run
    sends no share/update request at all, whatever the iteration order. *)
Lemma role_case_mismatch_counterexample :
  role_on ghost_server "A1" "ghost@x.com" = Some "Editor"
  /\ desired_state (Some ghost_editor)
     = Some [("A1", {| users := [("ghost@x.com", "editor")];
                       role := "editor" |})]
  /\ lower "Editor" = lower "editor" /\ "Editor" <> "editor"
  /\ dict_get (build_email_to_id (srv_users ghost_server)) "ghost@x.com"
     = None
  /\ issued (process_share_albums model_api insertion_order
               (Some ghost_editor) ghost_server) = []
  /\ issued (process_share_albums model_api reversed_order
               (Some ghost_editor) ghost_server) = [].
Proof.
  split; [reflexivity|]. split; [reflexivity|]. split; [reflexivity|].
  split; [discriminate|]. split; [reflexivity|]. split; reflexivity.
Qed.




(** * Further properties of the source *)

(** ** The reader loop *)

Lemma skipped_row_ingest (c : columns) (ad : dict album_entry)
  (row : list string) :
  skipped_row c row = true -> ingest_row c ad row = inr ad.
Proof.
  unfold skipped_row, ingest_row. destruct row as [|x row]; [reflexivity|].
  destruct (nth_error (x :: row) (id_idx c)); [|discriminate].
  destruct (nth_error (x :: row) (role_idx c)); [|discriminate].
  cbv zeta. now intros ->.
Qed.

(** X1: rows that are empty, or whose album id cell or role cell is empty
    after trimming, have no effect on ingestion at all: reading a file gives
    the same album data, or the same error, as reading it with those rows
    deleted. *)
Theorem skipped_rows_do_not_matter (c : columns) (rows : list (list string)) :
  forall ad : dict album_entry,
    ingest_rows c ad rows
    = ingest_rows c ad (filter (fun row => negb (skipped_row c row)) rows).
Proof.
  induction rows as [|row rows IH]; intros ad; [reflexivity|].
  cbn [filter ingest_rows]. destruct (skipped_row c row) eqn:Hs; cbn [negb].
  - rewrite (skipped_row_ingest c ad row Hs). apply IH.
  - cbn [ingest_rows]. destruct (ingest_row c ad row); [reflexivity|apply IH].
Qed.

Lemma readable_row_ingests (c : columns) (ad : dict album_entry)
  (row : list string) :
  readable_row c row -> exists ad', ingest_row c ad row = inr ad'.
Proof.
  unfold readable_row, ingest_row. destruct row as [|x row]; [now exists ad|].
  intros [H|(Hi & Hr)]; [discriminate|].
  apply nth_error_Some in Hi, Hr.
  destruct (nth_error (x :: row) (id_idx c)); [|congruence].
  destruct (nth_error (x :: row) (role_idx c)); [|congruence].
  cbv zeta. destruct (_ || _); eauto.
Qed.

Lemma unreadable_row_raises (c : columns) (ad : dict album_entry)
  (row : list string) :
  ~ readable_row c row -> ingest_row c ad row = inl IndexError.
Proof.
  intros Hn. apply ingest_row_short.
  - intros ->. apply Hn. now left.
  - unfold readable_row in Hn.
    destruct (Nat.le_gt_cases (List.length row) (id_idx c)) as [H|H]; [now left|].
    destruct (Nat.le_gt_cases (List.length row) (role_idx c)) as [H'|H'];
      [now right|].
    exfalso. apply Hn. right. now split.
Qed.

Lemma readable_row_dec (c : columns) (row : list string) :
  readable_row c row \/ ~ readable_row c row.
Proof.
  unfold readable_row. destruct row as [|x row]; [left; now left|].
  destruct (Nat.le_gt_cases (List.length (x :: row)) (id_idx c)) as [H|H].
  - right. intros [E|(Hi & _)]; [discriminate|lia].
  - destruct (Nat.le_gt_cases (List.length (x :: row)) (role_idx c)) as [H'|H'].
    + right. intros [E|(_ & Hr)]; [discriminate|lia].
    + left. right. now split.
Qed.

Lemma ingest_rows_outcome (c : columns)
  (rows : list (list string)) :
  forall ad : dict album_entry,
    ((exists ad', ingest_rows c ad rows = inr ad')
     <-> Forall (readable_row c) rows)
    /\ (forall e, ingest_rows c ad rows = inl e -> e = IndexError).
Proof.
  induction rows as [|row rows IH]; intros ad.
  - split; [|discriminate]. split; [constructor|]. now exists ad.
  - cbn [ingest_rows]. destruct (readable_row_dec c row) as [Hr|Hr].
    + destruct (readable_row_ingests c ad row Hr) as (ad1 & ->).
      destruct (IH ad1) as (Hiff & Herr). split; [|exact Herr].
      rewrite Hiff. split.
      * now constructor.
      * intros H. now inversion H.
    + rewrite (unreadable_row_raises c ad row Hr). split.
      * split; [intros (? & H); discriminate|].
        intros H. inversion H. contradiction.
      * now intros e [= <-].
Qed.

(** X2: which rows stop the reader loop.  On the rows the reader delivers,
    the body of the loop gets through all of them and delivers album data
    exactly when every non-empty row is long enough to hold the album id
    cell and the role cell; it raises the IndexError of a cell access
    exactly when some non-empty row is too short for them. *)
Theorem ingestion_fails_only_on_short_rows (c : columns)
  (rows : list (list string)) (ad : dict album_entry) :
  ((exists ad', ingest_rows c ad rows = inr ad')
   <-> Forall (readable_row c) rows)
  /\ (ingest_rows c ad rows = inl IndexError
      <-> ~ Forall (readable_row c) rows).
Proof.
  destruct (ingest_rows_outcome c rows ad) as (Hiff & Herr). split.
  - exact Hiff.
  - split.
    + intros Hi Hall. apply Hiff in Hall. destruct Hall as (ad' & Had).
      rewrite Had in Hi. discriminate Hi.
    + intros Hn. destruct (ingest_rows c ad rows) as [e|ad'] eqn:Hi.
      * now rewrite (Herr e eq_refl).
      * exfalso. apply Hn, Hiff. now exists ad'.
Qed.

Lemma ingestion_fails_only_on_short_rows_witness :
  (exists ad', ingest_rows std_columns [] sparse_rows = inr ad')
  /\ ingest_rows std_columns [] [["Trip"; "A1"; "viewer"]; ["Holiday"]]
     = inl IndexError.
Proof.
  split.
  - apply (proj2 (proj1 (ingestion_fails_only_on_short_rows std_columns
                           sparse_rows []))).
    repeat constructor; right; simpl; lia.
  - apply (proj2 (proj2 (ingestion_fails_only_on_short_rows std_columns
                           [["Trip"; "A1"; "viewer"]; ["Holiday"]] []))).
    intros H. inversion H as [|? ? _ H2]. inversion H2 as [|? ? [H3|H3] _].
    + discriminate H3.
    + simpl in H3. lia.
Defined.

(** ** The sets of tuples *)

Lemma In_dict_update {V} (d : dict V) (k k0 : string) (f : V -> V) (v : V) :
  In (k0, v) (dict_update d k f) ->
  In (k0, v) d \/ exists v0, In (k0, v0) d /\ v = f v0.
Proof.
  induction d as [|[k' v'] d IH]; simpl; [tauto|].
  destruct (String.eqb k' k); simpl.
  - intros [[= <- <-]|H]; [right; exists v'; auto|tauto].
  - intros [H|H]; [tauto|]. destruct (IH H) as [H'|(v0 & H' & E)]; [tauto|].
    right. exists v0. auto.
Qed.

Lemma In_dict_set {V} (d : dict V) (k k0 : string) (v v0 : V) :
  In (k0, v0) (dict_set d k v) -> In (k0, v0) d \/ v0 = v.
Proof.
  induction d as [|[k' v'] d IH]; simpl.
  - intros [[= _ <-]|[]]. now right.
  - destruct (String.eqb k' k); simpl.
    + intros [[= _ <-]|H]; [now right|tauto].
    + intros [H|H]; [tauto|]. destruct (IH H); tauto.
Qed.

Lemma add_cells_sets (row : list string) (k r : string) (l : list nat) :
  forall ad : dict album_entry,
    (forall k0 d0, In (k0, d0) ad -> NoDup (users d0)) ->
    forall k0 d0, In (k0, d0) (fold_left (add_cell row k r) l ad) ->
                  NoDup (users d0).
Proof.
  induction l as [|i l IH]; intros ad Had; cbn [fold_left]; [exact Had|].
  apply IH. unfold add_cell. destruct (nth_error row i); [|exact Had].
  cbv zeta. destruct (truthy _); [|exact Had].
  intros k0 d0 Hin. unfold add_user in Hin. apply In_dict_update in Hin.
  destruct Hin as [Hin|(v0 & Hin & ->)]; [now apply (Had k0)|].
  simpl. apply set_add_pair_nodup. now apply (Had k0 v0).
Qed.

Lemma ingest_row_sets (c : columns) (ad ad' : dict album_entry)
  (row : list string) :
  (forall k0 d0, In (k0, d0) ad -> NoDup (users d0)) ->
  ingest_row c ad row = inr ad' ->
  forall k0 d0, In (k0, d0) ad' -> NoDup (users d0).
Proof.
  intros Had. unfold ingest_row. destruct row as [|x row]; [now intros [= <-]|].
  destruct (nth_error (x :: row) (id_idx c)); [|discriminate].
  destruct (nth_error (x :: row) (role_idx c)); [|discriminate].
  cbv zeta. destruct (_ || _); [now intros [= <-]|].
  intros [= <-]. apply add_cells_sets.
  destruct (dict_mem _ ad); [exact Had|].
  intros k0 d0 Hin. apply In_dict_set in Hin.
  destruct Hin as [Hin| ->]; [now apply (Had k0)|constructor].
Qed.

Lemma ingest_rows_sets (c : columns) (rows : list (list string)) :
  forall ad ad' : dict album_entry,
    (forall k0 d0, In (k0, d0) ad -> NoDup (users d0)) ->
    ingest_rows c ad rows = inr ad' ->
    forall k0 d0, In (k0, d0) ad' -> NoDup (users d0).
Proof.
  induction rows as [|row rows IH]; intros ad ad' Had; cbn [ingest_rows].
  - now intros [= <-].
  - destruct (ingest_row c ad row) as [e|ad1] eqn:Hr; [discriminate|].
    apply IH. eapply ingest_row_sets; eassumption.
Qed.

(** X3: what the reader loop stores.  The album ids are distinct and are
    the trimmed, non-empty id cells of the rows that pass both guards; the
    tuples of an album are free of duplicates and are exactly the pairs of
    a trimmed, lower-cased, non-empty user cell and the trimmed, lower-cased
    role cell of such a row of that album. *)
Theorem ingested_album_data (c : columns) (rows : list (list string))
  (ad : dict album_entry) :
  ingest_rows c [] rows = inr ad ->
  NoDup (dict_keys ad)
  /\ (forall k, In k (dict_keys ad)
                <-> exists row r, In row rows /\ row_accepts c row k r)
  /\ (forall k d, In (k, d) ad ->
                  NoDup (users d)
                  /\ forall e r, In (e, r) (users d)
                                 <-> exists row, In row rows
                                                 /\ row_gives c row k e r).
Proof.
  intros Hi. destruct (ingested_spec c rows ad Hi) as (Hn & K & T).
  split; [exact Hn|]. split; [exact K|].
  intros k d Hin. split.
  - eapply (ingest_rows_sets c rows [] ad); [intros ? ? []|exact Hi|exact Hin].
  - intros e r. rewrite <- (In_album_data_tuples ad k d Hn Hin). apply T.
Qed.

Lemma ingested_album_data_witness :
  NoDup (dict_keys [("A1", {| users := [("carol@x.com", "viewer")];
                              role := "viewer" |})])
  /\ exists row r, In row sparse_rows /\ row_accepts std_columns row "A1" r.
Proof.
  destruct (ingested_album_data std_columns sparse_rows
              [("A1", {| users := [("carol@x.com", "viewer")];
                         role := "viewer" |})] eq_refl) as (Hn & K & _).
  split; [exact Hn|]. apply K. left; reflexivity.
Defined.

(** ** The requests of a pass, exactly *)

Section ExactLoops.

Context {W : Type} (api : API W).
Variables (dir : dict string) (k : string).

Lemma remove_step_skips (s : state W) (e : string) :
  resolves dir e = false -> remove_step api dir k s e = s.
Proof.
  unfold resolves, remove_step. destruct (dict_get dir e); [|reflexivity].
  now intros ->.
Qed.

Lemma resolves_spec (e : string) :
  resolves dir e = true
  <-> exists uid, dict_get dir e = Some uid /\ truthy uid = true.
Proof.
  unfold resolves. destruct (dict_get dir e) as [uid|].
  - split; [intros H; now exists uid|]. now intros (u & [= <-] & H).
  - split; [discriminate|]. now intros (u & H & _).
Qed.

Lemma remove_loop_exact (l : list string) :
  forall s : state W,
  exists new,
    calls (fold_left (remove_step api dir k) l s) = calls s ++ new
    /\ List.length new = List.length (filter (resolves dir) l)
    /\ (forall ev, In ev new -> is_remove ev = true /\ ev_album ev = k)
    /\ (forall e uid,
           (exists ok, In (EvRemove k e uid ok) new)
           <-> In e l /\ dict_get dir e = Some uid /\ truthy uid = true).
Proof.
  induction l as [|e l IH]; intros s; cbn [fold_left filter].
  - exists []. rewrite app_nil_r. split; [reflexivity|].
    split; [reflexivity|]. split; [intros ? []|].
    intros e uid. split; [intros (? & [])|intros ([] & _)].
  - destruct (resolves dir e) eqn:Hres.
    + destruct (proj1 (resolves_spec e) Hres) as (uid & Hd & Ht).
      destruct (remove_step_resolved api dir k s e uid Hd Ht) as (ok & _ & Hc).
      destruct (IH (remove_step api dir k s e)) as (new & Hn & Hlen & Hall & Hiff).
      exists (EvRemove k e uid ok :: new).
      rewrite Hn, Hc, <- app_assoc. split; [reflexivity|].
      split; [simpl; now rewrite Hlen|]. split.
      * intros ev [<-|Hin]; [now split|now apply Hall].
      * intros e' uid'. split.
        -- intros (ok' & [[= <- <- _]|Hin]); [simpl; auto|].
           destruct (proj1 (Hiff e' uid') (ex_intro _ ok' Hin)) as (H1 & H2).
           simpl. auto.
        -- intros ([<-|Hin] & Hd' & Ht').
           ++ exists ok. left. congruence.
           ++ destruct (proj2 (Hiff e' uid')) as (ok' & H); [auto|].
              exists ok'. now right.
    + rewrite (remove_step_skips s e Hres).
      destruct (IH s) as (new & Hn & Hlen & Hall & Hiff).
      exists new. split; [exact Hn|]. split; [exact Hlen|].
      split; [exact Hall|]. intros e' uid'. rewrite Hiff. split.
      * intros (H1 & H2). simpl. auto.
      * intros ([<-|Hin] & Hd' & Ht'); [|auto].
        exfalso. assert (resolves dir e = true) by (apply resolves_spec; eauto).
        congruence.
Qed.

Variable cur : dict string.

Lemma needs_share_spec (e r : string) :
  needs_share dir cur (e, r) = true
  <-> exists uid, dict_get dir e = Some uid /\ truthy uid = true
                  /\ role_differs (dict_get cur e) r = true.
Proof.
  unfold needs_share. cbn [fst snd]. rewrite andb_true_iff, resolves_spec.
  split.
  - intros ((uid & H1 & H2) & H3). now exists uid.
  - intros (uid & H1 & H2 & H3). split; [now exists uid|exact H3].
Qed.

Lemma share_step_silent (s : state W) (e r : string) :
  needs_share dir cur (e, r) = false ->
  calls (share_step api dir k cur s (e, r)) = calls s.
Proof.
  unfold needs_share, resolves, share_step. cbn [fst snd].
  destruct (dict_get dir e) as [uid|]; [|reflexivity].
  destruct (truthy uid); [|reflexivity].
  cbn [andb]. now intros ->.
Qed.

Lemma share_loop_exact (l : list (string * string)) :
  forall s : state W,
  exists new,
    calls (fold_left (share_step api dir k cur) l s) = calls s ++ new
    /\ List.length new = List.length (filter (needs_share dir cur) l)
    /\ (forall ev, In ev new -> is_share ev = true /\ ev_album ev = k)
    /\ (forall e r uid,
           (exists ok, In (EvShare k e uid r ok) new)
           <-> In (e, r) l /\ dict_get dir e = Some uid /\ truthy uid = true
               /\ role_differs (dict_get cur e) r = true).
Proof.
  induction l as [|[e r] l IH]; intros s; cbn [fold_left filter].
  - exists []. rewrite app_nil_r. split; [reflexivity|].
    split; [reflexivity|]. split; [intros ? []|].
    intros e r uid. split; [intros (? & [])|intros ([] & _)].
  - destruct (IH (share_step api dir k cur s (e, r)))
      as (new & Hn & Hlen & Hall & Hiff).
    destruct (needs_share dir cur (e, r)) eqn:Hneed.
    + destruct (proj1 (needs_share_spec e r) Hneed) as (uid & Hd & Ht & Hr).
      destruct (share_step_triggered api dir k cur s e r uid Hd Ht Hr)
        as (ok & _ & Hc).
      exists (EvShare k e uid r ok :: new).
      rewrite Hn, Hc, <- app_assoc. split; [reflexivity|].
      split; [simpl; now rewrite Hlen|]. split.
      * intros ev [<-|Hin]; [now split|now apply Hall].
      * intros e' r' uid'. split.
        -- intros (ok' & [[= <- <- <- _]|Hin]); [simpl; auto|].
           destruct (proj1 (Hiff e' r' uid') (ex_intro _ ok' Hin))
             as (H1 & H2). simpl. auto.
        -- intros ([[= <- <-]|Hin] & Hd' & Ht' & Hr').
           ++ exists ok. left. congruence.
           ++ destruct (proj2 (Hiff e' r' uid')) as (ok' & H); [auto|].
              exists ok'. now right.
    + rewrite (share_step_silent s e r Hneed) in Hn.
      exists new. split; [exact Hn|]. split; [exact Hlen|].
      split; [exact Hall|]. intros e' r' uid'. rewrite Hiff. split.
      * intros (H1 & H2). simpl. auto.
      * intros ([[= <- <-]|Hin] & Hd' & Ht' & Hr'); [|auto].
        exfalso.
        assert (needs_share dir cur (e, r) = true)
          by (apply needs_share_spec; eauto).
        congruence.
Qed.

End ExactLoops.

Section ExactPass.

Context {W : Type} (api : API W) (ord : SetOrder).

Lemma process_album_exact (dir : dict string) (s : state W) (k : string)
  (d : album_entry) :
  exists rem sh,
    calls (process_album api ord dir s (k, d)) = calls s ++ rem ++ sh
    /\ List.length rem
       = List.length
           (filter (resolves dir)
              (users_to_remove (fetched_users api k (world s))
                 (desired_users ord d)))
    /\ List.length sh
       = List.length
           (filter (needs_share dir (fetched_users api k (world s))) (users d))
    /\ (forall ev, In ev rem -> is_remove ev = true /\ ev_album ev = k)
    /\ (forall ev, In ev sh -> is_share ev = true /\ ev_album ev = k)
    /\ (forall e uid,
           (exists ok, In (EvRemove k e uid ok) rem)
           <-> In e (dict_keys (fetched_users api k (world s)))
               /\ ~ In e (map fst (users d))
               /\ dict_get dir e = Some uid /\ truthy uid = true)
    /\ (forall e r uid,
           (exists ok, In (EvShare k e uid r ok) sh)
           <-> In (e, r) (users d) /\ dict_get dir e = Some uid
               /\ truthy uid = true
               /\ role_differs
                    (dict_get (fetched_users api k (world s)) e) r = true).
Proof.
  rewrite process_album_unfold.
  set (cur := fetched_users api k (world s)).
  set (s2 := {| world := fetched_world api k (world s); calls := calls s;
                st := count_album (st s) |}).
  destruct (remove_loop_exact api dir k
              (iter_emails ord (users_to_remove cur (desired_users ord d))) s2)
    as (rem & Hrem & Lrem & Arem & Irem).
  destruct (share_loop_exact api dir k cur (iter_pairs ord (users d))
              (fold_left (remove_step api dir k)
                 (iter_emails ord (users_to_remove cur (desired_users ord d))) s2))
    as (sh & Hsh & Lsh & Ash & Ish).
  exists rem, sh. rewrite Hsh, Hrem. cbn [calls s2]. rewrite <- app_assoc.
  split; [reflexivity|].
  split; [rewrite Lrem; apply filter_length_perm, iter_emails_perm|].
  split; [rewrite Lsh; apply filter_length_perm, iter_pairs_perm|].
  split; [exact Arem|]. split; [exact Ash|]. split.
  - intros e uid. rewrite Irem, In_iter_emails, In_users_to_remove,
      In_desired_users. tauto.
  - intros e r uid. now rewrite Ish, In_iter_pairs.
Qed.

(** X4: the requests of an album pass are determined by three mappings.
    A removal request is issued exactly for the current users that are not
    in the desired set and whose email the directory resolves, a share/update
    request exactly for the desired tuples whose email the directory resolves
    and whose role differs from the current one (a missing current role
    included); a tuple that already holds its role causes no request.  There
    are as many requests as such users and tuples. *)
Theorem requests_of_a_pass (dir : dict string) (s : state W) (k : string)
  (d : album_entry) :
  exists rem sh,
    calls (process_album api ord dir s (k, d)) = calls s ++ rem ++ sh
    /\ List.length rem
       = List.length
           (filter (resolves dir)
              (users_to_remove (fetched_users api k (world s))
                 (desired_users ord d)))
    /\ List.length sh
       = List.length
           (filter (needs_share dir (fetched_users api k (world s))) (users d))
    /\ (forall e uid,
           (exists ok, In (EvRemove k e uid ok) rem)
           <-> In e (dict_keys (fetched_users api k (world s)))
               /\ ~ In e (map fst (users d))
               /\ dict_get dir e = Some uid /\ truthy uid = true)
    /\ (forall e r uid,
           (exists ok, In (EvShare k e uid r ok) sh)
           <-> In (e, r) (users d) /\ dict_get dir e = Some uid
               /\ truthy uid = true
               /\ role_differs
                    (dict_get (fetched_users api k (world s)) e) r = true).
Proof.
  destruct (process_album_exact dir s k d)
    as (rem & sh & H1 & H2 & H3 & _ & _ & H4 & H5).
  exists rem, sh. auto.
Qed.

(** X5: when the detail fetch that [get_current_album_users] makes fails,
    the album is treated as shared with nobody: the pass sends no removal
    request at all and a share/update request for every desired tuple whose
    email the directory resolves. *)
Theorem failed_fetch_shares_everything (dir : dict string) (s : state W)
  (k : string) (d : album_entry) :
  snd (api_get_album_details api k
         (fst (api_get_album_details api k (world s)))) = None ->
  exists sh,
    calls (process_album api ord dir s (k, d)) = calls s ++ sh
    /\ (forall ev, In ev sh -> is_share ev = true)
    /\ List.length sh
       = List.length (filter (fun t => resolves dir (fst t)) (users d))
    /\ (forall e r uid,
           In (e, r) (users d) -> dict_get dir e = Some uid ->
           truthy uid = true ->
           exists ok, In (EvShare k e uid r ok) sh).
Proof.
  intros Hfail.
  assert (Hcur : fetched_users api k (world s) = []).
  { unfold fetched_users, get_current_album_users.
    destruct (api_get_album_details api k
                (fst (api_get_album_details api k (world s)))) as [w' det].
    simpl in Hfail. subst det. reflexivity. }
  destruct (process_album_exact dir s k d)
    as (rem & sh & Hc & Lrem & Lsh & _ & Ash & _ & Ish).
  rewrite Hcur in *. simpl in Lrem.
  destruct rem; [|discriminate]. exists sh. split; [exact Hc|].
  split; [intros ev Hin; now apply Ash|]. split.
  - rewrite Lsh. f_equal. apply filter_ext. intros [e r].
    unfold needs_share. simpl. apply andb_true_r.
  - intros e r uid Hin Hd Ht. apply Ish. auto.
Qed.

(** X6: requests only ever concern albums the input names.  The album of
    every removal or share/update request of a run is the trimmed id cell
    of an input row that passes both guards of the reader loop. *)
Theorem only_named_albums_are_touched (file : option (list (list string)))
  (w : W) (ev : event) :
  In ev (issued (process_share_albums api ord file w)) ->
  exists headers rows c row r,
    file = Some (headers :: rows) /\ parse_header headers = Some c
    /\ In row rows /\ row_accepts c row (ev_album ev) r.
Proof.
  unfold process_share_albums, open_csv.
  destruct (get_users api w) as [w1 [dir|]]; [|contradiction].
  destruct file as [[|headers rows]|]; try contradiction.
  destruct (parse_header headers) as [c|] eqn:Hh; [|contradiction].
  destruct (ingest_rows c [] rows) as [e|ad] eqn:Hi; [contradiction|].
  cbn [issued]. intros Hin.
  destruct (process_all_shape api ord dir ad
              {| world := w1; calls := []; st := stats0 |})
    as (new & Hc & Hs).
  rewrite Hc in Hin. cbn [calls app] in Hin.
  pose proof (run_shape_album ad new ev Hs Hin) as Hk.
  destruct (ingested_spec c rows ad Hi) as (_ & K & _).
  apply K in Hk. destruct Hk as (row & r & Hrow & Hacc).
  exists headers, rows, c, row, r. auto.
Qed.

End ExactPass.

Lemma requests_of_a_pass_witness :
  exists rem sh,
    calls (process_album model_api insertion_order
             (build_email_to_id (srv_users demo_server))
             {| world := demo_server; calls := []; st := stats0 |}
             ("A1", alice_and_bob))
    = [] ++ rem ++ sh
    /\ List.length rem = 1 /\ List.length sh = 1.
Proof.
  destruct (requests_of_a_pass model_api insertion_order
              (build_email_to_id (srv_users demo_server))
              {| world := demo_server; calls := []; st := stats0 |}
              "A1" alice_and_bob) as (rem & sh & Hc & Lr & Ls & _).
  exists rem, sh. split; [exact Hc|]. split; [exact Lr|exact Ls].
Defined.

Lemma failed_fetch_shares_everything_witness :
  exists sh,
    calls (process_album model_api insertion_order
             (build_email_to_id (srv_users demo_server))
             {| world := demo_server; calls := []; st := stats0 |}
             ("Z9", alice_and_bob))
    = [] ++ sh
    /\ List.length sh = 2.
Proof.
  destruct (failed_fetch_shares_everything model_api insertion_order
              (build_email_to_id (srv_users demo_server))
              {| world := demo_server; calls := []; st := stats0 |}
              "Z9" alice_and_bob eq_refl) as (sh & Hc & _ & Ls & _).
  exists sh. split; [exact Hc|exact Ls].
Defined.

Lemma only_named_albums_are_touched_witness :
  exists headers rows c row r,
    Some demote_alice = Some (headers :: rows)
    /\ parse_header headers = Some c
    /\ In row rows /\ row_accepts c row "A1" r.
Proof.
  apply (only_named_albums_are_touched model_api insertion_order
           (Some demote_alice) demo_server
           (EvShare "A1" "alice@x.com" "u1" "viewer" true)).
  vm_compute. right; right; left; reflexivity.
Defined.

(** ** The statistics of a run *)

Lemma ok_shares_snoc (l : list event) (ev : event) :
  ok_shares (l ++ [ev])
  = ok_shares l + (if is_share ev && ev_ok ev then 1 else 0).
Proof.
  unfold ok_shares. rewrite filter_app, length_app. simpl.
  now destruct (is_share ev && ev_ok ev).
Qed.

Lemma failed_share_count_snoc (l : list event) (ev : event) :
  failed_share_count (l ++ [ev])
  = failed_share_count l + (if is_share ev && negb (ev_ok ev) then 1 else 0).
Proof.
  unfold failed_share_count. rewrite filter_app, length_app. simpl.
  now destruct (is_share ev && negb (ev_ok ev)).
Qed.

Lemma ok_removals_snoc (l : list event) (ev : event) :
  ok_removals (l ++ [ev])
  = ok_removals l + (if is_remove ev && ev_ok ev then 1 else 0).
Proof.
  unfold ok_removals. rewrite filter_app, length_app. simpl.
  now destruct (is_remove ev && ev_ok ev).
Qed.

Lemma failed_removals_snoc (l : list event) (ev : event) :
  failed_removals (l ++ [ev])
  = failed_removals l + (if is_remove ev && negb (ev_ok ev) then 1 else 0).
Proof.
  unfold failed_removals. rewrite filter_app, length_app. simpl.
  now destruct (is_remove ev && negb (ev_ok ev)).
Qed.

Section Accounting.

Context {W : Type} (api : API W) (ord : SetOrder).
Variables (dir : dict string) (k : string).

Lemma remove_step_accounted (s : state W) (e : string) (n : nat) :
  accounted s n ->
  accounted (remove_step api dir k s e) n
  /\ total_albums (st (remove_step api dir k s e)) = total_albums (st s)
  /\ users_not_found (st (remove_step api dir k s e))
     = users_not_found (st s).
Proof.
  intros (H1 & H2 & H3 & H4). unfold remove_step.
  destruct (dict_get dir e) as [uid|]; [|now repeat split].
  destruct (truthy uid); [|now repeat split].
  destruct (api_remove api k uid (world s)) as [w' ok].
  unfold accounted. cbn [st calls count_removal successful_shares
    failed_shares users_removed removal_failures total_albums users_not_found].
  rewrite ok_shares_snoc, failed_share_count_snoc, ok_removals_snoc,
    failed_removals_snoc. simpl.
  destruct ok; simpl; repeat split; lia.
Qed.

Lemma remove_loop_accounted (l : list string) :
  forall (s : state W) (n : nat),
    accounted s n ->
    accounted (fold_left (remove_step api dir k) l s) n
    /\ total_albums (st (fold_left (remove_step api dir k) l s))
       = total_albums (st s)
    /\ users_not_found (st (fold_left (remove_step api dir k) l s))
       = users_not_found (st s).
Proof.
  induction l as [|e l IH]; intros s n H; cbn [fold_left]; [auto|].
  destruct (remove_step_accounted s e n H) as (Ha & Ht & Hu).
  destruct (IH _ n Ha) as (Ha' & Ht' & Hu').
  split; [exact Ha'|]. split; congruence.
Qed.

Variable cur : dict string.

Lemma share_step_accounted (s : state W) (t : string * string) (n : nat) :
  accounted s n ->
  accounted (share_step api dir k cur s t)
    (n + (if resolves dir (fst t) then 0 else 1))
  /\ total_albums (st (share_step api dir k cur s t)) = total_albums (st s)
  /\ users_not_found (st (share_step api dir k cur s t))
     = (if resolves dir (fst t) then users_not_found (st s)
        else set_add_str (fst t) (users_not_found (st s))).
Proof.
  intros (H1 & H2 & H3 & H4). destruct t as [e r].
  unfold share_step, resolves. cbn [fst].
  destruct (dict_get dir e) as [uid|].
  - destruct (truthy uid).
    + destruct (role_differs (dict_get cur e) r).
      * destruct (api_share api k uid r (world s)) as [w' ok].
        unfold accounted. cbn [st calls count_share successful_shares
          failed_shares users_removed removal_failures total_albums
          users_not_found].
        rewrite ok_shares_snoc, failed_share_count_snoc, ok_removals_snoc,
          failed_removals_snoc. simpl.
        destruct ok; simpl; repeat split; lia.
      * unfold accounted. repeat split; try assumption; lia.
    + unfold accounted, not_found_step. simpl. repeat split; try assumption; lia.
  - unfold accounted, not_found_step. simpl. repeat split; try assumption; lia.
Qed.

Lemma share_loop_accounted (l : list (string * string)) :
  forall (s : state W) (n : nat),
    accounted s n -> NoDup (users_not_found (st s)) ->
    accounted (fold_left (share_step api dir k cur) l s)
      (n + List.length (filter (fun t => negb (resolves dir (fst t))) l))
    /\ total_albums (st (fold_left (share_step api dir k cur) l s))
       = total_albums (st s)
    /\ NoDup (users_not_found (st (fold_left (share_step api dir k cur) l s)))
    /\ (forall e,
           In e (users_not_found (st (fold_left (share_step api dir k cur) l s)))
           <-> In e (users_not_found (st s))
               \/ (exists r, In (e, r) l) /\ resolves dir e = false).
Proof.
  induction l as [|t l IH]; intros s n H Hnd; cbn [fold_left filter].
  - rewrite Nat.add_0_r. split; [exact H|]. split; [reflexivity|].
    split; [exact Hnd|]. intros e. split; [now left|].
    now intros [H'|((? & []) & _)].
  - destruct (share_step_accounted s t n H) as (Ha & Ht & Hu).
    assert (Hnd' : NoDup (users_not_found (st (share_step api dir k cur s t)))).
    { rewrite Hu. destruct (resolves dir (fst t)); [exact Hnd|].
      now apply set_add_str_nodup. }
    destruct (IH _ _ Ha Hnd') as (Ha' & Ht' & Hnd'' & Hiff).
    split; [|split; [congruence|split; [exact Hnd''|]]].
    + destruct (resolves dir (fst t)); cbn [negb List.length] in *.
      * now rewrite Nat.add_0_r in Ha'.
      * replace (n + S (List.length
                          (filter (fun t0 => negb (resolves dir (fst t0))) l)))
          with (n + 1 + List.length
                          (filter (fun t0 => negb (resolves dir (fst t0))) l))
          by lia.
        exact Ha'.
    + intros e. rewrite Hiff, Hu. destruct t as [e0 r0]. cbn [fst].
      destruct (resolves dir e0) eqn:Hres.
      * split.
        -- intros [H'|((r & Hin) & Hr)]; [now left|].
           right. split; [exists r; now right|exact Hr].
        -- intros [H'|((r & [[= <- <-]|Hin]) & Hr)]; [now left|congruence|].
           right. split; [now exists r|exact Hr].
      * rewrite In_set_add_str. split.
        -- intros [[->|H']|((r & Hin) & Hr)]; [|now left|].
           ++ right. split; [exists r0; now left|exact Hres].
           ++ right. split; [exists r; now right|exact Hr].
        -- intros [H'|((r & [[= <- <-]|Hin]) & Hr)];
             [left; now right|left; now left|].
           right. split; [now exists r|exact Hr].
Qed.

End Accounting.

Section RunAccounting.

Context {W : Type} (api : API W) (ord : SetOrder).
Variable dir : dict string.

Lemma process_album_accounted (s : state W) (k : string) (d : album_entry)
  (n : nat) :
  accounted s n -> NoDup (users_not_found (st s)) ->
  accounted (process_album api ord dir s (k, d))
    (n + List.length
           (filter (fun t => negb (resolves dir (fst t))) (users d)))
  /\ total_albums (st (process_album api ord dir s (k, d)))
     = S (total_albums (st s))
  /\ NoDup (users_not_found (st (process_album api ord dir s (k, d))))
  /\ (forall e,
         In e (users_not_found (st (process_album api ord dir s (k, d))))
         <-> In e (users_not_found (st s))
             \/ (exists r, In (e, r) (users d)) /\ resolves dir e = false).
Proof.
  intros H Hnd. rewrite process_album_unfold.
  set (cur := fetched_users api k (world s)).
  set (s2 := {| world := fetched_world api k (world s); calls := calls s;
                st := count_album (st s) |}).
  assert (H2 : accounted s2 n) by exact H.
  destruct (remove_loop_accounted api dir k
              (iter_emails ord (users_to_remove cur (desired_users ord d)))
              s2 n H2) as (H3 & T3 & U3).
  assert (Hnd3 : NoDup (users_not_found
                          (st (fold_left (remove_step api dir k)
                                 (iter_emails ord
                                    (users_to_remove cur (desired_users ord d)))
                                 s2)))).
  { rewrite U3. exact Hnd. }
  destruct (share_loop_accounted api dir k cur (iter_pairs ord (users d))
              _ n H3 Hnd3) as (H4 & T4 & Hnd4 & Hiff).
  rewrite (filter_length_perm _ _ _ (iter_pairs_perm ord (users d))) in H4.
  split; [exact H4|]. split; [rewrite T4, T3; reflexivity|].
  split; [exact Hnd4|].
  intros e. rewrite Hiff, U3. cbn [st s2 count_album users_not_found].
  split.
  - intros [H'|((r & Hin) & Hr)]; [now left|].
    right. split; [exists r; now apply In_iter_pairs in Hin|exact Hr].
  - intros [H'|((r & Hin) & Hr)]; [now left|].
    right. split; [exists r; now apply In_iter_pairs|exact Hr].
Qed.

Lemma process_all_accounted (ad : dict album_entry) :
  forall (s : state W) (n : nat),
    accounted s n -> NoDup (users_not_found (st s)) ->
    accounted (process_all api ord dir ad s) (n + unresolved_tuples dir ad)
    /\ total_albums (st (process_all api ord dir ad s))
       = total_albums (st s) + List.length ad
    /\ NoDup (users_not_found (st (process_all api ord dir ad s)))
    /\ (forall e,
           In e (users_not_found (st (process_all api ord dir ad s)))
           <-> In e (users_not_found (st s))
               \/ exists k d r,
                   In (k, d) ad /\ In (e, r) (users d)
                   /\ resolves dir e = false).
Proof.
  unfold process_all, unresolved_tuples.
  induction ad as [|[k d] ad IH]; intros s n H Hnd; cbn [fold_left map list_sum].
  - rewrite !Nat.add_0_r. split; [exact H|]. split; [reflexivity|].
    split; [exact Hnd|]. intros e. split; [now left|].
    now intros [H'|(? & ? & ? & [] & _)].
  - destruct (process_album_accounted s k d n H Hnd) as (H1 & T1 & N1 & I1).
    destruct (IH _ _ H1 N1) as (H2 & T2 & N2 & I2).
    cbn [snd List.length]. split; [|split; [|split; [exact N2|]]].
    + unfold list_sum. cbn [fold_right]. fold (list_sum
        (map (fun kd : string * album_entry =>
                List.length
                  (filter (fun t => negb (resolves dir (fst t)))
                     (users (snd kd)))) ad)).
      now rewrite Nat.add_assoc.
    + rewrite T2, T1. lia.
    + intros e. rewrite I2, I1. split.
      * intros [[H'|((r & Hin) & Hr)]|(k' & d' & r & Hin & Hu & Hr)].
        -- now left.
        -- right. exists k, d, r. simpl. auto.
        -- right. exists k', d', r. simpl. auto.
      * intros [H'|(k' & d' & r & [[= <- <-]|Hin] & Hu & Hr)].
        -- left; now left.
        -- left; right. split; [now exists r|exact Hr].
        -- right. now exists k', d', r.
Qed.

End RunAccounting.

Section CompletedRuns.

Context {W : Type} (api : API W) (ord : SetOrder).

Lemma process_share_albums_completed (file : option (list (list string)))
  (w : W) (s : stats) :
  result (process_share_albums api ord file w) = Completed s ->
  exists us ad,
    snd (api_get_users api w) = Some us
    /\ desired_state file = Some ad
    /\ s = st (process_all api ord (build_email_to_id us) ad
                 {| world := fst (api_get_users api w); calls := [];
                    st := stats0 |})
    /\ issued (process_share_albums api ord file w)
       = calls (process_all api ord (build_email_to_id us) ad
                  {| world := fst (api_get_users api w); calls := [];
                     st := stats0 |}).
Proof.
  unfold process_share_albums, desired_state, get_users.
  destruct (api_get_users api w) as [w1 [us|]]; cbn [option_map fst snd];
    [|discriminate].
  destruct (open_csv file) as [e|[headers rows]];
    [destruct e; discriminate|].
  destruct (parse_header headers) as [c|]; [|discriminate].
  destruct (ingest_rows c [] rows) as [e|ad]; [destruct e; discriminate|].
  cbn [result issued]. intros [= <-]. exists us, ad. auto.
Qed.

Lemma resolves_built (us : list user_json) (e : string) :
  resolves (build_email_to_id us) e = false
  <-> dict_get (build_email_to_id us) e = None.
Proof.
  unfold resolves.
  destruct (dict_get (build_email_to_id us) e) as [uid|] eqn:Hd.
  - rewrite (build_email_to_id_truthy us e uid Hd). split; discriminate.
  - split; reflexivity.
Qed.

(** X7: the statistics of a completed run account for every request
    exactly once.  The album counter is the number of distinct album ids
    ingested; the successful-shares, users-removed and removal-failures
    counters are the numbers of successful share/update requests, successful
    removal requests and failed removal requests of the run; the
    failed-shares counter is the number of failed share/update requests plus
    the number of desired tuples whose email the directory does not
    resolve. *)
Theorem statistics_account_for_requests (file : option (list (list string)))
  (w : W) (s : stats) :
  result (process_share_albums api ord file w) = Completed s ->
  exists us ad,
    snd (api_get_users api w) = Some us
    /\ desired_state file = Some ad
    /\ total_albums s = List.length ad
    /\ successful_shares s
       = ok_shares (issued (process_share_albums api ord file w))
    /\ failed_shares s
       = failed_share_count (issued (process_share_albums api ord file w))
         + unresolved_tuples (build_email_to_id us) ad
    /\ users_removed s
       = ok_removals (issued (process_share_albums api ord file w))
    /\ removal_failures s
       = failed_removals (issued (process_share_albums api ord file w)).
Proof.
  intros Hres.
  destruct (process_share_albums_completed file w s Hres)
    as (us & ad & Hus & Hds & -> & ->).
  exists us, ad. split; [exact Hus|]. split; [exact Hds|].
  destruct (process_all_accounted api ord (build_email_to_id us) ad
              {| world := fst (api_get_users api w); calls := [];
                 st := stats0 |} 0) as ((H1 & H2 & H3 & H4) & T & _).
  - repeat split.
  - constructor.
  - cbn [st total_albums stats0] in T. auto.
Qed.

(** X8: the list of users not found that a completed run reports holds no
    email twice and holds exactly the emails of desired tuples that are
    absent from the directory; an email the directory knows is never
    reported. *)
Theorem users_not_found_are_the_unresolved
  (file : option (list (list string))) (w : W) (s : stats) :
  result (process_share_albums api ord file w) = Completed s ->
  exists us ad,
    snd (api_get_users api w) = Some us
    /\ desired_state file = Some ad
    /\ NoDup (users_not_found s)
    /\ forall e,
         In e (users_not_found s)
         <-> exists k d r,
               In (k, d) ad /\ In (e, r) (users d)
               /\ dict_get (build_email_to_id us) e = None.
Proof.
  intros Hres.
  destruct (process_share_albums_completed file w s Hres)
    as (us & ad & Hus & Hds & -> & _).
  exists us, ad. split; [exact Hus|]. split; [exact Hds|].
  destruct (process_all_accounted api ord (build_email_to_id us) ad
              {| world := fst (api_get_users api w); calls := [];
                 st := stats0 |} 0) as (_ & _ & Hnd & Hiff).
  - repeat split.
  - constructor.
  - split; [exact Hnd|]. intros e. rewrite Hiff. cbn [st stats0 users_not_found].
    split.
    + intros [[]|(k & d & r & H1 & H2 & H3)]. exists k, d, r.
      apply resolves_built in H3. auto.
    + intros (k & d & r & H1 & H2 & H3). right. exists k, d, r.
      apply resolves_built in H3. auto.
Qed.

End CompletedRuns.

Lemma statistics_account_for_requests_witness :
  exists us ad,
    snd (api_get_users model_api demo_server) = Some us
    /\ desired_state (Some with_strangers) = Some ad
    /\ 2 = List.length ad
    /\ 1 = ok_shares (issued (process_share_albums model_api insertion_order
                                (Some with_strangers) demo_server))
    /\ 3 = failed_share_count
             (issued (process_share_albums model_api insertion_order
                        (Some with_strangers) demo_server))
           + unresolved_tuples (build_email_to_id us) ad
    /\ 2 = ok_removals (issued (process_share_albums model_api insertion_order
                                  (Some with_strangers) demo_server))
    /\ 0 = failed_removals
             (issued (process_share_albums model_api insertion_order
                        (Some with_strangers) demo_server)).
Proof.
  apply (statistics_account_for_requests model_api insertion_order
           (Some with_strangers) demo_server
           {| total_albums := 2; successful_shares := 1; failed_shares := 3;
              users_removed := 2; removal_failures := 0;
              users_not_found := ["zoe@x.com"] |}).
  reflexivity.
Defined.

Lemma users_not_found_are_the_unresolved_witness :
  exists us ad,
    snd (api_get_users model_api demo_server) = Some us
    /\ desired_state (Some with_strangers) = Some ad
    /\ NoDup ["zoe@x.com"]
    /\ forall e,
         In e ["zoe@x.com"]
         <-> exists k d r,
               In (k, d) ad /\ In (e, r) (users d)
               /\ dict_get (build_email_to_id us) e = None.
Proof.
  apply (users_not_found_are_the_unresolved model_api insertion_order
           (Some with_strangers) demo_server
           {| total_albums := 2; successful_shares := 1; failed_shares := 3;
              users_removed := 2; removal_failures := 0;
              users_not_found := ["zoe@x.com"] |}).
  reflexivity.
Defined.

(** ** How a run ends *)

Lemma parse_header_wellformed (headers : list string) :
  parse_header headers = None -> header_lacks_column headers.
Proof.
  unfold parse_header, header_lacks_column.
  destruct (index COL_ALBUM_NAME headers) as [n1|] eqn:H1.
  - destruct (index COL_ALBUM_ID headers) as [n2|] eqn:H2.
    + destruct (index COL_ROLE headers) as [n3|] eqn:H3; [discriminate|].
      intros _. right; right. intros Hin.
      apply index_present in Hin. destruct Hin as (m & Hn & _). congruence.
    + intros _. right; left. intros Hin.
      apply index_present in Hin. destruct Hin as (m & Hn & _). congruence.
  - intros _. left. intros Hin.
    apply index_present in Hin. destruct Hin as (m & Hn & _). congruence.
Qed.

Section Outcome.

Context {W : Type} (api : API W) (ord : SetOrder).

Lemma run_outcome (file : option (list (list string))) (w : W) :
  match result (process_share_albums api ord file w) with
  | Completed _ =>
      exists us headers rows c,
        snd (api_get_users api w) = Some us
        /\ file = Some (headers :: rows)
        /\ parse_header headers = Some c
        /\ Forall (readable_row c) rows
  | InvalidFormat =>
      (exists us headers rows,
          snd (api_get_users api w) = Some us
          /\ file = Some (headers :: rows)
          /\ header_lacks_column headers)
      /\ issued (process_share_albums api ord file w) = []
      /\ final (process_share_albums api ord file w)
         = fst (api_get_users api w)
  | SysExit code =>
      code = 1%Z
      /\ issued (process_share_albums api ord file w) = []
      /\ final (process_share_albums api ord file w)
         = fst (api_get_users api w)
      /\ (snd (api_get_users api w) = None
          \/ file = None \/ file = Some []
          \/ exists headers rows c,
               file = Some (headers :: rows)
               /\ parse_header headers = Some c
               /\ ~ Forall (readable_row c) rows)
  end.
Proof.
  unfold process_share_albums, get_users, open_csv.
  destruct (api_get_users api w) as [w1 [us|]]; cbn [option_map fst snd];
    [|simpl; repeat split; now left].
  destruct file as [[|headers rows]|];
    [simpl; repeat split; right; right; now left
    |
    |simpl; repeat split; right; now left].
  destruct (parse_header headers) as [c|] eqn:Hh.
  - destruct (ingest_rows_outcome c rows []) as (Hiff & Herr).
    destruct (ingest_rows c [] rows) as [e|ad] eqn:Hi.
    + rewrite (Herr e eq_refl). simpl. repeat split.
      right; right; right. exists headers, rows, c. repeat split; auto.
      intros Hall. apply Hiff in Hall. destruct Hall as (? & ?). discriminate.
    + cbn [result]. exists us, headers, rows, c. repeat split; auto.
      apply Hiff. now exists ad.
  - cbn [result issued final]. split; [|auto].
    exists us, headers, rows. repeat split; auto.
    now apply parse_header_wellformed.
Qed.

Lemma https_not_rewritten (url : string) :
  String.prefix "https://" url = true -> adjust_url url = url.
Proof.
  intros Hs. unfold adjust_url.
  destruct (String.prefix "http://" url) eqn:Hp; [|reflexivity].
  exfalso. apply String.prefix_correct in Hs, Hp.
  destruct url as [|c1 [|c2 [|c3 [|c4 [|c5 rest]]]]]; simpl in Hs, Hp;
    try discriminate Hs.
  injection Hs as _ _ _ _ Hs _. injection Hp as _ _ _ _ Hp _.
  rewrite Hs in Hp. discriminate Hp.
Qed.

(** X9: fatal input errors stop a run before any request.  When the user
    listing fails, the input file is missing, the file is empty, or the
    header has the three fixed columns but some non-empty data row is too
    short to hold the id and role cells, the run exits with status 1 and has
    sent no removal and no share/update request; the only request made is
    the user listing.  Conversely a removal or share/update request is only
    sent, and a run only completes, after the user listing succeeded and
    the whole file was read: the header has the fixed columns and every
    non-empty data row holds the id and role cells. *)
Theorem fatal_input_errors_precede_requests
  (file : option (list (list string))) (w : W) :
  (snd (api_get_users api w) = None
   \/ file = None \/ file = Some []
   \/ (exists headers rows c,
          file = Some (headers :: rows)
          /\ parse_header headers = Some c
          /\ ~ Forall (readable_row c) rows) ->
   result (process_share_albums api ord file w) = SysExit 1
   /\ issued (process_share_albums api ord file w) = []
   /\ final (process_share_albums api ord file w) = fst (api_get_users api w))
  /\ (issued (process_share_albums api ord file w) <> [] ->
      exists us headers rows c,
        snd (api_get_users api w) = Some us
        /\ file = Some (headers :: rows)
        /\ parse_header headers = Some c
        /\ Forall (readable_row c) rows)
  /\ (forall s,
         result (process_share_albums api ord file w) = Completed s ->
         exists us headers rows c,
           snd (api_get_users api w) = Some us
           /\ file = Some (headers :: rows)
           /\ parse_header headers = Some c
           /\ Forall (readable_row c) rows).
Proof.
  pose proof (run_outcome file w) as Hout.
  destruct (result (process_share_albums api ord file w)) as [s| |code].
  - split; [|split; [intros _; exact Hout|intros s' _; exact Hout]].
    destruct Hout as (us & headers & rows & c & Hu & Hf & Hp & Hall).
    intros [H|[H|[H|(headers' & rows' & c' & Hf' & Hp' & Hn)]]]; exfalso.
    + congruence.
    + congruence.
    + congruence.
    + rewrite Hf in Hf'. injection Hf' as <- <-.
      rewrite Hp in Hp'. injection Hp' as <-. exact (Hn Hall).
  - destruct Hout as ((us & headers & rows & Hu & Hf & Hl) & Hi & Hw).
    split; [|split; [intros H; now rewrite Hi in H|discriminate]].
    intros [H|[H|[H|(headers' & rows' & c' & Hf' & Hp' & Hn)]]]; exfalso.
    + congruence.
    + congruence.
    + congruence.
    + rewrite Hf in Hf'. injection Hf' as <- <-.
      rewrite (parse_header_malformed _ Hl) in Hp'. discriminate Hp'.
  - destruct Hout as (-> & Hi & Hw & _).
    split; [auto|split; [intros H; now rewrite Hi in H|discriminate]].
Qed.

(** X10: the exit status of the command line.  Once the arguments are
    parsed the process ends with status 0 or 1.  It ends with 1, having
    contacted nothing but the address probe, when the command, the URL or
    the API key is missing, the URL has no http or https scheme, the URL
    starts with https:// and the probe of that very address does not find
    the server, no address at all is reachable, or share-albums is called
    without an input file.  Removal and share/update requests are only sent
    by share-albums with an input file, after the user listing succeeded
    and the whole file was read; a file is only written by list-all, after
    a successful album listing with at least one album, and the status is
    then 0. *)
Theorem exit_status_of_main (e : env) (a : args) (w : W) :
  (exit_code (main api ord e a w) = 0%Z \/ exit_code (main api ord e a w) = 1%Z)
  /\ (arg_command a = None
      \/ arg_given (arg_url a) = false
      \/ arg_given (arg_api_key a) = false
      \/ has_http_scheme (get_or "" (arg_url a)) = false
      \/ (String.prefix "https://" (get_or "" (arg_url a)) = true
          /\ probe_url e (get_or "" (arg_url a)) <> Reachable)
      \/ (forall u, probe_url e u <> Reachable)
      \/ (arg_command a = Some ShareAlbums /\ arg_given (arg_input a) = false) ->
      main api ord e a w
      = {| exit_code := 1; exit_world := w; exit_calls := [];
           exit_written := None |})
  /\ (exit_calls (main api ord e a w) <> [] ->
      arg_command a = Some ShareAlbums
      /\ arg_given (arg_input a) = true
      /\ exists us headers rows c,
           snd (api_get_users api w) = Some us
           /\ read_csv e (get_or "" (arg_input a)) = Some (headers :: rows)
           /\ parse_header headers = Some c
           /\ Forall (readable_row c) rows)
  /\ (forall t, exit_written (main api ord e a w) = Some t ->
                arg_command a = Some ListAll
                /\ exit_code (main api ord e a w) = 0%Z
                /\ exit_calls (main api ord e a w) = []
                /\ exists albums,
                     snd (api_get_albums api w) = Some albums
                     /\ albums <> [] /\ t = export_table albums).
Proof.
  unfold main.
  destruct (arg_command a) as [cmd|];
    [|split; [now right|split; [reflexivity|split; [now intros []|discriminate]]]].
  destruct (arg_given (arg_url a));
    [|split; [now right|split; [reflexivity|split; [now intros []|discriminate]]]].
  destruct (arg_given (arg_api_key a));
    [|split; [now right|split; [reflexivity|split; [now intros []|discriminate]]]].
  cbn [negb orb].
  destruct (has_http_scheme (get_or "" (arg_url a)));
    [|split; [now right|split; [reflexivity|split; [now intros []|discriminate]]]].
  cbn [negb].
  destruct (probe_url e (adjust_url (get_or "" (arg_url a)))) eqn:Hp;
    [|split; [now right|split; [reflexivity|split; [now intros []|discriminate]]]
     |split; [now right|split; [reflexivity|split; [now intros []|discriminate]]]].
  assert (Hgo : arg_given (arg_input a) = true \/ cmd = ListAll ->
                ~ (Some cmd = None \/ true = false \/ true = false
                   \/ true = false
                   \/ (String.prefix "https://" (get_or "" (arg_url a)) = true
                       /\ probe_url e (get_or "" (arg_url a)) <> Reachable)
                   \/ (forall u, probe_url e u <> Reachable)
                   \/ (Some cmd = Some ShareAlbums
                       /\ arg_given (arg_input a) = false))).
  { intros Hin [H|[H|[H|[H|[(Hs & H)|[H|(Hc & H)]]]]]]; try discriminate.
    - rewrite (https_not_rewritten _ Hs) in Hp. exact (H Hp).
    - exact (H _ Hp).
    - destruct Hin as [Hin|Hin]; [congruence|]. subst. discriminate Hc. }
  destruct cmd.
  - specialize (Hgo (or_intror eq_refl)). unfold process_albums_to_csv.
    destruct (api_get_albums api w) as [w' [[|a0 albums]|]]; cbn [snd exit_code
      exit_calls exit_written].
    + split; [now left|]. split; [|split; [now intros []|discriminate]].
      intros H. now destruct (Hgo H).
    + split; [now left|]. split; [|split; [now intros []|]].
      * intros H. now destruct (Hgo H).
      * intros t [= <-]. repeat split. exists (a0 :: albums).
        repeat split. discriminate.
    + split; [now right|]. split; [|split; [now intros []|discriminate]].
      intros H. now destruct (Hgo H).
  - destruct (arg_given (arg_input a)) eqn:Hin; cbn [negb].
    + specialize (Hgo (or_introl eq_refl)).
      pose proof (run_outcome (read_csv e (get_or "" (arg_input a))) w) as Hout.
      cbn [exit_code exit_calls exit_written].
      destruct (result (process_share_albums api ord
                          (read_csv e (get_or "" (arg_input a))) w)) as [s| |code].
      * split; [now left|]. split; [|split; [auto|discriminate]].
        intros H. now destruct (Hgo H).
      * destruct Hout as (_ & Hi & _).
        split; [now left|].
        split; [|split; [intros H; now rewrite Hi in H|discriminate]].
        intros H. now destruct (Hgo H).
      * destruct Hout as (-> & Hi & _). split; [now right|].
        split; [|split; [intros H; now rewrite Hi in H|discriminate]].
        intros H. now destruct (Hgo H).
    + split; [now right|split; [reflexivity|split; [now intros []|discriminate]]].
Qed.

End Outcome.

Lemma fatal_input_errors_precede_requests_witness :
  result (process_share_albums model_api insertion_order
            (Some [["AlbumName"; "AlbumId"; "Role"; "User 1"];
                   ["Trip"; "A1"; "viewer"; "carol@x.com"]; ["Holiday"]])
            demo_server) = SysExit 1
  /\ issued (process_share_albums model_api insertion_order
               (Some [["AlbumName"; "AlbumId"; "Role"; "User 1"];
                      ["Trip"; "A1"; "viewer"; "carol@x.com"]; ["Holiday"]])
               demo_server) = []
  /\ final (process_share_albums model_api insertion_order
              (Some [["AlbumName"; "AlbumId"; "Role"; "User 1"];
                     ["Trip"; "A1"; "viewer"; "carol@x.com"]; ["Holiday"]])
              demo_server) = demo_server.
Proof.
  apply (proj1 (fatal_input_errors_precede_requests model_api insertion_order
                  (Some [["AlbumName"; "AlbumId"; "Role"; "User 1"];
                         ["Trip"; "A1"; "viewer"; "carol@x.com"]; ["Holiday"]])
                  demo_server)).
  right; right; right.
  exists ["AlbumName"; "AlbumId"; "Role"; "User 1"],
    [["Trip"; "A1"; "viewer"; "carol@x.com"]; ["Holiday"]],
    (export_columns 1).
  split; [reflexivity|]. split; [reflexivity|].
  intros H. inversion H as [|? ? _ H2]. inversion H2 as [|? ? [H3|H3] _].
  - discriminate H3.
  - simpl in H3. lia.
Defined.

Lemma exit_status_of_main_witness :
  main model_api insertion_order (demo_env demote_alice) no_input_args demo_server
  = {| exit_code := 1; exit_world := demo_server; exit_calls := [];
       exit_written := None |}
  /\ main model_api insertion_order offline_env share_args demo_server
     = {| exit_code := 1; exit_world := demo_server; exit_calls := [];
          exit_written := None |}
  /\ (arg_command share_args = Some ShareAlbums
      /\ arg_given (arg_input share_args) = true
      /\ exists us headers rows c,
           snd (api_get_users model_api demo_server) = Some us
           /\ read_csv (demo_env demote_alice)
                (get_or "" (arg_input share_args)) = Some (headers :: rows)
           /\ parse_header headers = Some c
           /\ Forall (readable_row c) rows)
  /\ (arg_command list_args = Some ListAll
      /\ exit_code (main model_api insertion_order (demo_env []) list_args
                      demo_server) = 0%Z
      /\ exit_calls (main model_api insertion_order (demo_env []) list_args
                       demo_server) = []
      /\ exists albums,
           snd (api_get_albums model_api demo_server) = Some albums
           /\ albums <> []
           /\ export_table (srv_albums demo_server) = export_table albums).
Proof.
  split; [|split; [|split]].
  - apply (proj1 (proj2 (exit_status_of_main model_api insertion_order
                           (demo_env demote_alice) no_input_args demo_server))).
    right; right; right; right; right; right. split; reflexivity.
  - apply (proj1 (proj2 (exit_status_of_main model_api insertion_order
                           offline_env share_args demo_server))).
    right; right; right; right; left. split; [reflexivity|discriminate].
  - apply (proj1 (proj2 (proj2 (exit_status_of_main model_api insertion_order
                                  (demo_env demote_alice) share_args
                                  demo_server)))).
    vm_compute. discriminate.
  - apply (proj2 (proj2 (proj2 (exit_status_of_main model_api insertion_order
                                  (demo_env []) list_args demo_server)))
             (export_table (srv_albums demo_server))).
    reflexivity.
Defined.

(** ** The user directory *)

Lemma listedb_listed (u : user_json) : listedb u = true <-> listed u.
Proof.
  unfold listedb, listed, user_email, user_id.
  destruct (u_email u) as [em|], (u_id u) as [i|]; simpl;
    rewrite ?andb_true_iff; split; try discriminate; try tauto;
    intros (H1 & H2 & _); discriminate.
Qed.

Lemma directory_step_get (d : dict string) (u : user_json) (e : string) :
  dict_get (directory_step d u) e
  = if listedb u && String.eqb (lower (user_email u)) e
    then Some (user_id u) else dict_get d e.
Proof.
  unfold directory_step, listedb, user_email, user_id.
  destruct (u_email u) as [em|], (u_id u) as [i|]; simpl; try reflexivity.
  destruct (truthy em && truthy i); simpl; [|reflexivity].
  apply dict_get_set.
Qed.

Lemma directory_fold_get (us : list user_json) :
  forall (d : dict string) (e : string),
    dict_get (fold_left directory_step us d) e
    = match last_listed us e with Some i => Some i | None => dict_get d e end.
Proof.
  induction us as [|u us IH]; intros d e; cbn [fold_left last_listed];
    [reflexivity|].
  rewrite IH. destruct (last_listed us e); [reflexivity|].
  rewrite directory_step_get.
  now destruct (listedb u && String.eqb (lower (user_email u)) e).
Qed.

Lemma directory_get (us : list user_json) (e : string) :
  dict_get (build_email_to_id us) e = last_listed us e.
Proof.
  unfold build_email_to_id. rewrite directory_fold_get. simpl.
  now destruct (last_listed us e).
Qed.

Lemma last_listed_None (us : list user_json) (e : string) :
  last_listed us e = None
  <-> forall u, In u us -> listed u -> lower (user_email u) <> e.
Proof.
  induction us as [|x us IH]; simpl; [split; [intros _ ? []|reflexivity]|].
  destruct (last_listed us e) as [i|].
  - split; [discriminate|]. intros H. exfalso.
    assert (Hn : @None string = None) by reflexivity.
    destruct IH as (_ & IH). discriminate IH.
    intros u Hu. apply H. now right.
  - destruct IH as (IH & _). specialize (IH eq_refl).
    destruct (listedb x) eqn:Hl; simpl.
    + destruct (String.eqb_spec (lower (user_email x)) e) as [He|He].
      * split; [discriminate|]. intros H. exfalso.
        apply (H x); [now left|now apply listedb_listed|exact He].
      * split; [|reflexivity]. intros _ u [<-|Hu]; [now intros _|now apply IH].
    + split; [|reflexivity]. intros _ u [<-|Hu] Hlist; [|now apply IH].
      apply listedb_listed in Hlist. congruence.
Qed.

Lemma last_listed_Some (us : list user_json) (e uid : string) :
  last_listed us e = Some uid
  <-> exists us1 u us2,
        us = us1 ++ u :: us2 /\ listed u /\ lower (user_email u) = e
        /\ user_id u = uid
        /\ forall u', In u' us2 -> listed u' -> lower (user_email u') <> e.
Proof.
  induction us as [|x us IH]; cbn [last_listed].
  - split; [discriminate|]. intros (us1 & u & us2 & H & _).
    now destruct us1.
  - destruct (last_listed us e) as [i|] eqn:Hl.
    + split.
      * intros [= ->]. destruct (proj1 IH eq_refl)
          as (us1 & u & us2 & -> & H1 & H2 & H3 & H4).
        exists (x :: us1), u, us2. auto.
      * intros (us1 & u & us2 & Heq & H1 & H2 & H3 & H4).
        destruct us1 as [|y us1]; simpl in Heq; injection Heq as -> ->.
        -- apply last_listed_None in H4. congruence.
        -- apply IH. exists us1, u, us2. auto.
    + split.
      * destruct (listedb x) eqn:Hx; simpl; [|discriminate].
        destruct (String.eqb_spec (lower (user_email x)) e) as [He|He];
          [|discriminate].
        intros [= <-]. exists [], x, us.
        split; [reflexivity|]. split; [now apply listedb_listed|].
        split; [exact He|]. split; [reflexivity|].
        now apply last_listed_None.
      * intros (us1 & u & us2 & Heq & H1 & H2 & H3 & H4).
        destruct us1 as [|y us1]; simpl in Heq; injection Heq as -> ->.
        -- apply listedb_listed in H1. rewrite H1, H2, String.eqb_refl.
           simpl. congruence.
        -- exfalso. assert (Hs : @None string = Some uid).
           { apply IH. exists us1, u, us2. auto. }
           discriminate Hs.
Qed.

(** X11: the directory [get_users] builds.  An email resolves to the id of
    the last user of the listing that has a non-empty email and a non-empty
    id and whose email, lower-cased, is the one looked up; users without
    email or id are passed over, and an email resolves to nothing exactly
    when no such user exists. *)
Theorem directory_last_write_wins (us : list user_json) (e : string) :
  (forall uid,
      dict_get (build_email_to_id us) e = Some uid
      <-> exists us1 u us2,
            us = us1 ++ u :: us2 /\ listed u /\ lower (user_email u) = e
            /\ user_id u = uid
            /\ forall u', In u' us2 -> listed u' -> lower (user_email u') <> e)
  /\ (dict_get (build_email_to_id us) e = None
      <-> forall u, In u us -> listed u -> lower (user_email u) <> e).
Proof.
  rewrite directory_get. split.
  - intros uid. apply last_listed_Some.
  - apply last_listed_None.
Qed.

Lemma directory_last_write_wins_witness :
  dict_get (build_email_to_id twin_users) "ann@x.com" = Some "u9"
  /\ forall u, In u twin_users -> listed u ->
               lower (user_email u) <> "ghost@x.com".
Proof.
  split.
  - apply (proj1 (directory_last_write_wins twin_users "ann@x.com") "u9").
    exists [mk_user "Ann@x.com" "u1";
            {| u_email := Some "ghost@x.com"; u_id := None |}],
      (mk_user "ann@X.com" "u9"), [mk_user "" "u5"].
    split; [reflexivity|]. split; [repeat split|].
    split; [reflexivity|]. split; [reflexivity|].
    intros u' [<-|[]] (_ & _ & H & _). discriminate H.
  - apply (proj2 (directory_last_write_wins twin_users "ghost@x.com")).
    reflexivity.
Defined.

(** ** The export, row by row *)

(** X12: the export loses no share and invents none.  Every album of the
    listing has at least one row, and a row for a given name, id and role
    lists a given email exactly when the album of that name and id has a
    share entry with that role (unknown when missing) and that non-empty
    email. *)
Theorem export_lists_every_share (albums : list album_json) :
  (forall a, In a albums ->
             exists p, In p (processed_albums albums)
                       /\ p_name p = get_or "" (a_albumName a)
                       /\ p_id p = get_or "" (a_id a))
  /\ (forall name id rl E,
         (exists p, In p (processed_albums albums)
                    /\ p_name p = name /\ p_id p = id /\ p_role p = rl
                    /\ In E (p_users p))
         <-> exists a ui,
               In a albums /\ In ui (album_entries a)
               /\ name = get_or "" (a_albumName a)
               /\ id = get_or "" (a_id a)
               /\ rl = entry_role ui /\ E = exported_email ui
               /\ truthy E = true).
Proof.
  unfold processed_albums. split.
  - intros a Ha.
    assert (Hne : exists p, In p (album_rows a)
                            /\ p_name p = get_or "" (a_albumName a)
                            /\ p_id p = get_or "" (a_id a)).
    { rewrite album_rows_spec. destruct (album_entries a) as [|u0 l0] eqn:Hl.
      - eexists. split; [now left|]. split; reflexivity.
      - assert (Hr : In (entry_role u0) (roles_in_order (u0 :: l0))).
        { apply In_roles_in_order. exists u0. split; [now left|reflexivity]. }
        eexists. split; [apply in_map; exact Hr|]. split; reflexivity. }
    destruct Hne as (p & Hp & Hn & Hi). exists p.
    split; [|auto]. apply in_flat_map. now exists a.
  - intros name id rl E. split.
    + intros (p & Hp & <- & <- & <- & HE). apply in_flat_map in Hp.
      destruct Hp as (a & Ha & Hp). rewrite album_rows_spec in Hp.
      destruct (album_entries a) as [|u0 l0] eqn:Hl.
      * destruct Hp as [<-|[]]. contradiction.
      * apply in_map_iff in Hp. destruct Hp as (R & <- & HR).
        cbn [p_name p_id p_role p_users] in *.
        apply In_users_with_role in HE.
        destruct HE as (ui & Hui & Hro & Hem & Ht).
        exists a, ui. rewrite Hl. subst. auto 10.
    + intros (a & ui & Ha & Hui & -> & -> & -> & -> & Ht).
      exists {| p_name := get_or "" (a_albumName a);
                p_id := get_or "" (a_id a);
                p_role := entry_role ui;
                p_users := users_with_role (entry_role ui) (album_entries a) |}.
      cbn [p_name p_id p_role p_users]. repeat split.
      * apply in_flat_map. exists a. split; [exact Ha|].
        rewrite album_rows_spec.
        destruct (album_entries a) as [|u0 l0] eqn:Hl; [contradiction|].
        apply in_map_iff. exists (entry_role ui). split; [reflexivity|].
        apply In_roles_in_order. now exists ui.
      * apply In_users_with_role. exists ui. auto.
Qed.

Lemma export_lists_every_share_witness :
  exists p, In p (processed_albums (srv_albums demo_server))
            /\ p_name p = "Trip" /\ p_id p = "A1" /\ p_role p = "viewer"
            /\ In "Bob@x.com" (p_users p).
Proof.
  apply (proj2 (export_lists_every_share (srv_albums demo_server))
           "Trip" "A1" "viewer" "Bob@x.com").
  exists (mk_album "A1" "Trip" [mk_share "editor" alice; mk_share "viewer" bob;
                                mk_share "editor" carol]),
    (mk_share "viewer" bob).
  repeat split.
  - left; reflexivity.
  - right; left; reflexivity.
Defined.



(** ** What a successful run leaves on the server *)

Lemma run_keeps_consistent (ord : SetOrder) (ad : dict album_entry) :
  forall st0 : state server,
    consistent_server (world st0) ->
    (forall k d, In (k, d) ad ->
                 one_role_per_email d
                 /\ forall e r, In (e, r) (users d) -> truthy r = true) ->
    all_ok (calls (process_all model_api ord
                     (build_email_to_id (srv_users (world st0))) ad st0)) ->
    consistent_server
      (world (process_all model_api ord
                (build_email_to_id (srv_users (world st0))) ad st0)).
Proof.
  unfold process_all.
  induction ad as [|[k d] ad IH]; intros st0 Hc Hd Hok; cbn [fold_left] in *.
  - exact Hc.
  - set (st1 := process_album model_api ord
                  (build_email_to_id (srv_users (world st0))) st0 (k, d)) in *.
    assert (Hok1 : all_ok (calls st1)).
    { destruct (process_all_shape model_api ord
                  (build_email_to_id (srv_users (world st0))) ad st1)
        as (new & Hnew & _).
      unfold process_all in Hnew. rewrite Hnew in Hok.
      now apply all_ok_prefix in Hok. }
    destruct (Hd k d (or_introl eq_refl)) as (Hone & Htr).
    destruct (pass_settles ord (srv_users (world st0)) st0 k d Hc eq_refl
                Hone Htr Hok1) as (Hc1 & Hu1 & _).
    fold st1 in Hc1, Hu1. rewrite <- Hu1 in Hok |- *.
    apply (IH st1 Hc1); [|exact Hok].
    intros k0 d0 Hin. apply (Hd k0 d0). now right.
Qed.

Lemma current_user_is_listed (s : server) (k e r : string) :
  consistent_server s -> role_on s k e = Some r ->
  exists uid, dict_get (build_email_to_id (srv_users s)) e = Some uid.
Proof.
  intros ((Hl & Hu) & He) Hr.
  destruct (find_album k (srv_albums s)) as [a|] eqn:Hf;
    [|unfold role_on in Hr; rewrite Hf in Hr; discriminate Hr].
  rewrite (role_on_found s k a e Hf) in Hr.
  destruct (role_in_Some _ _ _ Hr) as (ui & Hin & _ & Hem & _).
  apply find_album_In in Hf.
  rewrite Forall_forall in He. specialize (He a Hf).
  unfold consistent_entries in He. rewrite Forall_forall in He.
  destruct (He ui Hin) as (u & Hau & Hu_in).
  exists (user_id u). rewrite <- Hem.
  replace (entry_email ui) with (user_email u)
    by (unfold entry_email, user_email; now rewrite Hau).
  apply directory_lists; [exact Hl| |exact Hu_in].
  intros u1 u2 H1 H2. now apply Hu.
Qed.

(** X14: what a successful run leaves behind, on the server model.  On a
    server whose users have an email and an id each, with distinct
    lower-cased emails and distinct ids, and whose share entries refer to
    listed users, for an input that lists no email under two roles of one
    album: after a run whose requests all succeeded, a named album's users
    are exactly the desired emails the directory resolves, each with its
    desired role; the user directory is unchanged; and albums the input does
    not name are as before. *)
Theorem successful_run_reaches_desired_state (ord : SetOrder)
  (file : option (list (list string))) (s : server) (ad : dict album_entry) :
  consistent_server s -> unambiguous file ->
  desired_state file = Some ad ->
  all_ok (issued (process_share_albums model_api ord file s)) ->
  (forall k d, In (k, d) ad ->
     forall e r,
       role_on (final (process_share_albums model_api ord file s)) k e = Some r
       <-> In (e, r) (users d)
           /\ dict_get (build_email_to_id (srv_users s)) e <> None)
  /\ srv_users (final (process_share_albums model_api ord file s))
     = srv_users s
  /\ (forall k', ~ In k' (dict_keys ad) ->
        find_album k'
          (srv_albums (final (process_share_albums model_api ord file s)))
        = find_album k' (srv_albums s)).
Proof.
  intros Hc Hun Hds Hok.
  destruct (process_share_albums_reconciles ord file s ad Hds) as (Hf & Hi).
  destruct (desired_state_spec file ad Hds) as (Hn & Htr).
  rewrite Hi in Hok. rewrite Hf.
  assert (Hd : forall k d, In (k, d) ad ->
                 one_role_per_email d
                 /\ forall e r, In (e, r) (users d) -> truthy r = true).
  { intros k d Hin. split; [now apply (Hun ad k d)|].
    intros e r. now apply (Htr k d e r). }
  destruct (run_settles ord (srv_users s) ad
              {| world := s; calls := []; st := stats0 |} Hn Hc eq_refl Hd Hok)
    as (Hu1 & Hset & Hframe).
  pose proof (run_keeps_consistent ord ad
                {| world := s; calls := []; st := stats0 |} Hc Hd Hok) as Hc1.
  cbn [world] in Hc1, Hframe.
  split; [|split; [exact Hu1|exact Hframe]].
  intros k d Hin e r. destruct (Hset k d Hin) as (S1 & S2). split.
  - intros Hr.
    destruct (current_user_is_listed _ k e r Hc1 Hr) as (uid & Hdir).
    rewrite Hu1 in Hdir.
    assert (Hkey : In e (map fst (users d))).
    { destruct (S1 e) as [H|H]; [|exact H|congruence].
      apply role_on_keys. congruence. }
    apply in_map_iff in Hkey. destruct Hkey as ([e' r'] & <- & Hin').
    cbn [fst] in *. pose proof (S2 e' r' uid Hin' Hdir) as Hr'.
    fold (role_on (world (process_all model_api ord
                            (build_email_to_id (srv_users s)) ad
                            {| world := s; calls := []; st := stats0 |}))
            k e') in Hr'.
    split; [|congruence].
    assert (r = r') by congruence. now subst.
  - intros (Hin' & Hdir).
    destruct (dict_get (build_email_to_id (srv_users s)) e) as [uid|] eqn:Hg;
      [|contradiction].
    exact (S2 e r uid Hin' Hg).
Qed.

Lemma successful_run_reaches_desired_state_witness :
  role_on (final (process_share_albums model_api reversed_order
                    (Some demote_alice) demo_server)) "A1" "alice@x.com"
  = Some "viewer".
Proof.
  destruct (successful_run_reaches_desired_state reversed_order
              (Some demote_alice) demo_server
              [("A1", {| users := [("alice@x.com", "viewer")];
                         role := "viewer" |})]
              demo_server_consistent demote_alice_unambiguous eq_refl)
    as (H & _).
  - vm_compute. repeat constructor.
  - apply (H "A1" _ (or_introl eq_refl)). split; [now left|discriminate].
Defined.

(** ** The current users of an album *)

Lemma role_in_absent (l : list album_user_json) (e : string) :
  (forall ui, In ui l -> visible ui = true -> lower (entry_email ui) <> e) ->
  role_in l e = None.
Proof.
  induction l as [|x l IH]; intros H; cbn [role_in]; [reflexivity|].
  rewrite IH by (intros ui Hui; apply H; now right).
  destruct (visible x) eqn:Hv; [|reflexivity].
  destruct (String.eqb_spec (lower (entry_email x)) e) as [He|He];
    [|reflexivity].
  exfalso. exact (H x (or_introl eq_refl) Hv He).
Qed.

Lemma role_in_last (l : list album_user_json) (e r : string) :
  role_in l e = Some r
  <-> exists l1 ui l2,
        l = l1 ++ ui :: l2 /\ visible ui = true
        /\ lower (entry_email ui) = e /\ get_or "" (au_role ui) = r
        /\ forall ui', In ui' l2 -> visible ui' = true ->
                       lower (entry_email ui') <> e.
Proof.
  induction l as [|x l IH]; cbn [role_in].
  - split; [discriminate|]. intros (l1 & ui & l2 & H & _). now destruct l1.
  - destruct (role_in l e) as [r0|] eqn:Hl.
    + split.
      * intros [= ->]. destruct (proj1 IH eq_refl)
          as (l1 & ui & l2 & -> & H1 & H2 & H3 & H4).
        exists (x :: l1), ui, l2. auto.
      * intros (l1 & ui & l2 & Heq & H1 & H2 & H3 & H4).
        destruct l1 as [|y l1]; simpl in Heq; injection Heq as -> ->.
        -- apply role_in_absent in H4. congruence.
        -- apply IH. exists l1, ui, l2. auto.
    + split.
      * destruct (visible x) eqn:Hx; simpl; [|discriminate].
        destruct (String.eqb_spec (lower (entry_email x)) e) as [He|He];
          [|discriminate].
        intros [= <-]. exists [], x, l.
        split; [reflexivity|]. split; [exact Hx|].
        split; [exact He|]. split; [reflexivity|].
        now apply role_in_None.
      * intros (l1 & ui & l2 & Heq & H1 & H2 & H3 & H4).
        destruct l1 as [|y l1]; simpl in Heq; injection Heq as -> ->.
        -- rewrite H1, H2, String.eqb_refl. simpl. congruence.
        -- exfalso. assert (Hs : @None string = Some r).
           { apply IH. exists l1, ui, l2. auto. }
           discriminate Hs.
Qed.

Lemma current_fold_nodup (l : list album_user_json) :
  forall d : dict string,
    NoDup (dict_keys d) -> NoDup (dict_keys (fold_left current_step l d)).
Proof.
  induction l as [|ui l IH]; intros d Hd; cbn [fold_left]; [exact Hd|].
  apply IH. unfold current_step. cbv zeta.
  destruct (truthy (lower (entry_email ui)) && truthy (get_or "" (au_role ui)));
    [|exact Hd].
  rewrite dict_keys_set.
  destruct (dict_mem (lower (entry_email ui)) d) eqn:Hm; [exact Hd|].
  apply NoDup_snoc; [exact Hd|]. rewrite <- dict_mem_In. congruence.
Qed.

Section CurrentUsers.

Context {W : Type} (api : API W).

(** X15: the mapping [get_current_album_users] returns.  It costs one
    detail request; when that request fails the mapping is empty; otherwise
    it holds every key once, and an email maps to the role of the last share
    entry of the album that has a non-empty email and a non-empty role and
    whose email, lower-cased, is the one looked up, the role being kept
    verbatim. *)
Theorem current_users_last_entry_wins (k : string) (w : W) :
  fst (get_current_album_users api k w) = fst (api_get_album_details api k w)
  /\ NoDup (dict_keys (snd (get_current_album_users api k w)))
  /\ (snd (api_get_album_details api k w) = None ->
      snd (get_current_album_users api k w) = [])
  /\ (forall a, snd (api_get_album_details api k w) = Some a ->
        forall e r,
          dict_get (snd (get_current_album_users api k w)) e = Some r
          <-> exists l1 ui l2,
                album_entries a = l1 ++ ui :: l2 /\ visible ui = true
                /\ lower (entry_email ui) = e
                /\ au_role ui = Some r
                /\ forall ui', In ui' l2 -> visible ui' = true ->
                               lower (entry_email ui') <> e).
Proof.
  unfold get_current_album_users.
  destruct (api_get_album_details api k w) as [w' det]; cbn [fst snd].
  split; [reflexivity|]. split; [|split].
  - destruct det as [a|]; simpl; [|constructor].
    apply current_fold_nodup. constructor.
  - now intros ->.
  - intros a -> e r. rewrite current_users_get, role_in_last.
    split; intros (l1 & ui & l2 & H0 & H1 & H2 & H3 & H4);
      exists l1, ui, l2; (split; [exact H0|]); (split; [exact H1|]);
      (split; [exact H2|]); (split; [|exact H4]);
      destruct (visible_role ui H1) as (Hr & _).
    + now rewrite Hr, H3.
    + now rewrite H3.
Qed.

End CurrentUsers.

Lemma current_users_last_entry_wins_witness :
  dict_get (snd (get_current_album_users model_api "A1" cased_server))
    "alice@x.com" = Some "Editor".
Proof.
  destruct (current_users_last_entry_wins model_api "A1" cased_server)
    as (_ & _ & _ & H).
  apply (H (mk_album "A1" "Trip" [mk_share "Editor" alice]) eq_refl).
  exists [], (mk_share "Editor" alice), [].
  split; [reflexivity|]. split; [reflexivity|].
  split; [reflexivity|]. split; [reflexivity|]. intros ui' [].
Defined.
